(** * node_guide: the UserSync client and the SyncAPI mock server

    A shallow embedding of [UserSync/token.js], [UserSync/promises.js]
    and [SyncAPI/server.js].

    - [JS] holds the few pieces of JavaScript the programs rely on:
      truthiness, objects with their properties in order of creation,
      property lookup through [Object.prototype], and promises that
      settle once.
    - [UserSync] is the client.  Node runs one callback at a time, and
      the promise reactions a callback triggers run before the next
      callback; so the client is a function [step] from a state and one
      event (the interval timer fires, or a callback registered with
      [request] or ldapjs is called) to the next state.
    - [SyncAPI] is the Express server: its token table, its three routes
      and its periodic sweep.

    The properties follow the definitions: the credential cache
    ([TokenCache]), the server ([Server]), the comparison of the two
    user lists ([Reconciliation]), the timer ([Scheduler]), the
    directory read ([Directory]) and the creation requests along a run
    ([Isolation]). *)

From Stdlib Require Import ZArith QArith Qabs Lia Ascii.
From stdpp Require Import base gmap strings list fin_maps pretty sorting.

Local Open Scope Z_scope.

(* ===================================================================== *)
(** ** JavaScript values, objects and promises *)
(* ===================================================================== *)

Module JS.

(** The values a surname or a username can be: a missing field reads as
    [undefined], a present one is a string.  [Inherited] stands for what
    a lookup finds on [Object.prototype] (a function, or the prototype
    itself for [__proto__]). *)
Inductive value :=
  | Undefined
  | Str (s : string)
  | Inherited (name : string).

(** [!v] is [negb (truthy v)]: [undefined] and the empty string are
    falsy, every object or function is truthy. *)
Definition truthy (v : value) : bool :=
  match v with
  | Undefined => false
  | Str s => negb (String.eqb s "")
  | Inherited _ => true
  end.

(** The property names every object created by [{}] inherits. *)
Definition Object_prototype : list string :=
  [ "constructor"; "__defineGetter__"; "__defineSetter__"; "hasOwnProperty";
    "__lookupGetter__"; "__lookupSetter__"; "isPrototypeOf";
    "propertyIsEnumerable"; "toString"; "valueOf"; "__proto__";
    "toLocaleString" ]%string.

(** An object used as a dictionary is the list of its own properties,
    in the order in which they were created; its prototype is
    [Object.prototype].  [set] never lists a name twice; should a list
    do so, the first property of that name is the one that counts. *)
Definition object : Type := list (string * value).

(** The own properties as a table from names to values. *)
Definition own (o : object) : gmap string value := list_to_map o.

(** [o !! k] is the own property [k] of [o], [dom o] the set of the
    names of its own properties, [∅] is [{}] and [{[ k := v ]}] the
    object [{k: v}]. *)
#[export] Instance object_lookup : Lookup string value object :=
  λ k o, own o !! k.

#[export] Instance object_dom : Dom object (gset string) :=
  λ o, dom (own o).

#[export] Instance object_empty : Empty object := [].

#[export] Instance object_singleton : SingletonM string value object :=
  λ k v, [(k, v)].

(** [o[k]]: an own property first, then the prototype. *)
Definition get (o : object) (k : string) : value :=
  match o !! k with
  | Some v => v
  | None => if bool_decide (k ∈ Object_prototype) then Inherited k else Undefined
  end.

(** [o[k] = v].  Assigning a string or [undefined] to [__proto__] runs
    the inherited setter, which ignores values that are not objects.
    Assigning to a property the object has changes its value where it
    is; assigning to a new name creates the property after the others. *)
Definition set (k : string) (v : value) (o : object) : object :=
  if bool_decide (k = "__proto__"%string) then o
  else if bool_decide (is_Some (o !! k))
       then map (λ p, if bool_decide (p.1 = k) then (k, v) else p) o
       else o ++ [(k, v)].

(** The names of the own properties in the order of their creation,
    each at its first occurrence. *)
Definition names (o : object) : list string :=
  foldr (λ p ks, p.1 :: filter (λ k, k ≠ p.1) ks) [] o.

(** The number a string of decimal digits denotes. *)
Fixpoint parse (n : N) (s : string) : N :=
  match s with
  | EmptyString => n
  | String a s => parse (10 * n + (Ascii.N_of_ascii a - 48))%N s
  end.

(** An array index is the canonical decimal form of an integer from 0
    to 2^32 - 2: a string that is what the number it denotes prints as. *)
Definition index (k : string) : bool :=
  bool_decide (pretty (parse 0 k) = k) && bool_decide (parse 0 k < 4294967295)%N.

Definition ascending (k1 k2 : string) : Prop := (parse 0 k1 ≤ parse 0 k2)%N.

#[export] Instance ascending_dec : RelDecision ascending :=
  λ k1 k2, decide (parse 0 k1 ≤ parse 0 k2)%N.

(** [Object.keys(o)]: the own property names, each once; first those
    that are array indices, in ascending numeric order, then the others
    in the order in which the properties were created. *)
Definition keys (o : object) : list string :=
  merge_sort ascending (filter (λ k, index k = true) (names o))
  ++ filter (λ k, index k = false) (names o).

Inductive promise (A E : Type) :=
  | Pending
  | Fulfilled (a : A)
  | Rejected (e : E).
Arguments Pending {A E}.
Arguments Fulfilled {A E} a.
Arguments Rejected {A E} e.

(** [resolve] and [reject] act on a pending promise only. *)
Definition settle {A E} (p q : promise A E) : promise A E :=
  match p with
  | Pending => q
  | _ => p
  end.

Definition settled {A E} (p : promise A E) : bool :=
  match p with
  | Pending => false
  | _ => true
  end.

End JS.

(* ===================================================================== *)
(** ** The client: token.js and promises.js *)
(* ===================================================================== *)

Module UserSync.
Import JS.

(** *** Data *)

(** The cached credential: the issuer's JSON plus the [created] stamp
    [createToken] adds.  Times are milliseconds, as [Date.now()]. *)
Record token := {
  access_token : Z;
  token_type : string;
  expires_in : Z;
  created : Z;
}.

(** The body of a successful [GET /token] reply, after [JSON.parse]. *)
Record token_json := {
  json_access_token : Z;
  json_token_type : string;
  json_expires_in : Z;
}.

(** One element of the array [GET /users] returns. *)
Record user_json := {
  username : string;
  surname : value;
}.

(** What the callback of [request] receives: an error, given by the
    text it converts to, or a response with its status code and body. *)
Inductive response (A : Type) :=
  | NetError (message : string)
  | Reply (statusCode : Z) (body : A).
Arguments NetError {A} message.
Arguments Reply {A} statusCode body.

(** [!error && res.statusCode == 200] *)
Definition ok {A} (r : response A) : option A :=
  match r with
  | NetError _ => None
  | Reply statusCode body => if statusCode =? 200 then Some body else None
  end.

(** What a promise of the client is rejected with. *)
Inductive reason :=
  | HttpFailure (statusCode : option Z)   (* [reject(res)]; [res] is undefined after a network error *)
  | LdapError (message : string).         (* [reject(err)] *)

Definition failure {A} (r : response A) : reason :=
  match r with
  | NetError _ => HttpFailure None
  | Reply statusCode _ => HttpFailure (Some statusCode)
  end.

(** A line on the console. *)
Inductive line :=
  | Say (text : string)
  | Dump (r : reason).

(** Who called [getToken]: the continuation that runs when its promise
    is fulfilled. *)
Inductive caller :=
  | FromGetUsersDB (c : nat)
  | FromSyncUsers (c : nat).

(** An operation handed to [request] or to the ldapjs client, with the
    cycle [c] whose callback it carries. *)
Inductive io :=
  | GET_token (k : caller)
  | GET_users (c : nat) (bearer : Z)
  | LDAP_bind (c : nat)
  | LDAP_search (c : nat)
  | LDAP_results (c : nat)
  | POST_users (c : nat) (bearer : Z) (username : string) (surname : value).

(** What the [res] emitter of a search emits. *)
Inductive search_event :=
  | searchEntry (cn : string) (sn : value)
  | error (message : string)
  | end_of_results.

(** The arguments a callback is called with. *)
Inductive arguments :=
  | token_response (r : response token_json)
  | users_response (r : response (list user_json))
  | create_response (r : response unit)
  | bind_result (err : option string)
  | search_result (err : option string)
  | search_emits (e : search_event).

(** An event of the Node event loop, with the value [Date.now()] has
    while its handler runs. *)
Inductive event :=
  | setInterval_fires (now : Z)
  | callback (now : Z) (handle : nat) (a : arguments).

(** *** State

    [auth] is the module variable of token.js.  Every run of the
    interval body is a cycle [c] with its own closures: the promise
    [usersDB c] of [getUsersDB()], the object [ldapObject c] the search
    listeners fill, the promise [usersLDAP c] of [getUsersLDAP()] (which
    is resolved with a reference to that object), and the promise
    [synced c] of [Promise.all([usersDB,usersLDAP]).then(syncUsers)].
    [issued] lists every operation started so far; a handle is an index
    into it, and [inflight] holds the handles whose callback can still
    be called. *)
Record state := {
  auth : option token;
  console : list line;
  issued : list io;
  inflight : list nat;
  usersDB : list (promise object reason);
  ldapObject : list object;
  usersLDAP : list (promise unit reason);
  synced : list (promise bool reason);
}.

Definition init : state :=
  {| auth := None; console := []; issued := []; inflight := [];
     usersDB := []; ldapObject := []; usersLDAP := []; synced := [] |}.

Definition with_auth (a : option token) (st : state) : state :=
  {| auth := a; console := console st; issued := issued st;
     inflight := inflight st; usersDB := usersDB st;
     ldapObject := ldapObject st; usersLDAP := usersLDAP st;
     synced := synced st |}.

Definition log (l : line) (st : state) : state :=
  {| auth := auth st; console := console st ++ [l]; issued := issued st;
     inflight := inflight st; usersDB := usersDB st;
     ldapObject := ldapObject st; usersLDAP := usersLDAP st;
     synced := synced st |}.

(** Start an operation: it gets the next handle and waits for its
    callback. *)
Definition start (op : io) (st : state) : state :=
  {| auth := auth st; console := console st; issued := issued st ++ [op];
     inflight := inflight st ++ [length (issued st)]; usersDB := usersDB st;
     ldapObject := ldapObject st; usersLDAP := usersLDAP st;
     synced := synced st |}.

(** The callback of a [request], a bind or a search is called once. *)
Definition called (h : nat) (st : state) : state :=
  {| auth := auth st; console := console st; issued := issued st;
     inflight := filter (λ h', h' ≠ h) (inflight st); usersDB := usersDB st;
     ldapObject := ldapObject st; usersLDAP := usersLDAP st;
     synced := synced st |}.

Definition with_usersDB (l : list (promise object reason)) (st : state) : state :=
  {| auth := auth st; console := console st; issued := issued st;
     inflight := inflight st; usersDB := l;
     ldapObject := ldapObject st; usersLDAP := usersLDAP st;
     synced := synced st |}.

Definition with_ldapObject (l : list object) (st : state) : state :=
  {| auth := auth st; console := console st; issued := issued st;
     inflight := inflight st; usersDB := usersDB st;
     ldapObject := l; usersLDAP := usersLDAP st;
     synced := synced st |}.

Definition with_usersLDAP (l : list (promise unit reason)) (st : state) : state :=
  {| auth := auth st; console := console st; issued := issued st;
     inflight := inflight st; usersDB := usersDB st;
     ldapObject := ldapObject st; usersLDAP := l;
     synced := synced st |}.

Definition with_synced (l : list (promise bool reason)) (st : state) : state :=
  {| auth := auth st; console := console st; issued := issued st;
     inflight := inflight st; usersDB := usersDB st;
     ldapObject := ldapObject st; usersLDAP := usersLDAP st;
     synced := l |}.

(** *** token.js *)

(** [time = +Math.abs((auth.created-Date.now())/1000)] *)
Definition time (a : token) (now : Z) : Q :=
  Qabs (inject_Z (created a - now) / inject_Z 1000).

(** [createToken()]: the request to the issuing endpoint, made on behalf
    of the [getToken] call of [k]. *)
Definition createToken (k : caller) (st : state) : state :=
  start (GET_token k) (log (Say "Creating token") st).

(** The executor of the promise [getToken()] returns.  The result is the
    state of that promise when the executor is done: fulfilled with the
    held token, or pending on the [createToken] it has just called. *)
Definition getToken (k : caller) (now : Z) (st : state) : state * promise token reason :=
  let st := log (Say "Getting token") st in
  match auth st with
  | None => (createToken k st, Pending)
  | Some a =>
      if Qle_bool (inject_Z (expires_in a)) (time a now)
      then (createToken k st, Pending)
      else (st, Fulfilled a)
  end.

(** The callback [createToken] gave to [request]: the promise of
    [createToken] is resolved with the stamped token or rejected with
    [res]. *)
Definition createToken_callback (now : Z) (r : response token_json) (st : state)
  : state * promise token reason :=
  match ok r with
  | Some body =>
      let token := {| access_token := json_access_token body;
                      token_type := json_token_type body;
                      expires_in := json_expires_in body;
                      created := now |} in
      (log (Say ("Created token:" +:+ pretty (access_token token))) st, Fulfilled token)
  | None =>
      (log (Dump (failure r)) (log (Say "Failed to get token!") st), Rejected (failure r))
  end.

(** [createToken().then(function(token){ auth = token; resolve(auth); })
    .catch(function(err){ console.log("Failed to create token!"); })]
    inside [getToken]: what becomes of the promise of [getToken] once
    the promise [p] of [createToken] is settled. *)
Definition getToken_then (p : promise token reason) (st : state)
  : state * promise token reason :=
  match p with
  | Fulfilled token => (with_auth (Some token) st, Fulfilled token)
  | Rejected _ => (log (Say "Failed to create token!") st, Pending)
  | Pending => (st, Pending)
  end.

(** The promise of [getToken] after the reply [r] to the request of its
    [createToken]. *)
Definition refreshed (now : Z) (r : response token_json) (st : state)
  : state * promise token reason :=
  let '(st, p) := createToken_callback now r st in
  getToken_then p st.

(** Several calls of [getToken] in a row, each with its caller and its
    reading of the clock, and no callback in between. *)
Definition getTokens (calls : list (caller * Z)) (st : state) : state :=
  foldl (λ st call, (getToken call.1 call.2 st).1) st calls.

(** The age of a credential as the specification words it: seconds
    elapsed since it was issued, [(now - issuedAt) / 1000]. *)
Definition age_seconds (a : token) (now : Z) : Q :=
  inject_Z (now - created a) / inject_Z 1000.

(** *** promises.js *)

(** The callback [getUsersDB] passes to [getToken().then]. *)
Definition getUsersDB_then (c : nat) (tok : token) (st : state) : state :=
  start (GET_users c (access_token tok)) st.

(** The function [syncUsers] maps over [Object.keys(usersLDAP)].  The
    result is [true] when it threw: [usersDB[objectKey]] is a TypeError
    when [usersDB] is undefined.  The counter [count] is written and
    never read; it is left out. *)
Fixpoint compare (c : nat) (tok : token) (usersDB : option object)
    (usersLDAP : object) (ks : list string) (st : state) : state * bool :=
  match ks with
  | [] => (st, false)
  | objectKey :: ks =>
      match usersDB with
      | None => (st, true)
      | Some db =>
          if negb (truthy (get db objectKey))
          then compare c tok usersDB usersLDAP ks
                 (start (POST_users c (access_token tok) objectKey (get usersLDAP objectKey))
                    (log (Say (objectKey +:+ " exists only in LDAP")) st))
          else compare c tok usersDB usersLDAP ks
                 (log (Say (objectKey +:+ " already exists")) st)
      end
  end.

(** [values[0]] and [values[1]] of [syncUsers]: each reader's promise was
    given a [catch] that logs and returns nothing, so a failed read
    arrives as [undefined]. *)
Definition values0 (c : nat) (st : state) : option object :=
  match usersDB st !! c with
  | Some (Fulfilled o) => Some o
  | _ => None
  end.

Definition values1 (c : nat) (st : state) : option object :=
  match usersLDAP st !! c with
  | Some (Fulfilled _) => ldapObject st !! c
  | _ => None
  end.

(** The callback [syncUsers] passes to [getToken().then], followed by
    its [catch], which also receives what the callback throws. *)
Definition syncUsers_then (c : nat) (tok : token) (st : state) : state :=
  match values1 c st with
  | None => log (Say "Failed to get token!") st
  | Some ldap =>
      let '(st, thrown) := compare c tok (values0 c st) ldap (keys ldap) st in
      if thrown then log (Say "Failed to get token!") st
      else
        let st := log (Say "Finished comparing lists") st in
        with_synced (alter (λ p, settle p (Fulfilled true)) c (synced st)) st
  end.

(** [getToken().then(f).catch(g)] as both callers write it. *)
Definition on_token (k : caller) (p : promise token reason) (st : state) : state :=
  match p with
  | Fulfilled tok =>
      match k with
      | FromGetUsersDB c => getUsersDB_then c tok st
      | FromSyncUsers c => syncUsers_then c tok st
      end
  | Rejected _ => log (Say "Failed to get token!") st
  | Pending => st
  end.

Definition getUsersDB (c : nat) (now : Z) (st : state) : state * promise token reason :=
  getToken (FromGetUsersDB c) now (log (Say "Get existing DB users") st).

(** [getUsersLDAP()] up to the call of [client.bind]. *)
Definition getUsersLDAP (c : nat) (st : state) : state :=
  let st := log (Say "Get existing LDAP users") st in
  let st := log (Say "Connecting to LDAP server") st in
  let st := log (Say "Connected to ldap://localhost:10389") st in
  let st := log (Say "Authenticating") st in
  start (LDAP_bind c) st.

(** The body of [setInterval]: a new cycle.  [getUsersDB()] and
    [getUsersLDAP()] run first; the callback waiting on a [getToken]
    that was fulfilled at once runs after them. *)
Definition tick (now : Z) (st : state) : state :=
  let c := length (synced st) in
  let st := with_usersDB (usersDB st ++ [Pending]) st in
  let st := with_ldapObject (ldapObject st ++ [∅]) st in
  let st := with_usersLDAP (usersLDAP st ++ [Pending]) st in
  let st := with_synced (synced st ++ [Pending]) st in
  let '(st, p) := getUsersDB c now st in
  let st := getUsersLDAP c st in
  on_token (FromGetUsersDB c) p st.

(** [syncUsers(values)] *)
Definition syncUsers (c : nat) (now : Z) (st : state) : state :=
  let st := log (Say "Determining new users...") st in
  let '(st, p) := getToken (FromSyncUsers c) now st in
  on_token (FromSyncUsers c) p st.

(** [Promise.all([usersDB,usersLDAP]).then(syncUsers)], looked at when
    one of the two has just been settled. *)
Definition all (c : nat) (now : Z) (st : state) : state :=
  match usersDB st !! c, usersLDAP st !! c with
  | Some p, Some q => if settled p && settled q then syncUsers c now st else st
  | _, _ => st
  end.

(** [resolve] or [reject] of the promise of [getUsersDB()], with the
    [catch] the interval body attached to it. *)
Definition settle_usersDB (c : nat) (p : promise object reason)
    (now : Z) (st : state) : state :=
  match usersDB st !! c with
  | Some Pending =>
      let st := with_usersDB (<[c:=p]> (usersDB st)) st in
      let st := match p with
                | Rejected e =>
                    log (Dump e) (log (Say "Failed to get the user list from API!") st)
                | _ => st
                end in
      all c now st
  | _ => st
  end.

Definition settle_usersLDAP (c : nat) (p : promise unit reason)
    (now : Z) (st : state) : state :=
  match usersLDAP st !! c with
  | Some Pending =>
      let st := with_usersLDAP (<[c:=p]> (usersLDAP st)) st in
      let st := match p with
                | Rejected e =>
                    log (Dump e) (log (Say "Failed to get the user list from LDAP!") st)
                | _ => st
                end in
      all c now st
  | _ => st
  end.

(** The callback [getUsersDB] gave to [request]. *)
Definition getUsersDB_callback (c : nat) (r : response (list user_json))
    (now : Z) (st : state) : state :=
  match ok r with
  | Some jsonBody =>
      let usersDB := foldl (λ o user, set (username user) (surname user) o) ∅ jsonBody in
      let st := log (Say ("Found: " +:+ pretty (length jsonBody) +:+ " DB users")) st in
      settle_usersDB c (Fulfilled usersDB) now st
  | None =>
      let st := log (Say "Failed to get users from the DB!") st in
      let st := log (Dump (failure r)) st in
      settle_usersDB c (Rejected (failure r)) now st
  end.

(** The callback of [client.bind]. *)
Definition bind_callback (c : nat) (err : option string) (now : Z) (st : state) : state :=
  match err with
  | Some message =>
      settle_usersLDAP c (Rejected (LdapError message)) now
        (log (Say ("Failed to Authenticate:" +:+ message)) st)
  | None =>
      let st := log (Say "Authenticated as CN=test_user,ou=users,ou=system") st in
      let st := log (Say "Searching") st in
      start (LDAP_search c) st
  end.

(** The callback of [client.search]: on success the three listeners are
    attached to [res]. *)
Definition search_callback (c : nat) (err : option string) (now : Z) (st : state) : state :=
  match err with
  | Some message =>
      settle_usersLDAP c (Rejected (LdapError message)) now
        (log (Say ("Failed to Search:" +:+ message)) st)
  | None => start (LDAP_results c) st
  end.

(** The listeners [res.on('searchEntry')], [res.on('error')] and
    [res.on('end')]. *)
Definition res_on (c : nat) (e : search_event) (now : Z) (st : state) : state :=
  match e with
  | searchEntry cn sn =>
      with_ldapObject (alter (set cn sn) c (ldapObject st)) st
  | error message =>
      settle_usersLDAP c (Rejected (LdapError message)) now
        (log (Say ("Error while searching: " +:+ message)) st)
  | end_of_results =>
      let n := match ldapObject st !! c with Some o => length (keys o) | None => 0%nat end in
      settle_usersLDAP c (Fulfilled ()) now
        (log (Say ("Found: " +:+ pretty n +:+ " LDAP users")) st)
  end.

(** ['' + error] for the [error] the callback of [request] receives:
    [null] when a response came, the text of the error otherwise. *)
Definition error_text {A} (r : response A) : string :=
  match r with
  | NetError message => message
  | Reply _ _ => "null"
  end.

(** The callback [syncUsers] gave to the [request] that creates
    [objectKey]: on failure it prints ['Error:'+error] and then the
    response. *)
Definition create_callback (objectKey : string) (r : response unit) (st : state) : state :=
  match ok r with
  | Some _ => log (Say ("Added " +:+ objectKey +:+ " to DB")) st
  | None => log (Dump (failure r)) (log (Say ("Error:" +:+ error_text r)) st)
  end.

(** *** The event loop

    A callback runs only if its operation is in flight.  The callback of
    a [request], of the bind and of the search is taken out of flight
    when it is called; the listeners on the results of a search stay,
    since the program never removes them. *)

Definition step (st : state) (ev : event) : state :=
  match ev with
  | setInterval_fires now => tick now st
  | callback now h a =>
      if bool_decide (h ∈ inflight st) then
        match issued st !! h, a with
        | Some (GET_token k), token_response r =>
            let '(st, q) := refreshed now r (called h st) in
            on_token k q st
        | Some (GET_users c _), users_response r =>
            getUsersDB_callback c r now (called h st)
        | Some (LDAP_bind c), bind_result err =>
            bind_callback c err now (called h st)
        | Some (LDAP_search c), search_result err =>
            search_callback c err now (called h st)
        | Some (LDAP_results c), search_emits e =>
            res_on c e now st
        | Some (POST_users _ _ objectKey _), create_response r =>
            create_callback objectKey r (called h st)
        | _, _ => st
        end
      else st
  end.

Definition run (st : state) (evs : list event) : state := foldl step st evs.

(** *** Notions used to state the properties *)

(** The keys [syncUsers] submits, read off its loop: the own keys of
    [usersLDAP] at which [!usersDB[objectKey]] holds. *)
Definition new_users (usersDB usersLDAP : object) : list string :=
  filter (λ objectKey, truthy (get usersDB objectKey) = false) (keys usersLDAP).

Definition create (c : nat) (tok : token) (usersLDAP : object)
    (objectKey : string) : io :=
  POST_users c (access_token tok) objectKey (get usersLDAP objectKey).

(** The cycle an operation belongs to. *)
Definition cycle_of (op : io) : nat :=
  match op with
  | GET_token (FromGetUsersDB c) => c
  | GET_token (FromSyncUsers c) => c
  | GET_users c _ => c
  | LDAP_bind c => c
  | LDAP_search c => c
  | LDAP_results c => c
  | POST_users c _ _ _ => c
  end.

(** How a callback of the directory settles the promise of
    [getUsersLDAP], read off [bind_callback], [search_callback] and
    [res_on]: the cycle and the outcome, if the callback calls [resolve]
    or [reject] at all. *)
Definition verdict (op : io) (a : arguments) : option (nat * promise unit reason) :=
  match op, a with
  | LDAP_bind c, bind_result (Some message) => Some (c, Rejected (LdapError message))
  | LDAP_search c, search_result (Some message) => Some (c, Rejected (LdapError message))
  | LDAP_results c, search_emits (error message) => Some (c, Rejected (LdapError message))
  | LDAP_results c, search_emits end_of_results => Some (c, Fulfilled ())
  | _, _ => None
  end.

(** Both reads of cycle [c] have succeeded. *)
Definition both_read (c : nat) (st : state) : Prop :=
  (∃ o, usersDB st !! c = Some (Fulfilled o))
  ∧ usersLDAP st !! c = Some (Fulfilled ()).

(** [st'] comes after [st]: the reads that were settled are as they
    were, and every creation request started in between belongs to a
    cycle whose two reads have succeeded. *)
Definition follows (st st' : state) : Prop :=
  (∀ c p, usersDB st !! c = Some p → p ≠ Pending → usersDB st' !! c = Some p)
  ∧ (∀ c p, usersLDAP st !! c = Some p → p ≠ Pending → usersLDAP st' !! c = Some p)
  ∧ (∀ c b u s, POST_users c b u s ∈ issued st' →
                POST_users c b u s ∈ issued st ∨ both_read c st').

(** The operations of cycle [c] whose callback is still to come. *)
Definition outstanding (c : nat) (st : state) : list io :=
  filter (λ op, cycle_of op = c) (omap (λ h, issued st !! h) (inflight st)).

(** *** Further notions *)

(** The object [getUsersDB] builds from the array of a 200 reply, as
    [getUsersDB_callback] does it. *)
Definition usersDB_of (jsonBody : list user_json) : object :=
  foldl (λ o user, set (username user) (surname user) o) ∅ jsonBody.

(** The token [createToken] resolves with, as [createToken_callback]
    builds it. *)
Definition stamped (now : Z) (body : token_json) : token :=
  {| access_token := json_access_token body;
     token_type := json_token_type body;
     expires_in := json_expires_in body;
     created := now |}.

(** How the promise of [getUsersDB] is settled by the reply to its
    request, as [getUsersDB_callback] does it. *)
Definition read_outcome (r : response (list user_json))
  : promise object reason :=
  match ok r with
  | Some jsonBody => Fulfilled (usersDB_of jsonBody)
  | None => Rejected (failure r)
  end.

(** The test [POST /users] applies to the body of a creation request
    for [objectKey]: [username] and [surname] both truthy. *)
Definition accepted (usersLDAP : object) (objectKey : string) : bool :=
  truthy (Str objectKey) && truthy (get usersLDAP objectKey).

(** The records the datastore gains from the creation requests for
    [ks]: one per request that passes the test, in the order sent. *)
Definition stored (usersLDAP : object) (ks : list string) : list user_json :=
  map (λ objectKey, {| username := objectKey; surname := get usersLDAP objectKey |})
    (filter (λ objectKey, accepted usersLDAP objectKey = true) ks).

Definition fires (ev : event) : bool :=
  match ev with
  | setInterval_fires _ => true
  | callback _ _ _ => false
  end.

(** From [st] to [st'] the operations [ops] were started, each waiting
    for its callback, and no callback was taken out of flight. *)
Definition started (ops : list io) (st st' : state) : Prop :=
  issued st' = issued st ++ ops
  ∧ inflight st' = inflight st ++ seq (length (issued st)) (length ops).

Definition begun (P : io → Prop) (st st' : state) : Prop :=
  ∃ ops, started ops st st' ∧ Forall P ops.

(** What [syncUsers] of cycle [c] can do to a state: it leaves the
    credential and the reads alone, fulfils at most the promise of its
    own cycle, and starts at most its token request and its creation
    requests. *)
Definition compares (c : nat) (st st' : state) : Prop :=
  auth st' = auth st
  ∧ usersDB st' = usersDB st
  ∧ usersLDAP st' = usersLDAP st
  ∧ ldapObject st' = ldapObject st
  ∧ (synced st' = synced st
     ∨ synced st' = alter (λ p, settle p (Fulfilled true)) c (synced st))
  ∧ begun (λ op, op = GET_token (FromSyncUsers c)
                 ∨ ∃ b u s, op = POST_users c b u s) st st'.

(** Every handle in flight is the handle of an operation. *)
Definition handles_valid (st : state) : Prop :=
  ∀ h, h ∈ inflight st → (h < length (issued st))%nat.

(** The operations through which cycle [c] reaches its comparison: the
    token request and the list request of its datastore read, and the
    token request of its [syncUsers]. *)
Definition drives (c : nat) (op : io) : Prop :=
  op = GET_token (FromGetUsersDB c)
  ∨ (∃ b, op = GET_users c b)
  ∨ op = GET_token (FromSyncUsers c).

(** What the callback of the operation [op], called with [a] at time
    [now], does to the state [st] it starts from.  The credential
    changes only on a 200 reply to a token request; the promise of a
    datastore read only on the reply to its list request, while it is
    pending; a cycle promise only by being fulfilled with [true]; every
    operation started belongs to the cycle of [op] and none is the token
    request of a datastore read.  While the datastore read of that cycle
    is pending, a callback that is none of the cycle's token and list
    callbacks leaves the two promises alone and starts none of these. *)
Definition handled (now : Z) (a : arguments) (op : io) (st st' : state) : Prop :=
  (auth st' = auth st
   ∨ ∃ k r body, op = GET_token k ∧ a = token_response r ∧ ok r = Some body
                 ∧ auth st' = Some (stamped now body))
  ∧ (usersDB st' = usersDB st
     ∨ ∃ b r, op = GET_users (cycle_of op) b ∧ a = users_response r
              ∧ usersDB st !! cycle_of op = Some Pending
              ∧ usersDB st' = <[cycle_of op := read_outcome r]> (usersDB st))
  ∧ (ldapObject st' = ldapObject st
     ∨ ∃ cn sn, ldapObject st' = alter (set cn sn) (cycle_of op) (ldapObject st))
  ∧ (synced st' = synced st
     ∨ synced st' = alter (λ p, settle p (Fulfilled true)) (cycle_of op) (synced st))
  ∧ begun (λ o, cycle_of o = cycle_of op ∧ ∀ c, o ≠ GET_token (FromGetUsersDB c)) st st'
  ∧ (usersDB st !! cycle_of op = Some Pending → ¬ drives (cycle_of op) op →
     usersDB st' = usersDB st ∧ synced st' = synced st
     ∧ begun (λ o, ¬ drives (cycle_of op) o) st st').

(** The datastore read of cycle [c] waits for its token: its promise and
    the promise of the cycle are pending, and neither its list request
    nor the token request of [syncUsers] has been started. *)
Definition waiting (c : nat) (st : state) : Prop :=
  usersDB st !! c = Some Pending
  ∧ synced st !! c = Some Pending
  ∧ (∀ b, GET_users c b ∉ issued st)
  ∧ GET_token (FromSyncUsers c) ∉ issued st.

(** What holds of every state a run from the start reaches: the lists of
    promises are aligned, handles are valid and distinct, operations
    belong to cycles that exist, the token request of a datastore read
    is started once, and while it is in flight its cycle waits. *)
Definition sound (st : state) : Prop :=
  length (usersDB st) = length (synced st)
  ∧ handles_valid st
  ∧ NoDup (inflight st)
  ∧ (∀ op, op ∈ issued st → (cycle_of op < length (synced st))%nat)
  ∧ (∀ c i j, issued st !! i = Some (GET_token (FromGetUsersDB c)) →
              issued st !! j = Some (GET_token (FromGetUsersDB c)) → i = j)
  ∧ (∀ c h, h ∈ inflight st →
            issued st !! h = Some (GET_token (FromGetUsersDB c)) → waiting c st).

(** The datastore read of cycle [c] is stuck: its promise is pending and
    none of the operations that could settle it, or run [syncUsers], is
    in flight. *)
Definition stuck (c : nat) (st : state) : Prop :=
  usersDB st !! c = Some Pending
  ∧ synced st !! c = Some Pending
  ∧ (c < length (synced st))%nat
  ∧ handles_valid st
  ∧ ∀ h op, h ∈ inflight st → issued st !! h = Some op → ¬ drives c op.

(** The object the [searchEntry] listener of [getUsersLDAP] has filled
    when the entries [es], each a [cn] with its [sn], have come in. *)
Definition usersLDAP_of (es : list (string * value)) : object :=
  foldl (λ o e, set e.1 e.2 o) ∅ es.

(** The entries of a search arriving one by one on the handle [h], each
    at its own time. *)
Definition entries (h : nat) (es : list (Z * (string * value))) : list event :=
  map (λ e, callback e.1 h (search_emits (searchEntry e.2.1 e.2.2))) es.

(** Both reads of cycle [c] are settled, each fulfilled or rejected:
    what [Promise.all] over the two caught promises waits for. *)
Definition both_settled (c : nat) (st : state) : Prop :=
  (∃ p, usersDB st !! c = Some p ∧ p ≠ Pending)
  ∧ (∃ q, usersLDAP st !! c = Some q ∧ q ≠ Pending).

(** From [st] to [st'] the token request of a [syncUsers] was started
    only for a cycle whose reads are both settled, and a cycle promise
    was fulfilled only for a cycle whose directory read has succeeded
    and whose [syncUsers] was called after both reads. *)
Definition ordered (st st' : state) : Prop :=
  (∀ c, GET_token (FromSyncUsers c) ∈ issued st' →
        GET_token (FromSyncUsers c) ∈ issued st ∨ both_settled c st')
  ∧ (∀ c v, synced st' !! c = Some (Fulfilled v) →
            synced st !! c = Some (Fulfilled v)
            ∨ (usersLDAP st' !! c = Some (Fulfilled ())
               ∧ (GET_token (FromSyncUsers c) ∈ issued st ∨ both_settled c st'))).

End UserSync.

(* ===================================================================== *)
(** ** The server: server.js *)
(* ===================================================================== *)

Module SyncAPI.
Import JS.

(** [const expiration = 900000; //15 minutes] *)
Definition expiration : Z := 900000.

Record token := {
  expires_in : Z;
  access_token : Z;
  token_type : string;
}.

Record user := {
  username : value;
  surname : value;
  last_modified : Z;
}.

(** The two module variables.  [tokens] is an object used as a table
    from the string [token_type + ' ' + access_token] to the token. *)
Record state := {
  tokens : gmap string token;
  users : list user;
}.

Definition init (now : Z) : state :=
  {| tokens := ∅;
     users := [ {| username := Str "testuser"; surname := Str "McTestface";
                   last_modified := now |} ] |}.

(** *** The response object of Express

    On a response object [status] is a method, [res.status(code)], which
    stores its argument in [res.statusCode]; [statusCode] starts at 200
    and is what [res.send] writes on the status line.  server.js never
    calls the method: it assigns to the property, [res.status = 201].
    The record keeps the property and the status code apart. *)
Inductive status_property :=
  | status_method
  | status_number (n : Z).

Inductive payload :=
  | the_token (t : token)
  | the_users (l : list user)
  | the_user (u : user)
  | the_text (s : string)
  | the_error (error_message : string).

Record res := {
  status : status_property;
  statusCode : Z;
  sent : option payload;
}.

Definition new_res : res :=
  {| status := status_method; statusCode := 200; sent := None |}.

(** [res.status = n;] *)
Definition assign_status (n : Z) (r : res) : res :=
  {| status := status_number n; statusCode := statusCode r; sent := sent r |}.

(** [res.send(body);] *)
Definition send (body : payload) (r : res) : res :=
  {| status := status r; statusCode := statusCode r; sent := Some body |}.

(** *** The token table *)

(** [tokens[token]], where [token] is the Authorization header
    ([undefined], hence the key ["undefined"], when the header is
    absent): a stored token, something inherited from
    [Object.prototype], or [undefined]. *)
Inductive entry :=
  | stored (t : token)
  | inherited
  | absent.

Definition lookup (tokens : gmap string token) (authorization : option string) : entry :=
  let key := default "undefined"%string authorization in
  match tokens !! key with
  | Some t => stored t
  | None => if bool_decide (key ∈ Object_prototype) then inherited else absent
  end.

(** [if (tokens[token])] followed by
    [if (tokens[token].expires_in > Date.now())]; what is inherited is
    truthy and has no [expires_in], and [undefined > n] is false. *)
Definition authorized (tokens : gmap string token) (authorization : option string)
    (now : Z) : bool :=
  match lookup tokens authorization with
  | stored t => bool_decide (now < expires_in t)
  | inherited => false
  | absent => false
  end.

(** The body of the server's [setInterval]: a [for..in] over the table
    that deletes [tokens[i]] when [tokens[i].expires_in > Date.now()].
    [clock i] is what [Date.now()] returns when the loop is at [i]. *)
Definition sweep (clock : string → Z) (st : state) : state :=
  {| tokens := filter (λ it, ¬ (clock it.1 < expires_in it.2)) (tokens st);
     users := users st |}.

(** *** The routes *)

(** [app.get('/token')]; [random] is
    [Math.floor(Math.random() * (max - min + 1))]. *)
Definition get_token (authorization : option string) (now : Z) (random : Z)
    (st : state) : state * res :=
  if bool_decide (authorization = Some "Basic base64"%string) then
    let token := {| expires_in := now + expiration;
                    access_token := random + 100000;
                    token_type := "Bearer" |} in
    ({| tokens := <[token_type token +:+ " " +:+ pretty (access_token token) := token]> (tokens st);
        users := users st |},
     send (the_token token) (assign_status 200 new_res))
  else
    (st, send (the_error "Unauthorized!") (assign_status 401 new_res)).

(** [app.get('/users')] *)
Definition get_users (authorization : option string) (now : Z) (st : state)
  : state * res :=
  if authorized (tokens st) authorization now
  then (st, send (the_users (users st)) (assign_status 200 new_res))
  else (st, send (the_error "Unauthorized!") (assign_status 401 new_res)).

(** [app.post('/users')]; [input_username] and [input_surname] are
    [req.body.username] and [req.body.surname], [now] is the clock at
    the expiry test and [stamp] the clock when [newUser] is built. *)
Definition post_users (authorization : option string)
    (input_username input_surname : value) (now stamp : Z) (st : state)
  : state * res :=
  if authorized (tokens st) authorization now then
    let errMsg := "Missing fields:"%string in
    let '(errMsg, err) :=
      if negb (truthy input_username) then (errMsg +:+ " username ", true)
      else (errMsg, false) in
    let '(errMsg, err) :=
      if negb (truthy input_surname) then (errMsg +:+ " surname ", true)
      else (errMsg, err) in
    if err then (st, send (the_text errMsg) (assign_status 400 new_res))
    else
      let newUser := {| username := input_username; surname := input_surname;
                        last_modified := stamp |} in
      ({| tokens := tokens st; users := users st ++ [newUser] |},
       send (the_user newUser) (assign_status 201 new_res))
  else (st, send (the_error "Unauthorized!") (assign_status 401 new_res)).

(** *** The server as a whole *)

(** What reaches the server: a request to one of the three routes, or a
    firing of its interval timer. *)
Inductive request :=
  | token_request (authorization : option string) (now random : Z)
  | list_request (authorization : option string) (now : Z)
  | create_request (authorization : option string)
      (input_username input_surname : value) (now stamp : Z)
  | interval_fires (clock : string → Z).

Definition handle (st : state) (rq : request) : state * option res :=
  match rq with
  | token_request authorization now random =>
      let '(st, r) := get_token authorization now random st in (st, Some r)
  | list_request authorization now =>
      let '(st, r) := get_users authorization now st in (st, Some r)
  | create_request authorization input_username input_surname now stamp =>
      let '(st, r) :=
        post_users authorization input_username input_surname now stamp st in
      (st, Some r)
  | interval_fires clock => (sweep clock st, None)
  end.

Definition serve (st : state) (rqs : list request) : state :=
  foldl (λ st rq, (handle st rq).1) st rqs.

(** The key under which [app.get('/token')] stores a token. *)
Definition key_of (t : token) : string :=
  token_type t +:+ " " +:+ pretty (access_token t).

(** A user record both of whose fields are truthy. *)
Definition complete (u : user) : Prop :=
  truthy (username u) = true ∧ truthy (surname u) = true.

End SyncAPI.

(* ===================================================================== *)
(** ** Objects *)
(* ===================================================================== *)

Module Objects.
Import JS.

Lemma lookup_cons (p : string * value) (o : object) (k : string) :
  (p :: o : object) !! k = if decide (p.1 = k) then Some p.2 else o !! k.
Proof.
  unfold lookup, object_lookup, own. simpl.
  destruct (decide (p.1 = k)) as [->|Hne].
  - by rewrite lookup_insert_eq.
  - by rewrite lookup_insert_ne.
Qed.

Lemma lookup_is_Some (o : object) (k : string) :
  is_Some (o !! k) ↔ k ∈ o.*1.
Proof.
  induction o as [|p o IH]; simpl.
  - split; [by intros [? ?]|by intros ?%elem_of_nil].
  - rewrite lookup_cons, elem_of_cons.
    destruct (decide (p.1 = k)) as [->|Hne]; [by split; eauto|].
    rewrite IH. split; [by right|]. by intros [?|?].
Qed.

Lemma lookup_app_new (o : object) (k k' : string) (v : value) :
  o !! k = None →
  (o ++ [(k, v)] : object) !! k' = if decide (k = k') then Some v else o !! k'.
Proof.
  induction o as [|p o IH]; simpl; intros Hk.
  - rewrite lookup_cons. simpl. by destruct (decide (k = k')).
  - rewrite lookup_cons in Hk. rewrite !lookup_cons.
    destruct (decide (p.1 = k)) as [|Hpk]; [done|].
    destruct (decide (p.1 = k')) as [Hpk'|Hpk'].
    + rewrite decide_False; [done|]. congruence.
    + by apply IH.
Qed.

Lemma lookup_update (o : object) (k k' : string) (v : value) :
  (map (λ p, if bool_decide (p.1 = k) then (k, v) else p) o : object) !! k'
  = if decide (k = k') then (λ _, v) <$> o !! k else o !! k'.
Proof.
  induction o as [|p o IH]; simpl.
  - by destruct (decide (k = k')).
  - destruct (bool_decide_reflect (p.1 = k)) as [Hpk|Hpk];
      rewrite !lookup_cons, IH; simpl;
      repeat (case_decide; simplify_eq/=); done.
Qed.

(** Assignment, seen from the lookups: [__proto__] apart, the property
    assigned has the new value and every other is as it was. *)
Lemma lookup_set (k k' : string) (v : value) (o : object) :
  set k v o !! k'
  = if bool_decide (k = "__proto__"%string) then o !! k'
    else if decide (k = k') then Some v else o !! k'.
Proof.
  unfold set. destruct (bool_decide (k = "__proto__"%string)); [done|].
  destruct (bool_decide_reflect (is_Some (o !! k))) as [[w Hw]|Hn].
  - rewrite lookup_update, Hw. by destruct (decide (k = k')).
  - apply lookup_app_new. by apply eq_None_not_Some.
Qed.

Lemma elem_of_names (o : object) (k : string) :
  k ∈ names o ↔ is_Some (o !! k).
Proof.
  rewrite lookup_is_Some. induction o as [|p o IH]; simpl; [done|].
  rewrite !elem_of_cons, list_elem_of_filter, IH.
  destruct (decide (k = p.1)); [by split; eauto|].
  split; [by intros [?|[_ ?]]; eauto|]. intros [?|?]; eauto.
Qed.

Lemma NoDup_names (o : object) : NoDup (names o).
Proof.
  induction o as [|p o IH]; simpl; [constructor|].
  constructor; [|by apply NoDup_filter].
  by intros [? _]%list_elem_of_filter.
Qed.

(** [Object.keys] lists the names of the own properties, each once. *)
Lemma keys_Permutation (o : object) : keys o ≡ₚ names o.
Proof.
  unfold keys. rewrite merge_sort_Permutation.
  rewrite <- (filter_app_complement (λ k, index k = true) (names o)) at 3.
  f_equiv. apply reflexive_eq, list_filter_iff. intros k. by destruct (index k).
Qed.

Lemma elem_of_keys (o : object) (k : string) :
  k ∈ keys o ↔ is_Some (o !! k).
Proof. by rewrite keys_Permutation, elem_of_names. Qed.

Lemma NoDup_keys (o : object) : NoDup (keys o).
Proof. rewrite keys_Permutation. apply NoDup_names. Qed.

Lemma elem_of_dom_object (o : object) (k : string) :
  k ∈ dom o ↔ is_Some (o !! k).
Proof. unfold dom, object_dom, lookup, object_lookup. apply elem_of_dom. Qed.

(** The names depend on the names listed only, not on the values. *)
Lemma names_fst (o o' : object) : o.*1 = o'.*1 → names o = names o'.
Proof.
  revert o'. induction o as [|p o IH]; intros [|p' o'] H; try done.
  simpl in *. injection H as Hp Ho. by rewrite Hp, (IH o').
Qed.

Lemma names_snoc (o : object) (k : string) (v : value) :
  names (o ++ [(k, v)])
  = if bool_decide (k ∈ names o) then names o else names o ++ [k].
Proof.
  induction o as [|p o IH]; simpl; [done|]. rewrite IH.
  destruct (decide (k = p.1)) as [->|Hne].
  - rewrite (bool_decide_eq_true_2 (p.1 ∈ p.1 :: _)) by apply list_elem_of_here.
    destruct (bool_decide (p.1 ∈ names o)); [done|].
    rewrite filter_app, filter_cons, filter_nil, decide_False by (by intros ?).
    by rewrite app_nil_r.
  - destruct (bool_decide_reflect (k ∈ names o)) as [Hin|Hin].
    + rewrite bool_decide_eq_true_2; [done|]. right.
      by apply list_elem_of_filter.
    + rewrite bool_decide_eq_false_2.
      * by rewrite filter_app, filter_cons, filter_nil, decide_True.
      * intros [?|[_ ?]%list_elem_of_filter]%elem_of_cons; done.
Qed.

(** Assignment, seen from the names: a new name comes after the others,
    and nothing else moves. *)
Lemma names_set (k : string) (v : value) (o : object) :
  names (set k v o)
  = if bool_decide (k = "__proto__"%string) then names o
    else if bool_decide (k ∈ names o) then names o else names o ++ [k].
Proof.
  unfold set. destruct (bool_decide (k = "__proto__"%string)); [done|].
  destruct (bool_decide_reflect (is_Some (o !! k))) as [Hk|Hk].
  - rewrite bool_decide_eq_true_2 by (by apply elem_of_names).
    apply names_fst. rewrite <- list_fmap_compose. apply list_fmap_ext.
    intros i p _. simpl. by case_bool_decide.
  - rewrite names_snoc. by rewrite bool_decide_eq_false_2 by (by rewrite elem_of_names).
Qed.

End Objects.

(* ===================================================================== *)
(** ** The credential cache (token.js) *)
(* ===================================================================== *)

Module TokenCache.
Import JS UserSync.

(** The test [time >= auth.expires_in] over the integers: the division
    by 1000 is exact over the rationals. *)
Lemma time_ge (a : token) (now : Z) :
  Qle_bool (inject_Z (expires_in a)) (time a now) = true
  ↔ 1000 * expires_in a ≤ Z.abs (created a - now).
Proof.
  unfold time, Qle_bool, Qabs, Qdiv, Qmult, Qinv, inject_Z; simpl.
  rewrite Z.leb_le. lia.
Qed.

Lemma age_ge (a : token) (now : Z) :
  (inject_Z (expires_in a) <= age_seconds a now)%Q
  ↔ 1000 * expires_in a ≤ now - created a.
Proof.
  unfold age_seconds, Qle, Qdiv, Qmult, Qinv, inject_Z; simpl. lia.
Qed.

Lemma age_lt (a : token) (now : Z) :
  (age_seconds a now < inject_Z (expires_in a))%Q
  ↔ now - created a < 1000 * expires_in a.
Proof.
  unfold age_seconds, Qlt, Qdiv, Qmult, Qinv, inject_Z; simpl. lia.
Qed.

(** [getToken] with nothing held asks for a token. *)
Lemma getToken_absent (k : caller) (now : Z) (st : state) :
  auth st = None →
  getToken k now st = (createToken k (log (Say "Getting token") st), Pending).
Proof. intros H. unfold getToken. simpl. by rewrite H. Qed.

Lemma getToken_held (k : caller) (now : Z) (st : state) (a : token) :
  auth st = Some a →
  getToken k now st =
    if Qle_bool (inject_Z (expires_in a)) (time a now)
    then (createToken k (log (Say "Getting token") st), Pending)
    else (log (Say "Getting token") st, Fulfilled a).
Proof. intros H. unfold getToken. simpl. by rewrite H. Qed.

(** A call of [getToken] leaves the held credential as it is. *)
Lemma getToken_auth (k : caller) (now : Z) (st : state) :
  auth (getToken k now st).1 = auth st.
Proof.
  unfold getToken. simpl. destruct (auth st) as [a|] eqn:E; [|by simpl].
  by destruct (Qle_bool _ _); simpl.
Qed.

(** What a call of [getToken] adds to the operations started. *)
Lemma getToken_issued (k : caller) (now : Z) (st : state) :
  issued (getToken k now st).1 =
    issued st ++ match (getToken k now st).2 with
                 | Pending => [GET_token k]
                 | _ => []
                 end.
Proof.
  unfold getToken. simpl. destruct (auth st) as [a|]; [|by simpl].
  destruct (Qle_bool _ _); simpl; [done|]. by rewrite app_nil_r.
Qed.

(** A reply that is not a plain 200 leaves the promise of [getToken]
    pending: its [catch] logs and calls neither [resolve] nor [reject]. *)
Lemma refreshed_failure (now : Z) (r : response token_json) (st : state) :
  ok r = None →
  refreshed now r st =
    (log (Say "Failed to create token!")
       (log (Dump (failure r)) (log (Say "Failed to get token!") st)),
     Pending).
Proof. intros H. unfold refreshed, createToken_callback. by rewrite H. Qed.

(** No reply makes [getToken] reject. *)
Lemma refreshed_never_rejected (now : Z) (r : response token_json) (st : state) (e : reason) :
  (refreshed now r st).2 ≠ Rejected e.
Proof.
  unfold refreshed, createToken_callback. by destruct (ok r).
Qed.

(** The test [time >= auth.expires_in] in terms of the age: [time] is
    the absolute value of the age in seconds. *)
Lemma abs_age_ge (a : token) (now : Z) :
  (inject_Z (expires_in a) <= Qabs (age_seconds a now))%Q
  ↔ 1000 * expires_in a ≤ Z.abs (created a - now).
Proof.
  unfold age_seconds, Qle, Qabs, Qdiv, Qmult, Qinv, inject_Z; simpl. lia.
Qed.

Lemma abs_age_lt (a : token) (now : Z) :
  (Qabs (age_seconds a now) < inject_Z (expires_in a))%Q
  ↔ Z.abs (created a - now) < 1000 * expires_in a.
Proof.
  unfold age_seconds, Qlt, Qabs, Qdiv, Qmult, Qinv, inject_Z; simpl. lia.
Qed.

(** C4, as stated, fails.  The held credential is stamped 2000000 and
    the clock reads 1000000: the age is -1000 seconds, below the 900
    seconds of [expires_in], so the credential has not expired; yet
    [getToken] sends a request to the issuing endpoint and stays
    pending, because it compares the absolute value, 1000. *)
Lemma getToken_refreshes_behind_the_stamp :
  let a := {| access_token := 123456; token_type := "Bearer";
              expires_in := 900; created := 2000000 |} in
  let st := with_auth (Some a) init in
  (age_seconds a 1000000 < inject_Z (expires_in a))%Q
  ∧ (getToken (FromGetUsersDB 0) 1000000 st).2 = Pending
  ∧ issued (getToken (FromGetUsersDB 0) 1000000 st).1 = [ GET_token (FromGetUsersDB 0) ].
Proof. vm_compute. done. Qed.

(** C4, amended.  [getToken] measures the age of the held credential
    by its absolute value, [Math.abs((auth.created-Date.now())/1000)].
    For every call: if nothing is held, or the absolute value of the
    age in seconds is at least the [expires_in] the issuer reported,
    [getToken] starts exactly one request to the issuing endpoint and
    stays pending, and a successful reply stores the stamped token in
    [auth] and fulfils the promise with that same token.  Otherwise
    [getToken] starts no request, leaves [auth] alone and is fulfilled
    with the held credential.  When the clock is not behind the stamp
    of the credential the absolute value is the age itself. *)
Theorem getToken_refresh_policy (k : caller) (now : Z) (st : state) :
  ((auth st = None
    ∨ ∃ a, auth st = Some a
           ∧ (inject_Z (expires_in a) <= Qabs (age_seconds a now))%Q) →
   (getToken k now st).2 = Pending
   ∧ issued (getToken k now st).1 = issued st ++ [GET_token k]
   ∧ auth (getToken k now st).1 = auth st
   ∧ ∀ now' code body st',
       ok (Reply code body) = Some body →
       let token := {| access_token := json_access_token body;
                       token_type := json_token_type body;
                       expires_in := json_expires_in body;
                       created := now' |} in
       auth (refreshed now' (Reply code body) st').1 = Some token
       ∧ (refreshed now' (Reply code body) st').2 = Fulfilled token)
  ∧ (∀ a, auth st = Some a →
       (Qabs (age_seconds a now) < inject_Z (expires_in a))%Q →
       (getToken k now st).2 = Fulfilled a
       ∧ issued (getToken k now st).1 = issued st
       ∧ auth (getToken k now st).1 = Some a)
  ∧ (∀ a, created a ≤ now → (Qabs (age_seconds a now) == age_seconds a now)%Q).
Proof.
  split; [|split].
  - intros Hstale.
    assert ((getToken k now st).2 = Pending) as Hp.
    { destruct Hstale as [Hnone | (a & Ha & Hage)].
      - by rewrite getToken_absent.
      - rewrite (getToken_held _ _ _ a Ha).
        apply abs_age_ge in Hage.
        assert (Qle_bool (inject_Z (expires_in a)) (time a now) = true) as ->; [|done].
        by apply time_ge. }
    split; [done|]. split.
    { by rewrite getToken_issued, Hp. }
    split; [apply getToken_auth|].
    intros now' code body st' Hok token.
    unfold refreshed, createToken_callback. rewrite Hok. by simpl.
  - intros a Ha Hage.
    apply abs_age_lt in Hage.
    assert ((getToken k now st).2 = Fulfilled a) as Hp.
    { rewrite (getToken_held _ _ _ a Ha).
      destruct (Qle_bool _ _) eqn:E; [|done].
      apply time_ge in E. lia. }
    split; [done|]. split.
    + by rewrite getToken_issued, Hp, app_nil_r.
    + by rewrite getToken_auth.
  - intros a Hc. apply Qabs_pos.
    unfold age_seconds, Qle, Qdiv, Qmult, Qinv, inject_Z; simpl. lia.
Qed.

Lemma getToken_refresh_policy_witness :
  let a := {| access_token := 123456; token_type := "Bearer";
              expires_in := 900; created := 1000 |} in
  (getToken (FromGetUsersDB 0) 61000 (with_auth (Some a) init)).2 = Fulfilled a
  ∧ (getToken (FromGetUsersDB 0) 901000 (with_auth (Some a) init)).2 = Pending
  ∧ (getToken (FromGetUsersDB 0) 0 (with_auth (Some a) init)).2 = Fulfilled a
  ∧ (getToken (FromGetUsersDB 0) 1000 init).2 = Pending.
Proof.
  intros a. split; [|split; [|split]].
  - apply (proj1 (proj2 (getToken_refresh_policy (FromGetUsersDB 0) 61000
                           (with_auth (Some a) init))) a).
    + reflexivity.
    + vm_compute. reflexivity.
  - apply (proj1 (getToken_refresh_policy (FromGetUsersDB 0) 901000
                    (with_auth (Some a) init))).
    right. exists a. split; [reflexivity|]. vm_compute. discriminate.
  - apply (proj1 (proj2 (getToken_refresh_policy (FromGetUsersDB 0) 0
                           (with_auth (Some a) init))) a).
    + reflexivity.
    + vm_compute. reflexivity.
  - apply (proj1 (getToken_refresh_policy (FromGetUsersDB 0) 1000 init)).
    left. reflexivity.
Defined.

(** When the clock has moved back behind the stamp, [Math.abs] makes the
    distance count as age. *)
Lemma getToken_clock_moved_back :
  let a := {| access_token := 123456; token_type := "Bearer";
              expires_in := 5; created := 10000 |} in
  (getToken (FromGetUsersDB 0) 0 (with_auth (Some a) init)).2 = Pending.
Proof. reflexivity. Qed.

(** The comparison is verbatim, whatever the issuer means by
    [expires_in].  server.js reports the instant of expiry in
    milliseconds; a day after issuance the server no longer accepts the
    token, and [getToken] still hands it out. *)
Lemma getToken_keeps_server_token :
  let issued_at := 1700000000000 in
  let reply := (SyncAPI.get_token (Some "Basic base64"%string) issued_at 23456
                  (SyncAPI.init 0)) in
  let t := {| SyncAPI.expires_in := issued_at + SyncAPI.expiration;
              SyncAPI.access_token := 123456;
              SyncAPI.token_type := "Bearer" |} in
  let a := {| access_token := 123456; token_type := "Bearer";
              expires_in := issued_at + SyncAPI.expiration;
              created := issued_at |} in
  SyncAPI.sent reply.2 = Some (SyncAPI.the_token t)
  ∧ SyncAPI.authorized (SyncAPI.tokens reply.1) (Some "Bearer 123456"%string)
      (issued_at + 86400000) = false
  ∧ (getToken (FromGetUsersDB 0) (issued_at + 86400000) (with_auth (Some a) init)).2
    = Fulfilled a.
Proof. vm_compute. done. Qed.

(** C5, as stated, fails.  Two cycles start before any reply: both calls
    of [getToken] find [auth] empty and each sends its own request to
    the issuing endpoint.  When the two replies come, each caller goes
    on with the token of its own request, and [auth] keeps the one that
    came last. *)
Lemma getToken_twice_refreshes_twice :
  let t1 := {| json_access_token := 111111; json_token_type := "Bearer";
               json_expires_in := 900 |} in
  let t2 := {| json_access_token := 222222; json_token_type := "Bearer";
               json_expires_in := 900 |} in
  let st := run init [ setInterval_fires 0; setInterval_fires 30000 ] in
  let st' := run st [ callback 30010 0%nat (token_response (Reply 200 t1));
                      callback 30020 2%nat (token_response (Reply 200 t2)) ] in
  auth st = None
  ∧ issued st = [ GET_token (FromGetUsersDB 0); LDAP_bind 0;
                  GET_token (FromGetUsersDB 1); LDAP_bind 1 ]
  ∧ GET_users 0 111111 ∈ issued st'
  ∧ GET_users 1 222222 ∈ issued st'
  ∧ access_token <$> auth st' = Some 222222.
Proof.
  vm_compute. split; [done|]. split; [done|].
  split; [|split; [|done]]; apply list_elem_of_In; simpl; tauto.
Qed.

(** What a call of [getToken] adds to the handles in flight. *)
Lemma getToken_inflight (k : caller) (now : Z) (st : state) :
  inflight (getToken k now st).1 =
    inflight st ++ match (getToken k now st).2 with
                   | Pending => [length (issued st)]
                   | _ => []
                   end.
Proof.
  unfold getToken. simpl. destruct (auth st) as [a|]; [|by simpl].
  destruct (Qle_bool _ _); simpl; [done|]. by rewrite app_nil_r.
Qed.

(** Calls of [getToken] that each find the credential absent or expired
    send one request each, and leave the cache as it was. *)
Lemma getTokens_stale (calls : list (caller * Z)) (st : state) :
  (∀ a, auth st = Some a →
        Forall (λ call, Qle_bool (inject_Z (expires_in a)) (time a call.2) = true) calls) →
  issued (getTokens calls st) = issued st ++ map (λ call, GET_token call.1) calls
  ∧ inflight (getTokens calls st) = inflight st ++ seq (length (issued st)) (length calls)
  ∧ auth (getTokens calls st) = auth st.
Proof.
  revert st. induction calls as [|[k now] calls IH]; intros st Hstale.
  - simpl. by rewrite !app_nil_r.
  - simpl.
    assert ((getToken k now st).2 = Pending) as Hp.
    { destruct (auth st) as [a|] eqn:Ha.
      - rewrite (getToken_held _ _ _ a Ha).
        specialize (Hstale a eq_refl). apply Forall_cons in Hstale as [Hk _].
        simpl in Hk. by rewrite Hk.
      - by rewrite getToken_absent. }
    destruct (IH (getToken k now st).1) as (Hi & Hf & Ha).
    { intros a. rewrite getToken_auth. intros Hauth.
      specialize (Hstale a Hauth). by apply Forall_cons in Hstale as [_ ?]. }
    unfold getTokens in *.
    rewrite Hi, Hf, Ha, getToken_issued, getToken_inflight, Hp, getToken_auth.
    rewrite length_app, <- !app_assoc. simpl. by rewrite Nat.add_1_r.
Qed.

(** C6 on the code.  The first cycle asks for a token and the issuing
    endpoint cannot be reached, or answers 401.  [createToken] rejects,
    the [catch] inside [getToken] prints its line, and the promise of
    [getToken] is left pending; nothing of the datastore read is then in
    flight, so that promise and the promise of [getUsersDB] stay pending
    for good. *)
Theorem getToken_pending_when_issuer_fails :
  let body := {| json_access_token := 0; json_token_type := "";
                 json_expires_in := 0 |} in
  let st := run init [ setInterval_fires 1000 ] in
  let unreachable := callback 1010 0%nat (token_response (NetError "ECONNREFUSED")) in
  let refused := callback 1010 0%nat (token_response (Reply 401 body)) in
  issued st = [ GET_token (FromGetUsersDB 0); LDAP_bind 0 ]
  ∧ (refreshed 1010 (NetError "ECONNREFUSED") (called 0 st)).2 = Pending
  ∧ (refreshed 1010 (Reply 401 body) (called 0 st)).2 = Pending
  ∧ usersDB (step st unreachable) = [ Pending ]
  ∧ usersDB (step st refused) = [ Pending ]
  ∧ outstanding 0 (step st unreachable) = [ LDAP_bind 0 ]
  ∧ outstanding 0 (step st refused) = [ LDAP_bind 0 ]
  ∧ console (step st refused)
    = console st ++ [ Say "Failed to get token!"; Dump (HttpFailure (Some 401));
                      Say "Failed to create token!" ].
Proof. vm_compute. repeat split; reflexivity. Qed.

End TokenCache.

(* ===================================================================== *)
(** ** The server (server.js) *)
(* ===================================================================== *)

Module Server.
Import JS SyncAPI.

(** No route calls [res.status(...)]: every response of [POST /users]
    leaves with the status code a response object starts with. *)
Lemma post_users_statusCode (authorization : option string)
    (input_username input_surname : value) (now stamp : Z) (st : state) :
  statusCode (post_users authorization input_username input_surname now stamp st).2 = 200.
Proof.
  unfold post_users. destruct (authorized _ _ _); [|done].
  by destruct (truthy input_username), (truthy input_surname).
Qed.

(** C9 on the code.  A token is issued at time 0; at time 1000 it is
    known and unexpired.  A POST with both fields stores the record with
    the server's stamp and sends it back, a POST without surname sends
    the text about missing fields, a POST under an unknown token sends
    the error; in each case the number the specification gives (201,
    400, 401) ends up in the property [status] of the response object,
    and the status code of the response is 200. *)
Theorem post_users_status_line :
  let st := (get_token (Some "Basic base64"%string) 0 23456 (init 0)).1 in
  let bob := {| username := Str "bob"; surname := Str "Jones";
                last_modified := 1000 |} in
  authorized (tokens st) (Some "Bearer 123456"%string) 1000 = true
  ∧ post_users (Some "Bearer 123456"%string) (Str "bob") (Str "Jones") 1000 1000 st
    = ({| tokens := tokens st; users := users st ++ [bob] |},
       {| status := status_number 201; statusCode := 200;
          sent := Some (the_user bob) |})
  ∧ post_users (Some "Bearer 123456"%string) (Str "bob") Undefined 1000 1000 st
    = (st, {| status := status_number 400; statusCode := 200;
              sent := Some (the_text "Missing fields: surname ") |})
  ∧ post_users (Some "Bearer 654321"%string) (Str "bob") (Str "Jones") 1000 1000 st
    = (st, {| status := status_number 401; statusCode := 200;
              sent := Some (the_error "Unauthorized!") |})
  ∧ post_users (Some "Bearer 123456"%string) (Str "bob") (Str "Jones") 900000 900000 st
    = (st, {| status := status_number 401; statusCode := 200;
              sent := Some (the_error "Unauthorized!") |}).
Proof. vm_compute. repeat split; reflexivity. Qed.

(** C10.  After a pass of the sweep a token is in the table exactly when
    it was there before and its [expires_in] is not greater than the
    clock: the pass deletes the tokens with [expires_in > Date.now()],
    those that have not expired yet, and keeps every token that is past
    its expiry.  The users are not touched. *)
Theorem sweep_deletes_unexpired (clock : string → Z) (st : state) :
  (∀ i t, tokens (sweep clock st) !! i = Some t
          ↔ tokens st !! i = Some t ∧ expires_in t ≤ clock i)
  ∧ (∀ i, tokens (sweep clock st) !! i = None
          ↔ ∀ t, tokens st !! i = Some t → clock i < expires_in t)
  ∧ users (sweep clock st) = users st.
Proof.
  split; [|split; [|done]].
  - intros i t. unfold sweep. simpl. rewrite map_lookup_filter_Some. simpl.
    split; intros [? ?]; (split; [done|lia]).
  - intros i. unfold sweep. simpl. rewrite map_lookup_filter_None. simpl.
    split.
    + intros [Hnone | Hall] t Ht; [congruence|].
      specialize (Hall t Ht). lia.
    + intros H. destruct (tokens st !! i) as [t|] eqn:E; [|by left].
      right. intros t' [= <-]. specialize (H t eq_refl). lia.
Qed.

(** A sweep at time 1000 over a table with one token that expired at
    500 and one that expires at 2000: the live one is deleted, the dead
    one stays. *)
Lemma sweep_example :
  let dead := {| expires_in := 500; access_token := 111111; token_type := "Bearer" |} in
  let live := {| expires_in := 2000; access_token := 222222; token_type := "Bearer" |} in
  let st := {| tokens := {[ "Bearer 111111"%string := dead; "Bearer 222222"%string := live ]};
               users := [] |} in
  tokens (sweep (λ _, 1000) st) = {[ "Bearer 111111"%string := dead ]}.
Proof. vm_compute. reflexivity. Qed.

End Server.

(* ===================================================================== *)
(** ** The reconciliation (syncUsers in promises.js) *)
(* ===================================================================== *)

Module Reconciliation.
Import JS UserSync.

(** The loop of [syncUsers] over a datastore side that was read: it
    never throws, it starts one creation per key of [new_users], each
    of them waiting for its callback, and touches nothing else but the
    console. *)
Lemma compare_read (c : nat) (tok : token) (db ldap : object)
    (ks : list string) (st : state) :
  let r := compare c tok (Some db) ldap ks st in
  let new := filter (λ objectKey, truthy (get db objectKey) = false) ks in
  r.2 = false
  ∧ issued r.1 = issued st ++ map (create c tok ldap) new
  ∧ inflight r.1 = inflight st ++ seq (length (issued st)) (length new)
  ∧ auth r.1 = auth st
  ∧ usersDB r.1 = usersDB st
  ∧ ldapObject r.1 = ldapObject st
  ∧ usersLDAP r.1 = usersLDAP st
  ∧ synced r.1 = synced st.
Proof.
  revert st. induction ks as [|k ks IH]; intros st; simpl.
  { by rewrite !app_nil_r. }
  rewrite filter_cons.
  destruct (decide (truthy (get db k) = false)) as [E|E].
  2: { apply not_false_is_true in E. rewrite E. simpl.
       apply (IH (log (Say (k +:+ " already exists")) st)). }
  - rewrite E. simpl.
    destruct (IH (start (create c tok ldap k)
                    (log (Say (k +:+ " exists only in LDAP")) st)))
      as (H1 & H2 & H3 & H4 & H5 & H6 & H7 & H8).
    unfold create in *. simpl in *.
    rewrite H1, H2, H3, H4, H5, H6, H7, H8.
    rewrite length_app, <- !app_assoc. simpl.
    by rewrite Nat.add_1_r.
Qed.

(** The loop over a datastore side that is [undefined]: it throws at
    the first key, before anything is started. *)
Lemma compare_unread (c : nat) (tok : token) (ldap : object)
    (ks : list string) (st : state) :
  (compare c tok None ldap ks st).1 = st.
Proof. by destruct ks. Qed.

(** When one of the two reads failed, [syncUsers] starts no creation. *)
Lemma syncUsers_then_unread (c : nat) (tok : token) (st : state) :
  values0 c st = None ∨ values1 c st = None →
  issued (syncUsers_then c tok st) = issued st
  ∧ inflight (syncUsers_then c tok st) = inflight st.
Proof.
  intros H. unfold syncUsers_then.
  destruct (values1 c st) as [ldap|] eqn:E1; [|done].
  destruct H as [H|H]; [|done]. rewrite H.
  pose proof (compare_unread c tok ldap (keys ldap) st) as Hc.
  destruct (compare c tok None ldap (keys ldap) st) as [st' thrown].
  simpl in Hc. subst st'. by destruct thrown.
Qed.

(** [syncUsers] when both reads succeeded. *)
Lemma syncUsers_then_read (c : nat) (tok : token) (st : state)
    (db ldap : object) :
  values0 c st = Some db →
  values1 c st = Some ldap →
  let st' := syncUsers_then c tok st in
  issued st' = issued st ++ map (create c tok ldap) (new_users db ldap)
  ∧ inflight st' = inflight st ++ seq (length (issued st)) (length (new_users db ldap))
  ∧ synced st' = alter (λ p, settle p (Fulfilled true)) c (synced st)
  ∧ auth st' = auth st
  ∧ usersDB st' = usersDB st
  ∧ usersLDAP st' = usersLDAP st
  ∧ ldapObject st' = ldapObject st.
Proof.
  intros H0 H1. unfold syncUsers_then. rewrite H0, H1.
  destruct (compare_read c tok db ldap (keys ldap) st)
    as (Hr & Hi & Hf & Ha & Hd & Ho & Hl & Hs).
  destruct (compare c tok (Some db) ldap (keys ldap) st) as [st' thrown].
  simpl in *. subst thrown. simpl. unfold new_users.
  by rewrite Hi, Hf, Ha, Hd, Ho, Hl, Hs.
Qed.

(** With a fresh credential in the cache, [syncUsers] goes straight to
    its comparison. *)
Lemma syncUsers_fresh (c : nat) (now : Z) (st : state) (a : token) :
  auth st = Some a →
  Qle_bool (inject_Z (expires_in a)) (time a now) = false →
  syncUsers c now st
  = syncUsers_then c a
      (log (Say "Getting token") (log (Say "Determining new users...") st)).
Proof.
  intros Ha Hfresh. unfold syncUsers, getToken. simpl. by rewrite Ha, Hfresh.
Qed.

(** Which keys are submitted: the own keys of the directory side whose
    lookup on the datastore side is falsy, each of them once. *)
Lemma new_users_spec (db ldap : object) (k : string) :
  k ∈ new_users db ldap ↔ is_Some (ldap !! k) ∧ truthy (get db k) = false.
Proof.
  unfold new_users. rewrite list_elem_of_filter, Objects.elem_of_keys.
  split; intros [? ?]; done.
Qed.

Lemma new_users_NoDup (db ldap : object) : NoDup (new_users db ldap).
Proof. apply NoDup_filter, Objects.NoDup_keys. Qed.

(** A directory key that the datastore side does not have is submitted,
    unless it is one of the names [Object.prototype] provides. *)
Lemma new_users_absent (db ldap : object) (k : string) :
  is_Some (ldap !! k) → db !! k = None → k ∉ Object_prototype →
  k ∈ new_users db ldap.
Proof.
  intros Hl Hd Hp. apply new_users_spec. split; [done|].
  unfold get. rewrite Hd. by rewrite bool_decide_eq_false_2.
Qed.

(** A key the datastore side has with a surname that is not empty is not
    submitted. *)
Lemma new_users_present (db ldap : object) (k s : string) :
  db !! k = Some (Str s) → s ≠ ""%string → k ∉ new_users db ldap.
Proof.
  intros Hd Hs. rewrite new_users_spec. intros [_ Hf].
  unfold get in Hf. rewrite Hd in Hf. simpl in Hf.
  apply negb_false_iff, String.eqb_eq in Hf. done.
Qed.

(** C1 on the code.  Both reads succeed; the directory has bob with
    surname Jones, the datastore has bob with the empty surname, so bob
    is a key of both sides.  [!usersDB["bob"]] is [!""], which is true:
    the console says that bob exists only in LDAP and a creation request
    for bob is sent. *)
Theorem syncUsers_creates_user_with_empty_surname :
  let tj := {| json_access_token := 123456; json_token_type := "Bearer";
               json_expires_in := 900 |} in
  let st := run init
    [ setInterval_fires 1000;
      callback 1010 0%nat (token_response (Reply 200 tj));
      callback 1020 1%nat (bind_result None);
      callback 1030 3%nat (search_result None);
      callback 1040 4%nat (search_emits (searchEntry "bob" (Str "Jones")));
      callback 1050 4%nat (search_emits end_of_results);
      callback 1060 2%nat
        (users_response (Reply 200 [ {| username := "bob"; surname := Str "" |} ])) ] in
  values0 0 st = Some {[ "bob"%string := Str "" ]}
  ∧ values1 0 st = Some {[ "bob"%string := Str "Jones" ]}
  ∧ issued st
    = [ GET_token (FromGetUsersDB 0); LDAP_bind 0; GET_users 0 123456;
        LDAP_search 0; LDAP_results 0; POST_users 0 123456 "bob" (Str "Jones") ]
  ∧ Say "bob exists only in LDAP" ∈ console st.
Proof.
  vm_compute. split; [done|]. split; [done|]. split; [done|].
  apply list_elem_of_In. simpl. tauto.
Qed.

(** The same test in the other direction: a directory user whose name
    [Object.prototype] provides is taken to exist in any datastore. *)
Lemma syncUsers_skips_inherited_name :
  new_users ∅ {[ "constructor"%string := Str "Jones" ]} = []
  ∧ new_users {[ "bob"%string := Str "" ]} {[ "bob"%string := Str "Jones" ]} = [ "bob"%string ]
  ∧ new_users {[ "alice"%string := Str "Smith" ]}
      [ ("alice"%string, Str "Smith"); ("bob"%string, Str "Jones") ] = [ "bob"%string ].
Proof. vm_compute. done. Qed.




(** C3 on the code.  The bind is refused while the datastore read
    succeeds.  The [catch] on the directory read prints the failure and
    turns it into [undefined]; [Promise.all] is fulfilled and
    [syncUsers] runs.  [Object.keys(undefined)] throws, the [catch]
    inside [syncUsers] prints that getting the token failed, and the
    promise of the cycle is left pending with nothing in flight: no
    callback can settle it any more.  No creation request is sent.  In
    the second run the datastore read is refused and the directory is
    empty: the promise of the cycle is fulfilled with [true]. *)
Theorem reader_failure_not_surfaced :
  let tj := {| json_access_token := 123456; json_token_type := "Bearer";
               json_expires_in := 900 |} in
  let st := run init
    [ setInterval_fires 1000;
      callback 1010 0%nat (token_response (Reply 200 tj));
      callback 1020 1%nat (bind_result (Some "InvalidCredentialsError"));
      callback 1030 2%nat
        (users_response (Reply 200 [ {| username := "alice"; surname := Str "Smith" |} ])) ] in
  let st2 := run init
    [ setInterval_fires 1000;
      callback 1010 0%nat (token_response (Reply 200 tj));
      callback 1020 1%nat (bind_result None);
      callback 1030 3%nat (search_result None);
      callback 1050 4%nat (search_emits end_of_results);
      callback 1060 2%nat (users_response (Reply 401 [])) ] in
  usersLDAP st = [ Rejected (LdapError "InvalidCredentialsError") ]
  ∧ issued st = [ GET_token (FromGetUsersDB 0); LDAP_bind 0; GET_users 0 123456 ]
  ∧ drop 8 (console st)
    = [ Say "Failed to Authenticate:InvalidCredentialsError";
        Say "Failed to get the user list from LDAP!";
        Dump (LdapError "InvalidCredentialsError");
        Say "Found: 1 DB users";
        Say "Determining new users...";
        Say "Getting token";
        Say "Failed to get token!" ]
  ∧ synced st = [ Pending ]
  ∧ inflight st = []
  ∧ (∀ now h a, step st (callback now h a) = st)
  ∧ usersDB st2 = [ Rejected (HttpFailure (Some 401)) ]
  ∧ synced st2 = [ Fulfilled true ].
Proof.
  vm_compute. repeat split; reflexivity.
Qed.

End Reconciliation.

(* ===================================================================== *)
(** ** The scheduler (setInterval in promises.js) *)
(* ===================================================================== *)

Module Scheduler.
Import JS UserSync.

(** What a firing of the timer adds: a pending promise per list, and
    the operations of the new cycle, the bind among them, all waiting
    for their callbacks. *)
Lemma tick_starts (now : Z) (st : state) :
  ∃ ops,
    issued (tick now st) = issued st ++ ops
    ∧ inflight (tick now st) = inflight st ++ seq (length (issued st)) (length ops)
    ∧ LDAP_bind (length (synced st)) ∈ ops
    ∧ synced (tick now st) = synced st ++ [Pending].
Proof.
  unfold tick, getUsersDB, getToken. simpl.
  destruct (auth st) as [a|]; simpl.
  - destruct (Qle_bool _ _); simpl.
    + exists [GET_token (FromGetUsersDB (length (synced st))); LDAP_bind (length (synced st))].
      rewrite <- !app_assoc, length_app. simpl. rewrite Nat.add_1_r.
      repeat split; try done. set_solver.
    + exists [LDAP_bind (length (synced st)); GET_users (length (synced st)) (access_token a)].
      rewrite <- !app_assoc, length_app. simpl. rewrite Nat.add_1_r.
      repeat split; try done. set_solver.
  - exists [GET_token (FromGetUsersDB (length (synced st))); LDAP_bind (length (synced st))].
    rewrite <- !app_assoc, length_app. simpl. rewrite Nat.add_1_r.
    repeat split; try done. set_solver.
Qed.

Lemma outstanding_spec (c : nat) (st : state) (op : io) :
  op ∈ outstanding c st
  ↔ cycle_of op = c ∧ ∃ h, h ∈ inflight st ∧ issued st !! h = Some op.
Proof.
  unfold outstanding. by rewrite list_elem_of_filter, list_elem_of_omap.
Qed.

(** C7, as stated, fails.  The first cycle has sent the creation request
    for bob and waits for the reply when the timer fires again, 30
    seconds after the first firing: the second cycle starts its two
    reads at once, and both cycles have callbacks to come. *)
Lemma second_cycle_overlaps_first :
  let tj := {| json_access_token := 123456; json_token_type := "Bearer";
               json_expires_in := 900 |} in
  let st := run init
    [ setInterval_fires 1000;
      callback 1010 0%nat (token_response (Reply 200 tj));
      callback 1020 1%nat (bind_result None);
      callback 1030 3%nat (search_result None);
      callback 1040 4%nat (search_emits (searchEntry "bob" (Str "Jones")));
      callback 1050 4%nat (search_emits end_of_results);
      callback 1060 2%nat (users_response (Reply 200 [])) ] in
  let st' := step st (setInterval_fires 31000) in
  POST_users 0 123456 "bob" (Str "Jones") ∈ outstanding 0 st
  ∧ POST_users 0 123456 "bob" (Str "Jones") ∈ outstanding 0 st'
  ∧ outstanding 1 st' = [ LDAP_bind 1; GET_users 1 123456 ]
  ∧ length (synced st') = 2%nat.
Proof.
  vm_compute. split; [|split; [|done]]; apply list_elem_of_In; simpl; tauto.
Qed.

(** C7, amended.  Every firing of the timer starts a new cycle, whatever
    the earlier cycles are doing: the new cycle has its bind in flight,
    and every operation an earlier cycle was waiting for is still waited
    for.  No firing is skipped and cycles may overlap. *)
Theorem tick_always_starts_a_cycle (now : Z) (st : state) :
  let c := length (synced st) in
  let st' := step st (setInterval_fires now) in
  length (synced st') = S c
  ∧ LDAP_bind c ∈ outstanding c st'
  ∧ ∀ c' op, op ∈ outstanding c' st → op ∈ outstanding c' st'.
Proof.
  simpl. destruct (tick_starts now st) as (ops & Hi & Hf & Hb & Hs).
  split; [|split].
  - rewrite Hs, length_app. simpl. lia.
  - apply outstanding_spec. split; [done|].
    apply list_elem_of_lookup in Hb as [i Hi'].
    exists (length (issued st) + i)%nat. rewrite Hi, Hf. split.
    + apply elem_of_app. right. apply elem_of_seq.
      apply lookup_lt_Some in Hi'. lia.
    + rewrite lookup_app_r by lia.
      by replace (length (issued st) + i - length (issued st))%nat with i by lia.
  - intros c' op. rewrite !outstanding_spec.
    intros [Hc (h & Hin & Hop)]. split; [done|].
    exists h. rewrite Hi, Hf. split.
    + apply elem_of_app. by left.
    + by apply lookup_app_l_Some.
Qed.

End Scheduler.

(* ===================================================================== *)
(** ** The directory read (getUsersLDAP in promises.js) *)
(* ===================================================================== *)

Module Directory.
Import JS UserSync.

(** Nothing but the callbacks of the directory touches the promises of
    [getUsersLDAP]. *)
Lemma getToken_usersLDAP (k : caller) (now : Z) (st : state) :
  usersLDAP (getToken k now st).1 = usersLDAP st.
Proof.
  unfold getToken. simpl. destruct (auth st); [destruct (Qle_bool _ _)|]; done.
Qed.

Lemma refreshed_usersLDAP (now : Z) (r : response token_json) (st : state) :
  usersLDAP (refreshed now r st).1 = usersLDAP st.
Proof. unfold refreshed, createToken_callback. by destruct (ok r). Qed.

Lemma syncUsers_then_usersLDAP (c : nat) (tok : token) (st : state) :
  usersLDAP (syncUsers_then c tok st) = usersLDAP st.
Proof.
  destruct (values1 c st) as [ldap|] eqn:E1.
  - destruct (values0 c st) as [db|] eqn:E0.
    + by destruct (Reconciliation.syncUsers_then_read c tok st db ldap E0 E1)
        as (_ & _ & _ & _ & _ & H & _).
    + unfold syncUsers_then. rewrite E1, E0.
      pose proof (Reconciliation.compare_unread c tok ldap (keys ldap) st) as Hc.
      destruct (compare c tok None ldap (keys ldap) st) as [st' thrown].
      simpl in Hc. subst st'. by destruct thrown.
  - unfold syncUsers_then. by rewrite E1.
Qed.

Lemma on_token_usersLDAP (k : caller) (p : promise token reason) (st : state) :
  usersLDAP (on_token k p st) = usersLDAP st.
Proof.
  destruct p as [|tok|e]; [done| |done]. destruct k; simpl; [done|].
  apply syncUsers_then_usersLDAP.
Qed.

Lemma syncUsers_usersLDAP (c : nat) (now : Z) (st : state) :
  usersLDAP (syncUsers c now st) = usersLDAP st.
Proof.
  unfold syncUsers.
  pose proof (getToken_usersLDAP (FromSyncUsers c) now
                (log (Say "Determining new users...") st)) as H.
  destruct (getToken _ _ _) as [st' p]. simpl in H.
  by rewrite on_token_usersLDAP.
Qed.

Lemma all_usersLDAP (c : nat) (now : Z) (st : state) :
  usersLDAP (all c now st) = usersLDAP st.
Proof.
  unfold all. destruct (usersDB st !! c) as [p|]; [|done].
  destruct (usersLDAP st !! c) as [q|]; [|done].
  destruct (settled p && settled q); [|done]. apply syncUsers_usersLDAP.
Qed.

Lemma settle_usersDB_usersLDAP (c : nat) (p : promise object reason)
    (now : Z) (st : state) :
  usersLDAP (settle_usersDB c p now st) = usersLDAP st.
Proof.
  unfold settle_usersDB. destruct (usersDB st !! c) as [[| |]|]; try done.
  rewrite all_usersLDAP. by destruct p.
Qed.

Lemma settle_usersLDAP_usersLDAP (c : nat) (p : promise unit reason)
    (now : Z) (st : state) :
  usersLDAP (settle_usersLDAP c p now st)
  = match usersLDAP st !! c with
    | Some Pending => <[c:=p]> (usersLDAP st)
    | _ => usersLDAP st
    end.
Proof.
  unfold settle_usersLDAP. destruct (usersLDAP st !! c) as [[| |]|]; try done.
  rewrite all_usersLDAP. by destruct p.
Qed.

Lemma tick_usersLDAP (now : Z) (st : state) :
  usersLDAP (tick now st) = usersLDAP st ++ [Pending].
Proof.
  unfold tick, getUsersDB.
  match goal with |- context [getToken ?k ?n ?s] =>
    pose proof (getToken_usersLDAP k n s) as H;
    destruct (getToken k n s) as [st' p] end.
  simpl in H. rewrite on_token_usersLDAP. simpl. done.
Qed.

(** One step of the event loop, seen from the promises of
    [getUsersLDAP]: the timer adds a pending one, a callback of the
    directory settles the one of its cycle if it is pending, and nothing
    else changes any. *)
Lemma step_usersLDAP (st : state) (ev : event) :
  usersLDAP (step st ev)
  = match ev with
    | setInterval_fires _ => usersLDAP st ++ [Pending]
    | callback now h a =>
        if bool_decide (h ∈ inflight st) then
          match issued st !! h ≫= (λ op, verdict op a) with
          | Some (c, p) =>
              match usersLDAP st !! c with
              | Some Pending => <[c:=p]> (usersLDAP st)
              | _ => usersLDAP st
              end
          | None => usersLDAP st
          end
        else usersLDAP st
    end.
Proof.
  destruct ev as [now|now h a]; simpl; [apply tick_usersLDAP|].
  destruct (bool_decide (h ∈ inflight st)); [|done].
  destruct (issued st !! h) as [op|]; simpl; [|done].
  destruct op as [k|c b|c|c|c|c b u s], a as [r|r|r|err|err|e]; simpl; try done.
  - pose proof (refreshed_usersLDAP now r (called h st)) as H.
    destruct (refreshed now r (called h st)) as [st' q]. simpl in H.
    by rewrite on_token_usersLDAP.
  - unfold getUsersDB_callback.
    destruct (ok r); by rewrite settle_usersDB_usersLDAP.
  - unfold bind_callback. destruct err; [|done].
    by rewrite settle_usersLDAP_usersLDAP.
  - unfold search_callback. destruct err; [|done].
    by rewrite settle_usersLDAP_usersLDAP.
  - unfold res_on. destruct e; [done| |]; by rewrite settle_usersLDAP_usersLDAP.
  - unfold create_callback. by destruct (ok r).
Qed.

(** A settled promise stays as it is: [resolve] and [reject] act once. *)
Lemma step_settled_stays (st : state) (ev : event) (c : nat) (p : promise unit reason) :
  usersLDAP st !! c = Some p → p ≠ Pending →
  usersLDAP (step st ev) !! c = Some p.
Proof.
  intros Hc Hp. rewrite step_usersLDAP. destruct ev as [now|now h a].
  { by apply lookup_app_l_Some. }
  destruct (bool_decide (h ∈ inflight st)); [|done].
  destruct (issued st !! h ≫= λ op, verdict op a) as [[c' q]|]; [|done].
  destruct (usersLDAP st !! c') as [[| |]|] eqn:E; try done.
  rewrite list_lookup_insert_ne; [done|]. intros ->. congruence.
Qed.

Lemma run_settled_stays (st : state) (evs : list event) (c : nat) (p : promise unit reason) :
  usersLDAP st !! c = Some p → p ≠ Pending →
  usersLDAP (run st evs) !! c = Some p.
Proof.
  revert st. induction evs as [|ev evs IH]; intros st Hc Hp; [done|].
  simpl. apply IH; [|done]. by apply step_settled_stays.
Qed.

(** A step fulfils the promise of cycle [c] only when it is the
    end-of-results signal of a search of that cycle, received while the
    promise is pending. *)
Lemma step_fulfilled (st : state) (ev : event) (c : nat) (u : unit) :
  usersLDAP (step st ev) !! c = Some (Fulfilled u) →
  usersLDAP st !! c = Some (Fulfilled u)
  ∨ ∃ now h, ev = callback now h (search_emits end_of_results)
             ∧ h ∈ inflight st
             ∧ issued st !! h = Some (LDAP_results c)
             ∧ usersLDAP st !! c = Some Pending.
Proof.
  rewrite step_usersLDAP. destruct ev as [now|now h a].
  { intros H. apply lookup_snoc_Some in H as [[_ H]|[_ H]]; [by left|done]. }
  destruct (bool_decide (h ∈ inflight st)) eqn:Hin; [|by left].
  apply bool_decide_eq_true in Hin.
  destruct (issued st !! h) as [op|] eqn:Hop; simpl; [|by left].
  destruct (verdict op a) as [[c' q]|] eqn:V; [|by left].
  destruct (usersLDAP st !! c') as [[| |]|] eqn:E; try by left.
  destruct (decide (c = c')) as [<-|Hne].
  2: { rewrite list_lookup_insert_ne by done. by left. }
  rewrite list_lookup_insert_eq by (by eapply lookup_lt_Some).
  intros [= ->]. right. exists now, h.
  destruct op as [k|c' b|c'|c'|c'|c' b n s], a as [r|r|r|err|err|e];
    simpl in V; try done.
  - by destruct err.
  - by destruct err.
  - destruct e as [cn sn|m|]; simplify_eq. done.
Qed.

(** C8.  Follow the promise of [getUsersLDAP] of one cycle along any run
    of the event loop.  (1) If the promise is fulfilled, so that the
    caller receives the collected entries, then somewhere in the run the
    end-of-results signal of a search of that cycle was received, and
    the promise was still pending at that point: no error signal had
    come before it.  (2) If an error signal of the search is received
    while the promise is not fulfilled, that is before end-of-results,
    then at any later point of the run the promise is rejected, and what
    [syncUsers] receives for the directory side is [undefined], never
    the entries collected so far. *)
Theorem getUsersLDAP_all_or_nothing (st : state) (c : nat) :
  (∀ evs u,
     (∀ u', usersLDAP st !! c ≠ Some (Fulfilled u')) →
     usersLDAP (run st evs) !! c = Some (Fulfilled u) →
     ∃ evs1 now h evs2,
       evs = evs1 ++ callback now h (search_emits end_of_results) :: evs2
       ∧ h ∈ inflight (run st evs1)
       ∧ issued (run st evs1) !! h = Some (LDAP_results c)
       ∧ usersLDAP (run st evs1) !! c = Some Pending)
  ∧ (∀ evs1 now h message evs2 p,
       h ∈ inflight (run st evs1) →
       issued (run st evs1) !! h = Some (LDAP_results c) →
       usersLDAP (run st evs1) !! c = Some p →
       (∀ u, p ≠ Fulfilled u) →
       let st' := run st (evs1 ++ callback now h (search_emits (error message)) :: evs2) in
       (∃ e, usersLDAP st' !! c = Some (Rejected e))
       ∧ values1 c st' = None).
Proof.
  split.
  - intros evs. induction evs as [|ev evs IH] using rev_ind; intros u Hstart Hend.
    { simpl in Hend. by destruct (Hstart u). }
    unfold run in Hend. rewrite foldl_app in Hend. simpl in Hend.
    apply step_fulfilled in Hend as [Hbefore | (now & h & -> & Hin & Hop & Hp)].
    + destruct (IH u Hstart Hbefore) as (evs1 & now & h & evs2 & -> & H).
      exists evs1, now, h, (evs2 ++ [ev]). split; [|done].
      by rewrite <- app_assoc.
    + by exists evs, now, h, [].
  - intros evs1 now h message evs2 p Hin Hop Hp Hnot st'.
    assert (∃ e, usersLDAP st' !! c = Some (Rejected e)) as [e He].
    { subst st'. unfold run. rewrite foldl_app. simpl.
      fold (run st evs1).
      set (st1 := step (run st evs1) (callback now h (search_emits (error message)))).
      assert (∃ e, usersLDAP st1 !! c = Some (Rejected e)) as [e He].
      { destruct p as [|u|e].
        - exists (LdapError message). subst st1. rewrite step_usersLDAP.
          rewrite bool_decide_eq_true_2 by done. rewrite Hop. simpl. rewrite Hp.
          apply list_lookup_insert_eq. by eapply lookup_lt_Some.
        - by destruct (Hnot u).
        - exists e. subst st1. by apply step_settled_stays. }
      exists e. by apply (run_settled_stays st1 evs2). }
    split; [by exists e|]. unfold values1. by rewrite He.
Qed.

Lemma getUsersLDAP_all_or_nothing_witness :
  let tj := {| json_access_token := 123456; json_token_type := "Bearer";
               json_expires_in := 900 |} in
  let evs1 :=
    [ setInterval_fires 1000;
      callback 1010 0%nat (token_response (Reply 200 tj));
      callback 1020 1%nat (bind_result None);
      callback 1030 3%nat (search_result None);
      callback 1040 4%nat (search_emits (searchEntry "bob" (Str "Jones"))) ] in
  let evs2 :=
    [ callback 1050 4%nat (search_emits end_of_results);
      callback 1060 2%nat (users_response (Reply 200 [])) ] in
  let st' := run init (evs1 ++ callback 1045 4%nat (search_emits (error "Busy")) :: evs2) in
  ldapObject (run init evs1) = [ {[ "bob"%string := Str "Jones" ]} ]
  ∧ ((∃ e, usersLDAP st' !! 0%nat = Some (Rejected e)) ∧ values1 0 st' = None)
  ∧ ∃ evs1' now h evs2',
      evs1 ++ evs2 = evs1' ++ callback now h (search_emits end_of_results) :: evs2'
      ∧ h ∈ inflight (run init evs1')
      ∧ issued (run init evs1') !! h = Some (LDAP_results 0)
      ∧ usersLDAP (run init evs1') !! 0%nat = Some Pending.
Proof.
  intros tj evs1 evs2 st'. split; [vm_compute; reflexivity|]. split.
  - apply (proj2 (getUsersLDAP_all_or_nothing init 0)
             evs1 1045 4%nat "Busy"%string evs2 Pending).
    + vm_compute. apply list_elem_of_In. simpl. tauto.
    + vm_compute. reflexivity.
    + vm_compute. reflexivity.
    + intros u. discriminate.
  - apply (proj1 (getUsersLDAP_all_or_nothing init 0) (evs1 ++ evs2) ()).
    + intros u'. simpl. discriminate.
    + vm_compute. reflexivity.
Defined.

End Directory.

(* ===================================================================== *)
(** ** Creation requests along a run *)
(* ===================================================================== *)

Module Isolation.
Import JS UserSync.

(** No creation request in a short explicit list of operations. *)
Ltac no_creation :=
  let Hin := fresh "Hin" in
  intros ? ? ? ? Hin;
  repeat (apply elem_of_cons in Hin as [Hin|Hin]; [discriminate Hin|]);
  by apply elem_of_nil in Hin.

Lemma follows_refl (st : state) : follows st st.
Proof. repeat split; auto. Qed.

Lemma follows_trans (st1 st2 st3 : state) :
  follows st1 st2 → follows st2 st3 → follows st1 st3.
Proof.
  intros (D1 & L1 & P1) (D2 & L2 & P2). split; [|split].
  - intros c p H Hp. apply D2; [|done]. by apply D1.
  - intros c p H Hp. apply L2; [|done]. by apply L1.
  - intros c b u s H. destruct (P2 c b u s H) as [H2|H2]; [|by right].
    destruct (P1 c b u s H2) as [H1|[[o Ho] Hl]]; [by left|]. right. split.
    + exists o. by apply D2.
    + by apply L2.
Qed.

(** A change that touches neither the reads nor the list of operations. *)
Lemma follows_same (st st' : state) :
  usersDB st' = usersDB st → usersLDAP st' = usersLDAP st →
  issued st' = issued st → follows st st'.
Proof.
  intros Hd Hl Hi. unfold follows. rewrite Hd, Hl, Hi. repeat split; auto.
Qed.

(** A change that starts operations, none of them a creation. *)
Lemma follows_started (st st' : state) (ops : list io) :
  usersDB st' = usersDB st → usersLDAP st' = usersLDAP st →
  issued st' = issued st ++ ops →
  (∀ c b u s, POST_users c b u s ∉ ops) →
  follows st st'.
Proof.
  intros Hd Hl Hi Hops. unfold follows. rewrite Hd, Hl, Hi.
  split; [auto|]. split; [auto|].
  intros c b u s [H|H]%elem_of_app; [by left|]. by destruct (Hops c b u s).
Qed.

Lemma getToken_follows (k : caller) (now : Z) (st : state) :
  follows st (getToken k now st).1.
Proof.
  eapply (follows_started _ _
            match (getToken k now st).2 with Pending => [GET_token k] | _ => [] end).
  - unfold getToken. simpl. destruct (auth st); [destruct (Qle_bool _ _)|]; done.
  - apply Directory.getToken_usersLDAP.
  - apply TokenCache.getToken_issued.
  - destruct (getToken k now st).2; no_creation.
Qed.

Lemma refreshed_follows (now : Z) (r : response token_json) (st : state) :
  follows st (refreshed now r st).1.
Proof.
  unfold refreshed, createToken_callback.
  destruct (ok r); by apply follows_same.
Qed.

Lemma values0_fulfilled (c : nat) (st : state) (db : object) :
  values0 c st = Some db → usersDB st !! c = Some (Fulfilled db).
Proof.
  unfold values0. destruct (usersDB st !! c) as [[| |]|]; naive_solver.
Qed.

Lemma values1_fulfilled (c : nat) (st : state) (ldap : object) :
  values1 c st = Some ldap → usersLDAP st !! c = Some (Fulfilled ()).
Proof.
  unfold values1. destruct (usersLDAP st !! c) as [[|[]|]|]; naive_solver.
Qed.

(** The one place creations are started: [syncUsers], and only after
    both reads. *)
Lemma syncUsers_then_follows (c : nat) (tok : token) (st : state) :
  follows st (syncUsers_then c tok st).
Proof.
  destruct (values1 c st) as [ldap|] eqn:E1.
  - destruct (values0 c st) as [db|] eqn:E0.
    + destruct (Reconciliation.syncUsers_then_read c tok st db ldap E0 E1)
        as (Hi & _ & _ & _ & Hd & Hl & _).
      unfold follows, both_read. rewrite Hd, Hl, Hi.
      split; [auto|]. split; [auto|].
      intros c' b u s [H|H]%elem_of_app; [by left|]. right.
      apply list_elem_of_fmap in H as (k & Hk & _). unfold create in Hk.
      injection Hk as -> _ _ _. split.
      * exists db. by apply values0_fulfilled.
      * by eapply values1_fulfilled.
    + unfold syncUsers_then. rewrite E1, E0.
      pose proof (Reconciliation.compare_unread c tok ldap (keys ldap) st) as Hc.
      destruct (compare c tok None ldap (keys ldap) st) as [st' thrown].
      simpl in Hc. subst st'. destruct thrown; by apply follows_same.
  - unfold syncUsers_then. rewrite E1. by apply follows_same.
Qed.

Lemma on_token_follows (k : caller) (p : promise token reason) (st : state) :
  follows st (on_token k p st).
Proof.
  destruct p as [|tok|e]; simpl.
  - apply follows_refl.
  - destruct k as [c|c].
    + apply (follows_started _ _ [GET_users c (access_token tok)]); try done.
      no_creation.
    + apply syncUsers_then_follows.
  - by apply follows_same.
Qed.

Lemma syncUsers_follows (c : nat) (now : Z) (st : state) :
  follows st (syncUsers c now st).
Proof.
  unfold syncUsers.
  pose proof (getToken_follows (FromSyncUsers c) now
                (log (Say "Determining new users...") st)) as H.
  destruct (getToken _ _ _) as [st' p]. simpl in H.
  eapply follows_trans; [|apply on_token_follows].
  eapply follows_trans; [|exact H]. by apply follows_same.
Qed.

Lemma all_follows (c : nat) (now : Z) (st : state) :
  follows st (all c now st).
Proof.
  unfold all. destruct (usersDB st !! c) as [p|]; [|apply follows_refl].
  destruct (usersLDAP st !! c) as [q|]; [|apply follows_refl].
  destruct (settled p && settled q); [|apply follows_refl].
  apply syncUsers_follows.
Qed.

Lemma settle_usersDB_follows (c : nat) (p : promise object reason)
    (now : Z) (st : state) :
  follows st (settle_usersDB c p now st).
Proof.
  unfold settle_usersDB.
  destruct (usersDB st !! c) as [[| |]|] eqn:E; try apply follows_refl.
  eapply follows_trans; [|apply all_follows].
  eapply (follows_trans _ (with_usersDB (<[c:=p]> (usersDB st)) st)).
  - unfold follows. simpl. split; [|auto].
    intros c' p' H Hp. rewrite list_lookup_insert_ne; [done|].
    intros <-. congruence.
  - destruct p; by apply follows_same.
Qed.

Lemma settle_usersLDAP_follows (c : nat) (p : promise unit reason)
    (now : Z) (st : state) :
  follows st (settle_usersLDAP c p now st).
Proof.
  unfold settle_usersLDAP.
  destruct (usersLDAP st !! c) as [[| |]|] eqn:E; try apply follows_refl.
  eapply follows_trans; [|apply all_follows].
  eapply (follows_trans _ (with_usersLDAP (<[c:=p]> (usersLDAP st)) st)).
  - unfold follows. simpl. split; [auto|]. split; [|auto].
    intros c' p' H Hp. rewrite list_lookup_insert_ne; [done|].
    intros <-. congruence.
  - destruct p; by apply follows_same.
Qed.

Lemma tick_follows (now : Z) (st : state) : follows st (tick now st).
Proof.
  unfold tick, getUsersDB.
  match goal with |- context [getToken ?k ?n ?s] =>
    pose proof (getToken_follows k n s) as H;
    destruct (getToken k n s) as [st' p] end.
  simpl in H.
  eapply follows_trans; [|apply on_token_follows].
  eapply (follows_trans _ st').
  - eapply follows_trans; [|exact H].
    unfold follows. simpl. split; [|split; [|auto]].
    + intros c q Hq _. by apply lookup_app_l_Some.
    + intros c q Hq _. by apply lookup_app_l_Some.
  - apply (follows_started _ _ [LDAP_bind (length (synced st))]); try done.
    no_creation.
Qed.

Lemma step_follows (st : state) (ev : event) : follows st (step st ev).
Proof.
  destruct ev as [now|now h a]; simpl; [apply tick_follows|].
  destruct (bool_decide (h ∈ inflight st)); [|apply follows_refl].
  destruct (issued st !! h) as [op|]; [|apply follows_refl].
  destruct op as [k|c b|c|c|c|c b u s], a as [r|r|r|err|err|e];
    try apply follows_refl.
  - pose proof (refreshed_follows now r (called h st)) as H.
    destruct (refreshed now r (called h st)) as [st' q]. simpl in H.
    eapply follows_trans; [|apply on_token_follows].
    eapply follows_trans; [|exact H]. by apply follows_same.
  - unfold getUsersDB_callback.
    destruct (ok r); (eapply follows_trans; [|apply settle_usersDB_follows]);
      by apply follows_same.
  - unfold bind_callback. destruct err.
    + eapply follows_trans; [|apply settle_usersLDAP_follows]. by apply follows_same.
    + apply (follows_started _ _ [LDAP_search c]); try done. no_creation.
  - unfold search_callback. destruct err.
    + eapply follows_trans; [|apply settle_usersLDAP_follows]. by apply follows_same.
    + apply (follows_started _ _ [LDAP_results c]); try done. no_creation.
  - unfold res_on. destruct e; [by apply follows_same| |];
      (eapply follows_trans; [|apply settle_usersLDAP_follows]); by apply follows_same.
  - unfold create_callback. destruct (ok r); by apply follows_same.
Qed.

Lemma run_follows (st : state) (evs : list event) : follows st (run st evs).
Proof.
  revert st. induction evs as [|ev evs IH]; intros st; [apply follows_refl|].
  simpl. eapply follows_trans; [apply step_follows | apply IH].
Qed.

(** Along every run from the start, a creation request is only ever sent
    for a cycle whose two reads have succeeded. *)
Lemma creation_needs_both_reads (evs : list event) (c : nat) (b : Z)
    (u : string) (s : value) :
  POST_users c b u s ∈ issued (run init evs) → both_read c (run init evs).
Proof.
  intros H. destruct (run_follows init evs) as (_ & _ & P).
  destruct (P c b u s H) as [H'|H']; [|done]. simpl in H'.
  by apply elem_of_nil in H'.
Qed.

(** Hence a cycle one of whose reads has failed never sends a creation
    request, whatever happens later in the run. *)
Lemma no_creation_after_failed_read (evs1 evs2 : list event) (c : nat) (e : reason) :
  usersDB (run init evs1) !! c = Some (Rejected e)
  ∨ usersLDAP (run init evs1) !! c = Some (Rejected e) →
  ∀ b u s, POST_users c b u s ∉ issued (run init (evs1 ++ evs2)).
Proof.
  intros Hfail b u s Hin.
  apply creation_needs_both_reads in Hin as [[o Ho] Hl].
  unfold run in Ho, Hl. rewrite foldl_app in Ho, Hl.
  destruct (run_follows (run init evs1) evs2) as (D & L & _).
  destruct Hfail as [Hd|Hd].
  - apply D in Hd; [|done]. unfold run in Hd. congruence.
  - apply L in Hd; [|done]. unfold run in Hd. congruence.
Qed.

End Isolation.

(* ===================================================================== *)
(** ** The datastore side of the comparison (getUsersDB, syncUsers) *)
(* ===================================================================== *)

Module Datastore.
Import JS UserSync.

Lemma filter_ext_in {A} (P Q : A → Prop) `{!∀ x, Decision (P x), !∀ x, Decision (Q x)}
    (l : list A) :
  (∀ x, x ∈ l → P x ↔ Q x) → filter P l = filter Q l.
Proof.
  induction l as [|a l IH]; intros Hext; [done|].
  rewrite !filter_cons.
  rewrite IH by (intros x Hx; apply Hext; by right).
  destruct (decide (P a)) as [HP|HP], (decide (Q a)) as [HQ|HQ]; try done.
  - destruct HQ. apply Hext; [by left|done].
  - destruct HP. apply Hext; [by left|done].
Qed.

Lemma get_set (k k' : string) (v : value) (o : object) :
  get (set k' v o) k
  = if bool_decide (k' = k ∧ k' ≠ "__proto__"%string) then v else get o k.
Proof.
  unfold get. rewrite Objects.lookup_set.
  destruct (bool_decide_reflect (k' = "__proto__"%string)) as [Hp|Hp].
  - by destruct (bool_decide_reflect (k' = k ∧ k' ≠ "__proto__"%string)) as [[_ ?]|_].
  - destruct (bool_decide_reflect (k' = k ∧ k' ≠ "__proto__"%string)) as [[-> _]|Hn].
    + by rewrite decide_True.
    + rewrite decide_False; [done|]. intros ->. by apply Hn.
Qed.

Lemma usersDB_of_snoc (jsonBody : list user_json) (user : user_json) :
  usersDB_of (jsonBody ++ [user])
  = set (username user) (surname user) (usersDB_of jsonBody).
Proof. unfold usersDB_of. by rewrite foldl_app. Qed.

(** X1.  The object [getUsersDB] builds has one own property per
    username of the array, [__proto__] excepted, and its value is the
    surname of the last element of the array with that username. *)
Theorem usersDB_of_lookup (jsonBody : list user_json) (k : string) :
  usersDB_of jsonBody !! k
  = if bool_decide (k = "__proto__"%string) then None
    else surname <$> last (filter (λ user, username user = k) jsonBody).
Proof.
  induction jsonBody as [|user jsonBody IH] using rev_ind.
  { by case_bool_decide. }
  rewrite usersDB_of_snoc, filter_app, last_app, filter_cons, filter_nil.
  rewrite Objects.lookup_set. destruct (decide (k = "__proto__"%string)) as [Hk|Hk].
  - rewrite (bool_decide_eq_true_2 (k = _) Hk) in IH |- *.
    destruct (decide (username user = "__proto__"%string)) as [Hu|Hu].
    + by rewrite (bool_decide_eq_true_2 (username user = _) Hu).
    + rewrite (bool_decide_eq_false_2 (username user = _) Hu).
      rewrite decide_False by congruence. done.
  - rewrite (bool_decide_eq_false_2 (k = _) Hk) in IH |- *.
    destruct (decide (username user = "__proto__"%string)) as [Hu|Hu].
    + rewrite (bool_decide_eq_true_2 (username user = _) Hu), IH.
      rewrite decide_False by congruence. done.
    + rewrite (bool_decide_eq_false_2 (username user = _) Hu).
      destruct (decide (username user = k)) as [Hx|Hx]; [done|].
      by rewrite IH.
Qed.

(** The object of a datastore read never has [__proto__] as a key, so it
    always finds [__proto__] to exist. *)
Lemma usersDB_of_proto (jsonBody : list user_json) :
  truthy (get (usersDB_of jsonBody) "__proto__") = true.
Proof.
  induction jsonBody as [|user jsonBody IH] using rev_ind; [done|].
  rewrite usersDB_of_snoc, get_set.
  by destruct (bool_decide_reflect
                 (username user = "__proto__"%string
                  ∧ username user ≠ "__proto__"%string)) as [[? ?]|_].
Qed.

(** X2.  When every surname the datastore side holds is truthy and no
    directory name is a property of [Object.prototype], the keys
    [syncUsers] submits are the directory keys the datastore side does
    not have, each of them once. *)
Theorem new_users_is_difference (db ldap : object) :
  (∀ k v, db !! k = Some v → truthy v = true) →
  (∀ k, is_Some (ldap !! k) → k ∉ Object_prototype) →
  NoDup (new_users db ldap)
  ∧ ∀ k, k ∈ new_users db ldap ↔ k ∈ dom ldap ∧ k ∉ dom db.
Proof.
  intros Hdb Hldap. split; [apply Reconciliation.new_users_NoDup|].
  intros k. rewrite Reconciliation.new_users_spec, !Objects.elem_of_dom_object.
  split.
  - intros [Hl Hf]. split; [done|]. intros [v Hv].
    unfold get in Hf. rewrite Hv in Hf. rewrite (Hdb k v Hv) in Hf. done.
  - intros [Hl Hd]. split; [done|].
    apply eq_None_not_Some in Hd. unfold get. rewrite Hd.
    by rewrite bool_decide_eq_false_2 by auto.
Qed.

Lemma new_users_is_difference_witness :
  let db : object := {[ "alice"%string := Str "Smith" ]} in
  let ldap : object :=
    [ ("alice"%string, Str "Smith"); ("bob"%string, Str "Jones") ] in
  "bob"%string ∈ new_users db ldap ∧ "alice"%string ∉ new_users db ldap.
Proof.
  intros db ldap.
  destruct (new_users_is_difference db ldap) as [_ H].
  - subst db. intros k v Hv. unfold singletonM, object_singleton in Hv.
    rewrite Objects.lookup_cons in Hv.
    destruct (decide _); [by injection Hv as <-|done].
  - subst ldap. intros k Hk%Objects.lookup_is_Some. simpl in Hk.
    repeat (apply elem_of_cons in Hk as [->|Hk];
            [intros Hin; apply (bool_decide_pack _) in Hin; vm_compute in Hin; done|]).
    by apply elem_of_nil in Hk.
  - split.
    + apply H. split.
      * apply Objects.elem_of_dom_object. vm_compute. eauto.
      * intros Hd. apply Objects.elem_of_dom_object in Hd as [v Hv].
        vm_compute in Hv. discriminate.
    + intros [_ Hn]%H. apply Hn, Objects.elem_of_dom_object. vm_compute. eauto.
Defined.

Lemma filter_none {A} (P : A → Prop) `{!∀ x, Decision (P x)} (l : list A) :
  (∀ x, x ∈ l → ¬ P x) → filter P l = [].
Proof.
  induction l as [|a l IH]; intros Hnone; [done|].
  rewrite filter_cons, decide_False by (apply Hnone; by left).
  apply IH. intros x Hx. apply Hnone. by right.
Qed.

(** Reading the datastore again after the records for [ks] were added
    to it. *)
Lemma get_after_records (ldap db : object) (ks : list string) (k : string) :
  get (foldl (λ o user, set (username user) (surname user) o) db
         (map (λ objectKey, {| username := objectKey; surname := get ldap objectKey |}) ks)) k
  = if bool_decide (k ∈ ks ∧ k ≠ "__proto__"%string) then get ldap k else get db k.
Proof.
  revert db. induction ks as [|a ks IH]; intros db.
  { by destruct (bool_decide_reflect (k ∈ [] ∧ k ≠ "__proto__"%string))
      as [[?%elem_of_nil _]|_]. }
  cbn [map foldl username surname]. rewrite IH, get_set.
  destruct (bool_decide_reflect (k ∈ ks ∧ k ≠ "__proto__"%string)) as [[Hin Hp]|Hn].
  - rewrite bool_decide_eq_true_2; [done|]. split; [by right|done].
  - destruct (bool_decide_reflect (a = k ∧ a ≠ "__proto__"%string)) as [[-> Hp]|Hn'].
    + rewrite bool_decide_eq_true_2; [done|]. split; [by left|done].
    + rewrite bool_decide_eq_false_2; [done|].
      intros [[->|Hin]%elem_of_cons Hp]; [by apply Hn'|by apply Hn].
Qed.

(** X3.  Suppose the datastore stores the record of every creation
    request of a cycle that passes its test on the two fields, and the
    directory stays as it is.  Then the keys the next cycle submits are
    exactly the keys of this cycle whose request did not pass the test.
    In particular, when every directory entry has a non-empty name and a
    truthy surname, the next cycle submits nothing. *)
Theorem next_cycle_resubmits_the_refused (jsonBody : list user_json)
    (ldap : object) :
  let db := usersDB_of jsonBody in
  let db' := usersDB_of (jsonBody ++ stored ldap (new_users db ldap)) in
  new_users db' ldap = filter (λ k, accepted ldap k = false) (new_users db ldap)
  ∧ ((∀ k, is_Some (ldap !! k) → accepted ldap k = true) → new_users db' ldap = []).
Proof.
  intros db db'.
  assert (new_users db' ldap
          = filter (λ k, accepted ldap k = false) (new_users db ldap)) as Heq.
  { unfold new_users. rewrite list_filter_filter.
    apply filter_ext_in. intros k Hk.
    assert (get db' k
            = if bool_decide (k ∈ filter (λ k, accepted ldap k = true) (new_users db ldap)
                              ∧ k ≠ "__proto__"%string)
              then get ldap k else get db k) as ->.
    { subst db'. unfold usersDB_of, stored. rewrite foldl_app.
      apply get_after_records. }
    destruct (bool_decide_reflect
                (k ∈ filter (λ k, accepted ldap k = true) (new_users db ldap)
                 ∧ k ≠ "__proto__"%string)) as [[Hin Hp]|Hn].
    - apply list_elem_of_filter in Hin as [Hacc Hnew].
      pose proof Hacc as Hacc'. unfold accepted in Hacc'.
      apply andb_true_iff in Hacc' as [_ Ht]. rewrite Ht.
      split; [done|]. intros [Hf _]. congruence.
    - split; [|by intros [_ ?]]. intros Hf. split; [|done].
      destruct (accepted ldap k) eqn:Hacc; [|done]. destruct Hn. split.
      + apply list_elem_of_filter. split; [done|].
        unfold new_users. by apply list_elem_of_filter.
      + intros ->. subst db. rewrite usersDB_of_proto in Hf. done. }
  split; [done|]. intros Hall. rewrite Heq. apply filter_none.
  intros k [[v Hv] _]%Reconciliation.new_users_spec.
  rewrite Hall by eauto. done.
Qed.

Lemma next_cycle_resubmits_the_refused_witness :
  let jsonBody := [ {| username := "alice"; surname := Str "Smith" |} ] in
  let ldap : object :=
    [ ("alice"%string, Str "Smith"); ("bob"%string, Str "Jones") ] in
  new_users (usersDB_of jsonBody) ldap = [ "bob"%string ]
  ∧ new_users
      (usersDB_of (jsonBody ++ stored ldap (new_users (usersDB_of jsonBody) ldap)))
      ldap = [].
Proof.
  intros jsonBody ldap. split; [vm_compute; reflexivity|].
  apply (proj2 (next_cycle_resubmits_the_refused jsonBody ldap)).
  subst ldap. intros k Hk%Objects.lookup_is_Some. simpl in Hk.
  repeat (apply elem_of_cons in Hk as [->|Hk]; [reflexivity|]).
  by apply elem_of_nil in Hk.
Defined.

End Datastore.

(* ===================================================================== *)
(** ** What each handler touches *)
(* ===================================================================== *)

Module Effects.
Import JS UserSync.

Lemma started_nil (st st' : state) :
  issued st' = issued st → inflight st' = inflight st → started [] st st'.
Proof. intros Hi Hf. split; simpl; by rewrite ?app_nil_r. Qed.

Lemma started_one (op : io) (st : state) : started [op] st (start op st).
Proof. by split. Qed.

Lemma started_trans (ops1 ops2 : list io) (st1 st2 st3 : state) :
  started ops1 st1 st2 → started ops2 st2 st3 → started (ops1 ++ ops2) st1 st3.
Proof.
  intros [Hi1 Hf1] [Hi2 Hf2]. split.
  - by rewrite Hi2, Hi1, app_assoc.
  - rewrite Hf2, Hf1, Hi1, !length_app, seq_app, app_assoc. done.
Qed.

Lemma begun_same (P : io → Prop) (st st' : state) :
  issued st' = issued st → inflight st' = inflight st → begun P st st'.
Proof. intros Hi Hf. exists []. split; [by apply started_nil|done]. Qed.

Lemma begun_start (P : io → Prop) (op : io) (st : state) :
  P op → begun P st (start op st).
Proof.
  intros HP. exists [op]. split; [apply started_one|]. by apply Forall_singleton.
Qed.

Lemma begun_trans (P : io → Prop) (st1 st2 st3 : state) :
  begun P st1 st2 → begun P st2 st3 → begun P st1 st3.
Proof.
  intros (ops1 & H1 & F1) (ops2 & H2 & F2). exists (ops1 ++ ops2).
  split; [by eapply started_trans|]. by apply Forall_app.
Qed.

Lemma begun_mono (P Q : io → Prop) (st st' : state) :
  (∀ op, P op → Q op) → begun P st st' → begun Q st st'.
Proof.
  intros HPQ (ops & H & F). exists ops. split; [done|].
  eapply Forall_impl; eauto.
Qed.

(** [getToken] starts at most its own token request and changes nothing
    else but the console. *)
Lemma getToken_fields (k : caller) (now : Z) (st : state) :
  let st' := (getToken k now st).1 in
  auth st' = auth st ∧ usersDB st' = usersDB st ∧ usersLDAP st' = usersLDAP st
  ∧ ldapObject st' = ldapObject st ∧ synced st' = synced st
  ∧ begun (λ op, op = GET_token k) st st'.
Proof.
  unfold getToken. simpl. destruct (auth st) as [a|] eqn:Ha; simpl.
  - destruct (Qle_bool _ _); simpl; repeat split; try done.
    + by apply (begun_start _ (GET_token k) (log (Say "Getting token") st)).
    + by apply begun_same.
  - repeat split; try done.
    by apply (begun_start _ (GET_token k) (log (Say "Getting token") st)).
Qed.

Lemma syncUsers_then_compares (c : nat) (tok : token) (st : state) :
  compares c st (syncUsers_then c tok st).
Proof.
  destruct (values1 c st) as [ldap|] eqn:E1.
  - destruct (values0 c st) as [db|] eqn:E0.
    + destruct (Reconciliation.syncUsers_then_read c tok st db ldap E0 E1)
        as (Hi & Hf & Hs & Ha & Hd & Hl & Ho).
      repeat split; try done; [by right|].
      exists (map (create c tok ldap) (new_users db ldap)). split.
      * split; [done|]. by rewrite length_map.
      * apply Forall_forall. intros op (k & -> & _)%list_elem_of_fmap.
        right. unfold create. eauto.
    + unfold syncUsers_then. rewrite E1, E0.
      pose proof (Reconciliation.compare_unread c tok ldap (keys ldap) st) as Hc.
      destruct (compare c tok None ldap (keys ldap) st) as [st' thrown].
      simpl in Hc. subst st'.
      destruct thrown; repeat split; try done; try (by left); try (by right);
        by apply begun_same.
  - unfold syncUsers_then. rewrite E1.
    repeat split; try done; [by left|]. by apply begun_same.
Qed.

Lemma compares_same (c : nat) (st st' : state) :
  auth st' = auth st → usersDB st' = usersDB st → usersLDAP st' = usersLDAP st →
  ldapObject st' = ldapObject st → synced st' = synced st →
  issued st' = issued st → inflight st' = inflight st →
  compares c st st'.
Proof.
  intros. repeat split; try done; [by left|]. by apply begun_same.
Qed.

(** A step that changes none of the promises, followed by a
    comparison. *)
Lemma compares_after (c : nat) (st st1 st2 : state) :
  auth st1 = auth st → usersDB st1 = usersDB st → usersLDAP st1 = usersLDAP st →
  ldapObject st1 = ldapObject st → synced st1 = synced st →
  begun (λ op, op = GET_token (FromSyncUsers c)
               ∨ ∃ b u s, op = POST_users c b u s) st st1 →
  compares c st1 st2 → compares c st st2.
Proof.
  intros Ha Hd Hl Ho Hs Hb (Ha' & Hd' & Hl' & Ho' & Hs' & Hb').
  rewrite Ha, Hd, Hl, Ho, Hs in *. repeat split; try done.
  by eapply begun_trans.
Qed.

Lemma on_token_sync_compares (c : nat) (p : promise token reason) (st : state) :
  compares c st (on_token (FromSyncUsers c) p st).
Proof.
  destruct p as [|tok|e]; simpl.
  - by apply compares_same.
  - apply syncUsers_then_compares.
  - by apply compares_same.
Qed.

Lemma on_token_db_fields (c : nat) (p : promise token reason) (st : state) :
  let st' := on_token (FromGetUsersDB c) p st in
  auth st' = auth st ∧ usersDB st' = usersDB st ∧ usersLDAP st' = usersLDAP st
  ∧ ldapObject st' = ldapObject st ∧ synced st' = synced st
  ∧ begun (λ op, ∃ b, op = GET_users c b) st st'.
Proof.
  destruct p as [|tok|e]; simpl; repeat split; try done.
  - by apply begun_same.
  - apply (begun_start _ (GET_users c (access_token tok))). eauto.
  - by apply begun_same.
Qed.

Lemma syncUsers_compares (c : nat) (now : Z) (st : state) :
  compares c st (syncUsers c now st).
Proof.
  unfold syncUsers.
  pose proof (getToken_fields (FromSyncUsers c) now
                (log (Say "Determining new users...") st)) as H.
  destruct (getToken _ _ _) as [st1 p]. simpl in H.
  destruct H as (Ha & Hd & Hl & Ho & Hs & Hb).
  apply (compares_after c st st1); try done.
  - eapply begun_trans; [by apply begun_same|].
    eapply begun_mono; [|exact Hb]. intros op ->. by left.
  - apply on_token_sync_compares.
Qed.

Lemma compares_refl (c : nat) (st : state) : compares c st st.
Proof. by apply compares_same. Qed.

Lemma all_compares (c : nat) (now : Z) (st : state) :
  compares c st (all c now st).
Proof.
  unfold all. destruct (usersDB st !! c) as [p|]; [|apply compares_refl].
  destruct (usersLDAP st !! c) as [q|]; [|apply compares_refl].
  destruct (settled p && settled q); [|apply compares_refl].
  apply syncUsers_compares.
Qed.

(** With the datastore read of its cycle pending, [Promise.all] does not
    call [syncUsers]. *)
Lemma all_waits (c : nat) (now : Z) (st : state) :
  usersDB st !! c = Some Pending → all c now st = st.
Proof. intros H. unfold all. by rewrite H; destruct (usersLDAP st !! c). Qed.

(** [resolve] or [reject] of a datastore read: nothing happens unless the
    promise is pending; then it takes the outcome and [Promise.all] is
    looked at. *)
Lemma settle_usersDB_effect (c : nat) (p : promise object reason)
    (now : Z) (st : state) :
  settle_usersDB c p now st = st
  ∨ usersDB st !! c = Some Pending
    ∧ ∃ st1, auth st1 = auth st ∧ usersDB st1 = <[c:=p]> (usersDB st)
             ∧ usersLDAP st1 = usersLDAP st ∧ ldapObject st1 = ldapObject st
             ∧ synced st1 = synced st ∧ issued st1 = issued st
             ∧ inflight st1 = inflight st
             ∧ compares c st1 (settle_usersDB c p now st).
Proof.
  unfold settle_usersDB.
  destruct (usersDB st !! c) as [[| |]|] eqn:E; try by left.
  right. split; [done|].
  exists (match p with
          | Rejected e =>
              log (Dump e) (log (Say "Failed to get the user list from API!")
                              (with_usersDB (<[c:=p]> (usersDB st)) st))
          | _ => with_usersDB (<[c:=p]> (usersDB st)) st
          end).
  do 7 (split; [by destruct p|]). apply all_compares.
Qed.

Lemma settle_usersLDAP_effect (c : nat) (p : promise unit reason)
    (now : Z) (st : state) :
  settle_usersLDAP c p now st = st
  ∨ usersLDAP st !! c = Some Pending
    ∧ ∃ st1, auth st1 = auth st ∧ usersDB st1 = usersDB st
             ∧ usersLDAP st1 = <[c:=p]> (usersLDAP st)
             ∧ ldapObject st1 = ldapObject st
             ∧ synced st1 = synced st ∧ issued st1 = issued st
             ∧ inflight st1 = inflight st
             ∧ compares c st1 (settle_usersLDAP c p now st).
Proof.
  unfold settle_usersLDAP.
  destruct (usersLDAP st !! c) as [[| |]|] eqn:E; try by left.
  right. split; [done|].
  exists (match p with
          | Rejected e =>
              log (Dump e) (log (Say "Failed to get the user list from LDAP!")
                              (with_usersLDAP (<[c:=p]> (usersLDAP st)) st))
          | _ => with_usersLDAP (<[c:=p]> (usersLDAP st)) st
          end).
  do 7 (split; [by destruct p|]). apply all_compares.
Qed.

(** While the datastore read of the cycle is pending, settling its
    directory read starts nothing and fulfils nothing. *)
Lemma settle_usersLDAP_waits (c : nat) (p : promise unit reason)
    (now : Z) (st : state) :
  usersDB st !! c = Some Pending →
  let st' := settle_usersLDAP c p now st in
  auth st' = auth st ∧ usersDB st' = usersDB st ∧ ldapObject st' = ldapObject st
  ∧ synced st' = synced st ∧ issued st' = issued st ∧ inflight st' = inflight st.
Proof.
  intros Hd. unfold settle_usersLDAP.
  destruct (usersLDAP st !! c) as [[| |]|] eqn:E; try done.
  rewrite all_waits; by destruct p.
Qed.

Lemma refreshed_fields (now : Z) (r : response token_json) (st : state) :
  let st' := (refreshed now r st).1 in
  usersDB st' = usersDB st ∧ usersLDAP st' = usersLDAP st
  ∧ ldapObject st' = ldapObject st ∧ synced st' = synced st
  ∧ issued st' = issued st ∧ inflight st' = inflight st
  ∧ (auth st' = auth st
     ∨ ∃ body, ok r = Some body ∧ auth st' = Some (stamped now body)).
Proof.
  unfold refreshed, createToken_callback.
  destruct (ok r) as [body|]; simpl; repeat split; try done.
  - right. by exists body.
  - by left.
Qed.

(** A callback that ends in a comparison of its own cycle. *)
Lemma handled_of_compares (now : Z) (a : arguments) (op : io) (st0 st1 st' : state) :
  (auth st1 = auth st0
   ∨ ∃ k r body, op = GET_token k ∧ a = token_response r ∧ ok r = Some body
                 ∧ auth st1 = Some (stamped now body)) →
  (usersDB st1 = usersDB st0
   ∨ ∃ b r, op = GET_users (cycle_of op) b ∧ a = users_response r
            ∧ usersDB st0 !! cycle_of op = Some Pending
            ∧ usersDB st1 = <[cycle_of op := read_outcome r]> (usersDB st0)) →
  ldapObject st1 = ldapObject st0 → synced st1 = synced st0 →
  issued st1 = issued st0 → inflight st1 = inflight st0 →
  compares (cycle_of op) st1 st' →
  (usersDB st0 !! cycle_of op = Some Pending → ¬ drives (cycle_of op) op →
   usersDB st' = usersDB st0 ∧ synced st' = synced st0
   ∧ issued st' = issued st0 ∧ inflight st' = inflight st0) →
  handled now a op st0 st'.
Proof.
  intros Ha Hd Ho Hs Hi Hf (Ha' & Hd' & _ & Ho' & Hs' & (ops & [Hi' Hf'] & HP)) HQ.
  unfold handled. rewrite Ha', Hd', Ho', Ho. rewrite Hs in Hs'.
  split; [done|]. split; [done|]. split; [by left|]. split; [done|]. split.
  - exists ops. split.
    + split; [by rewrite Hi', Hi|by rewrite Hf', Hf, Hi].
    + eapply Forall_impl; [exact HP|]. intros o [->|(b & u & s & ->)]; by simpl.
  - intros Hp Hn. destruct (HQ Hp Hn) as (Qd & Qs & Qi & Qf).
    rewrite <- Hd'. split; [done|]. split; [done|]. by apply begun_same.
Qed.

(** A callback that runs no comparison. *)
Lemma handled_simple (P : io → Prop) (now : Z) (a : arguments) (op : io)
    (st0 st' : state) :
  (auth st' = auth st0
   ∨ ∃ k r body, op = GET_token k ∧ a = token_response r ∧ ok r = Some body
                 ∧ auth st' = Some (stamped now body)) →
  usersDB st' = usersDB st0 →
  (ldapObject st' = ldapObject st0
   ∨ ∃ cn sn, ldapObject st' = alter (set cn sn) (cycle_of op) (ldapObject st0)) →
  synced st' = synced st0 →
  begun P st0 st' →
  (∀ o, P o → cycle_of o = cycle_of op ∧ ∀ c, o ≠ GET_token (FromGetUsersDB c)) →
  (drives (cycle_of op) op ∨ ∀ o, P o → ¬ drives (cycle_of op) o) →
  handled now a op st0 st'.
Proof.
  intros Ha Hd Ho Hs Hb HP HQ. unfold handled. rewrite Hd, Hs.
  split; [done|]. split; [by left|]. split; [done|]. split; [by left|]. split.
  - eapply begun_mono; [|exact Hb]. done.
  - intros _ Hn. split; [done|]. split; [done|].
    destruct HQ as [HQ|HQ]; [done|]. eapply begun_mono; [|exact Hb]. done.
Qed.

Lemma begun_from (P : io → Prop) (st0 st1 st' : state) :
  issued st1 = issued st0 → inflight st1 = inflight st0 →
  begun P st1 st' → begun P st0 st'.
Proof.
  intros Hi Hf (ops & [Hi' Hf'] & HP). exists ops. split; [|done].
  split; [by rewrite Hi', Hi|by rewrite Hf', Hf, Hi].
Qed.

(** The callback of a token request. *)
Lemma token_callback_handled (k : caller) (now : Z) (r : response token_json)
    (st0 : state) :
  handled now (token_response r) (GET_token k) st0
    (let '(st, q) := refreshed now r st0 in on_token k q st).
Proof.
  pose proof (refreshed_fields now r st0) as H.
  destruct (refreshed now r st0) as [st1 q]. simpl in H.
  destruct H as (Hd & Hl & Ho & Hs & Hi & Hf & Ha).
  assert (auth st1 = auth st0
          ∨ ∃ k' r' body, GET_token k = GET_token k'
              ∧ token_response r = token_response r' ∧ ok r' = Some body
              ∧ auth st1 = Some (stamped now body)) as Ha'.
  { destruct Ha as [Ha|(body & Hok & Ha)]; [by left|]. right. by exists k, r, body. }
  destruct k as [c|c].
  - destruct (on_token_db_fields c q st1) as (Ha2 & Hd2 & _ & Ho2 & Hs2 & Hb2).
    apply (handled_simple (λ op, ∃ b, op = GET_users c b)).
    + by rewrite Ha2.
    + by rewrite Hd2.
    + left. by rewrite Ho2.
    + by rewrite Hs2.
    + by eapply begun_from.
    + by intros o [b ->].
    + left. by left.
  - apply (handled_of_compares _ _ _ _ st1); try done.
    + by left.
    + apply on_token_sync_compares.
    + intros _ Hn. destruct Hn. right. by right.
Qed.

(** The callback of a list request. *)
Lemma users_callback_handled (c : nat) (b : Z) (now : Z)
    (r : response (list user_json)) (st0 : state) :
  handled now (users_response r) (GET_users c b) st0
    (getUsersDB_callback c r now st0).
Proof.
  assert (∃ st1, auth st1 = auth st0 ∧ usersDB st1 = usersDB st0
                 ∧ usersLDAP st1 = usersLDAP st0 ∧ ldapObject st1 = ldapObject st0
                 ∧ synced st1 = synced st0 ∧ issued st1 = issued st0
                 ∧ inflight st1 = inflight st0
                 ∧ getUsersDB_callback c r now st0
                   = settle_usersDB c (read_outcome r) now st1)
    as (st1 & Ha & Hd & Hl & Ho & Hs & Hi & Hf & ->).
  { unfold getUsersDB_callback, read_outcome.
    destruct (ok r) as [jsonBody|].
    - by exists (log (Say ("Found: " +:+ pretty (length jsonBody) +:+ " DB users")) st0).
    - by exists (log (Dump (failure r)) (log (Say "Failed to get users from the DB!") st0)). }
  destruct (settle_usersDB_effect c (read_outcome r) now st1)
    as [->|(Hp & st2 & Ha2 & Hd2 & Hl2 & Ho2 & Hs2 & Hi2 & Hf2 & Hc)].
  - apply (handled_simple (λ _, False)); try done.
    + by left.
    + by left.
    + by apply begun_same.
    + left. right. left. by exists b.
  - apply (handled_of_compares _ _ _ _ st2).
    + left. congruence.
    + right. exists b, r. simpl. rewrite <- Hd. repeat split; done.
    + congruence.
    + congruence.
    + congruence.
    + congruence.
    + exact Hc.
    + intros _ Hn. destruct Hn. right. left. by exists b.
Qed.

(** A callback that settles the directory read of its cycle. *)
Lemma directory_settles_handled (c : nat) (p : promise unit reason) (now : Z)
    (a : arguments) (op : io) (st0 st1 : state) :
  cycle_of op = c → ¬ drives c op →
  auth st1 = auth st0 → usersDB st1 = usersDB st0 →
  ldapObject st1 = ldapObject st0 → synced st1 = synced st0 →
  issued st1 = issued st0 → inflight st1 = inflight st0 →
  handled now a op st0 (settle_usersLDAP c p now st1).
Proof.
  intros <- Hn Ha Hd Ho Hs Hi Hf.
  destruct (settle_usersLDAP_effect (cycle_of op) p now st1)
    as [->|(Hp & st2 & Ha2 & Hd2 & Hl2 & Ho2 & Hs2 & Hi2 & Hf2 & Hc)].
  - apply (handled_simple (λ _, False)); try done.
    + by left.
    + by left.
    + by apply begun_same.
    + by right.
  - apply (handled_of_compares _ _ _ _ st2).
    + left. congruence.
    + left. congruence.
    + congruence.
    + congruence.
    + congruence.
    + congruence.
    + exact Hc.
    + intros Hpend _. rewrite <- Hd in Hpend.
      destruct (settle_usersLDAP_waits (cycle_of op) p now st1 Hpend)
        as (_ & Qd & _ & Qs & Qi & Qf).
      rewrite Qd, Qs, Qi, Qf. done.
Qed.

(** Every callback, by the operation it belongs to. *)
Lemma step_callback (st : state) (now : Z) (h : nat) (a : arguments) (op : io) :
  h ∈ inflight st → issued st !! h = Some op →
  step st (callback now h a) = st
  ∨ ∃ st0, ((st0 = st ∧ ∃ c, op = LDAP_results c) ∨ st0 = called h st)
           ∧ handled now a op st0 (step st (callback now h a)).
Proof.
  intros Hin Hop. simpl. rewrite (bool_decide_eq_true_2 _ Hin), Hop.
  destruct op as [k|c b|c|c|c|c b u s], a as [r|r|r|err|err|e];
    try (by left); right.
  - exists (called h st). split; [by right|]. apply token_callback_handled.
  - exists (called h st). split; [by right|]. apply users_callback_handled.
  - exists (called h st). split; [by right|]. unfold bind_callback.
    destruct err as [message|].
    + apply directory_settles_handled; try done.
      intros [?|[[? ?]|?]]; done.
    + apply (handled_simple (λ o, o = LDAP_search c)); try done.
      * by left.
      * by left.
      * eapply (begun_from _ _ (log (Say "Searching")
                 (log (Say "Authenticated as CN=test_user,ou=users,ou=system")
                    (called h st)))); [done..|].
        by apply begun_start.
      * by intros o ->.
      * right. intros o -> [?|[[? ?]|?]]; done.
  - exists (called h st). split; [by right|]. unfold search_callback.
    destruct err as [message|].
    + apply directory_settles_handled; try done.
      intros [?|[[? ?]|?]]; done.
    + apply (handled_simple (λ o, o = LDAP_results c)); try done.
      * by left.
      * by left.
      * by apply begun_start.
      * by intros o ->.
      * right. intros o -> [?|[[? ?]|?]]; done.
  - exists st. split; [left; split; [done|by exists c]|]. unfold res_on.
    destruct e as [cn sn|message|].
    + apply (handled_simple (λ _, False)); try done.
      * by left.
      * right. by exists cn, sn.
      * by apply begun_same.
      * by right.
    + apply directory_settles_handled; try done.
      intros [?|[[? ?]|?]]; done.
    + apply directory_settles_handled; try done.
      intros [?|[[? ?]|?]]; done.
  - exists (called h st). split; [by right|]. unfold create_callback.
    apply (handled_simple (λ _, False)); try done.
    + left. by destruct (ok r).
    + by destruct (ok r).
    + left. by destruct (ok r).
    + by destruct (ok r).
    + apply begun_same; by destruct (ok r).
    + by right.
Qed.

(** A firing of the timer: one more pending promise of each kind, and
    the first operations of the new cycle. *)
Lemma tick_fields (now : Z) (st : state) :
  let c := length (synced st) in
  let st' := tick now st in
  auth st' = auth st
  ∧ usersDB st' = usersDB st ++ [Pending]
  ∧ usersLDAP st' = usersLDAP st ++ [Pending]
  ∧ ldapObject st' = ldapObject st ++ [∅]
  ∧ synced st' = synced st ++ [Pending]
  ∧ ∃ ops, started ops st st'
           ∧ (ops = [GET_token (FromGetUsersDB c); LDAP_bind c]
              ∨ ∃ b, ops = [LDAP_bind c; GET_users c b]).
Proof.
  unfold tick, getUsersDB, getToken. simpl.
  destruct (auth st) as [a|] eqn:Ha; simpl.
  - destruct (Qle_bool _ _); simpl; repeat split; try done.
    + eexists. split; [|by left]. split; simpl.
      * by rewrite <- app_assoc.
      * rewrite <- app_assoc, length_app. simpl. by rewrite Nat.add_1_r.
    + eexists. split; [|right; by eexists]. split; simpl.
      * by rewrite <- app_assoc.
      * rewrite <- app_assoc, length_app. simpl. by rewrite Nat.add_1_r.
  - repeat split; try done.
    eexists. split; [|by left]. split; simpl.
    + by rewrite <- app_assoc.
    + rewrite <- app_assoc, length_app. simpl. by rewrite Nat.add_1_r.
Qed.

End Effects.

(* ===================================================================== *)
(** ** Runs of the client *)
(* ===================================================================== *)

Module Runs.
Import JS UserSync.

Lemma run_snoc (st : state) (evs : list event) (ev : event) :
  run st (evs ++ [ev]) = step (run st evs) ev.
Proof. unfold run. by rewrite foldl_app. Qed.

(** A callback for a handle that is not in flight, or not the handle of
    an operation, does nothing. *)
Lemma step_stray (st : state) (now : Z) (h : nat) (a : arguments) :
  h ∉ inflight st ∨ issued st !! h = None → step st (callback now h a) = st.
Proof.
  intros [Hn|Hn]; simpl.
  - by rewrite bool_decide_eq_false_2.
  - rewrite Hn. by destruct (bool_decide _).
Qed.

(** Every callback either does nothing or is handled as the callback of
    the operation of its handle, from a state with the fields of [st]. *)
Lemma step_cases (st : state) (now : Z) (h : nat) (a : arguments) :
  step st (callback now h a) = st
  ∨ ∃ op st0, h ∈ inflight st ∧ issued st !! h = Some op
      ∧ auth st0 = auth st ∧ usersDB st0 = usersDB st
      ∧ ldapObject st0 = ldapObject st ∧ synced st0 = synced st
      ∧ issued st0 = issued st
      ∧ (inflight st0 = inflight st ∧ (∃ c, op = LDAP_results c)
         ∨ inflight st0 = filter (λ h', h' ≠ h) (inflight st))
      ∧ handled now a op st0 (step st (callback now h a)).
Proof.
  destruct (decide (h ∈ inflight st)) as [Hin|Hn]; [|left; apply step_stray; by left].
  destruct (issued st !! h) as [op|] eqn:Hop; [|left; apply step_stray; by right].
  destruct (Effects.step_callback st now h a op Hin Hop)
    as [?|(st0 & Hst0 & H)]; [by left|].
  right. exists op, st0. do 2 (split; [done|]).
  destruct Hst0 as [[-> Hres] | ->]; do 5 (split; [reflexivity|]);
    (split; [|exact H]); [by left|by right].
Qed.

(** X4.  The credential is replaced only by the stamped token of a 200
    reply to a token request that is in flight: a failed refresh, and
    every other event, leaves it as it is.  So once a credential is
    held, one is held at every later point of a run. *)
Theorem credential_changes_only_on_refresh (st : state) :
  (∀ ev, auth (step st ev) = auth st
         ∨ ∃ now h k r body,
             ev = callback now h (token_response r)
             ∧ h ∈ inflight st ∧ issued st !! h = Some (GET_token k)
             ∧ ok r = Some body
             ∧ auth (step st ev) = Some (stamped now body))
  ∧ (∀ evs, is_Some (auth st) → is_Some (auth (run st evs))).
Proof.
  assert (∀ st ev, auth (step st ev) = auth st
            ∨ ∃ now h k r body,
                ev = callback now h (token_response r)
                ∧ h ∈ inflight st ∧ issued st !! h = Some (GET_token k)
                ∧ ok r = Some body
                ∧ auth (step st ev) = Some (stamped now body)) as Hstep.
  { clear st. intros st [now|now h a].
    - left. by destruct (Effects.tick_fields now st) as (Ha & _).
    - destruct (step_cases st now h a)
        as [->|(op & st0 & Hin & Hop & Ha0 & _ & _ & _ & _ & _ & H)]; [by left|].
      destruct H as ([Ha|(k & r & body & -> & -> & Hok & Ha)] & _).
      + left. congruence.
      + right. by exists now, h, k, r, body. }
  split; [apply Hstep|].
  intros evs. revert st. induction evs as [|ev evs IH]; intros st Hheld; [done|].
  simpl. apply IH.
  destruct (Hstep st ev) as [->|(now & h & k & r & body & _ & _ & _ & _ & ->)];
    [done|by eexists].
Qed.

(** X5.  The promise of a datastore read is settled only by the callback
    of its own list request, while that request is in flight: it is
    fulfilled with the object built from the body of a 200 reply and
    rejected on any other reply or on an error.  Once settled it stays as
    it is for the rest of the run. *)
Theorem getUsersDB_settles_on_its_reply (st : state) (c : nat) :
  (∀ ev p,
     usersDB st !! c = Some Pending →
     usersDB (step st ev) !! c = Some p → p ≠ Pending →
     ∃ now h b r, ev = callback now h (users_response r)
                  ∧ h ∈ inflight st ∧ issued st !! h = Some (GET_users c b)
                  ∧ p = read_outcome r)
  ∧ (∀ evs p, usersDB st !! c = Some p → p ≠ Pending →
              usersDB (run st evs) !! c = Some p).
Proof.
  split.
  - intros [now|now h a] p Hpend Hp Hne.
    + simpl in Hp. destruct (Effects.tick_fields now st) as (_ & Hd & _).
      rewrite Hd in Hp. rewrite (lookup_app_l_Some _ _ _ _ Hpend) in Hp. congruence.
    + destruct (step_cases st now h a)
        as [Heq|(op & st0 & Hin & Hop & _ & Hd0 & _ & _ & _ & _ & H)].
      { rewrite Heq in Hp. congruence. }
      destruct H as (_ & [Hd|(b & r & Hopb & -> & Hp0 & Hd)] & _).
      { rewrite Hd, Hd0 in Hp. congruence. }
      rewrite Hd, Hd0 in Hp.
      destruct (decide (c = cycle_of op)) as [->|Hc].
      * rewrite list_lookup_insert_eq in Hp by (by eapply lookup_lt_Some).
        exists now, h, b, r. rewrite <- Hopb. naive_solver.
      * rewrite list_lookup_insert_ne in Hp by done. congruence.
  - intros evs p Hp Hne.
    by destruct (Isolation.run_follows st evs) as (D & _); apply D.
Qed.

Lemma getUsersDB_settles_on_its_reply_witness :
  let tj := {| json_access_token := 123456; json_token_type := "Bearer";
               json_expires_in := 900 |} in
  let st := run init [ setInterval_fires 1000;
                       callback 1010 0%nat (token_response (Reply 200 tj)) ] in
  let alice := {| username := "alice"; surname := Str "Smith" |} in
  usersDB
    (run (step st (callback 1020 2%nat (users_response (Reply 200 [alice]))))
       [ setInterval_fires 31000 ]) !! 0%nat
  = Some (Fulfilled {[ "alice"%string := Str "Smith" ]}).
Proof.
  intros tj st alice.
  apply (proj2 (getUsersDB_settles_on_its_reply
                  (step st (callback 1020 2%nat (users_response (Reply 200 [alice])))) 0)).
  - vm_compute. reflexivity.
  - discriminate.
Defined.

(** X6.  Along every run from the start, the promise of a cycle is
    pending or fulfilled with [true]: it is never rejected, so the
    [catch] that would print "Failed to synchronize LDAP and DB!" never
    runs, and it never carries another value. *)
Theorem cycle_promise_never_rejected (evs : list event) :
  Forall (λ p, p = Pending ∨ p = Fulfilled true) (synced (run init evs)).
Proof.
  induction evs as [|ev evs IH] using rev_ind; [by apply Forall_nil|].
  rewrite run_snoc. destruct ev as [now|now h a].
  - simpl. destruct (Effects.tick_fields now (run init evs)) as (_ & _ & _ & _ & -> & _).
    apply Forall_app. split; [done|]. apply Forall_singleton. by left.
  - destruct (step_cases (run init evs) now h a)
      as [->|(op & st0 & _ & _ & _ & _ & _ & Hs0 & _ & _ & H)]; [done|].
    destruct H as (_ & _ & _ & [->| ->] & _); rewrite Hs0; [done|].
    apply Forall_alter; [done|]. intros p _ [->| ->]; by right.
Qed.

(** X7.  Every firing of the timer starts exactly one cycle and nothing
    else does: along every run from the start the number of cycles is
    the number of firings, and the four lists of per-cycle state have
    that length. *)
Theorem one_cycle_per_firing (evs : list event) :
  let n := length (filter (λ ev, fires ev = true) evs) in
  length (synced (run init evs)) = n
  ∧ length (usersDB (run init evs)) = n
  ∧ length (usersLDAP (run init evs)) = n
  ∧ length (ldapObject (run init evs)) = n.
Proof.
  induction evs as [|ev evs IH] using rev_ind; [done|].
  simpl in IH |- *. destruct IH as (IHs & IHd & IHl & IHo).
  rewrite run_snoc, filter_app, length_app, filter_cons, filter_nil.
  destruct ev as [now|now h a].
  - simpl.
    destruct (Effects.tick_fields now (run init evs)) as (_ & Hd & Hl & Ho & Hs & _).
    simpl in *. rewrite Hd, Hl, Ho, Hs, !length_app. simpl. lia.
  - rewrite decide_False by done. simpl (length []). rewrite Nat.add_0_r.
    pose proof (Directory.step_usersLDAP (run init evs) (callback now h a)) as HL.
    assert (length (usersLDAP (step (run init evs) (callback now h a)))
            = length (usersLDAP (run init evs))) as HL'.
    { rewrite HL. destruct (bool_decide _); [|done].
      destruct (_ ≫= _) as [[c p]|]; [|done].
      destruct (usersLDAP (run init evs) !! c) as [[| |]|]; try done.
      apply length_insert. }
    destruct (step_cases (run init evs) now h a)
      as [->|(op & st0 & _ & _ & _ & Hd0 & Ho0 & Hs0 & _ & _ & H)]; [done|].
    destruct H as (_ & Hd & Ho & Hs & _).
    split; [|split; [|split; [congruence|]]].
    + destruct Hs as [->| ->]; rewrite ?length_alter; congruence.
    + destruct Hd as [->|(b & r & _ & _ & _ & ->)]; rewrite ?length_insert; congruence.
    + destruct Ho as [->|(cn & sn & ->)]; rewrite ?length_alter; congruence.
Qed.

(** The cycle a callback of the directory settles is the cycle of its
    operation. *)
Lemma verdict_cycle (op : io) (a : arguments) (c : nat) (p : promise unit reason) :
  verdict op a = Some (c, p) → c = cycle_of op.
Proof.
  destruct op as [k|c' b|c'|c'|c'|c' b u s], a as [r|r|r|err|err|e];
    simpl; try done.
  - destruct err; naive_solver.
  - destruct err; naive_solver.
  - destruct e; naive_solver.
Qed.

(** X8.  The callback of an operation touches its own cycle only: the
    promises and the directory object of every other cycle are as
    before, and every operation it starts belongs to the cycle of the
    operation.  Cycles share nothing but the credential. *)
Theorem callback_stays_in_its_cycle (st : state) (now : Z) (h : nat)
    (a : arguments) (op : io) :
  h ∈ inflight st → issued st !! h = Some op →
  let st' := step st (callback now h a) in
  (∀ c, c ≠ cycle_of op →
        usersDB st' !! c = usersDB st !! c
        ∧ usersLDAP st' !! c = usersLDAP st !! c
        ∧ ldapObject st' !! c = ldapObject st !! c
        ∧ synced st' !! c = synced st !! c)
  ∧ ∀ o, o ∈ issued st' → o ∈ issued st ∨ cycle_of o = cycle_of op.
Proof.
  intros Hin Hop st'.
  assert (∀ c, c ≠ cycle_of op → usersLDAP st' !! c = usersLDAP st !! c) as HL.
  { intros c Hc. subst st'. rewrite Directory.step_usersLDAP.
    rewrite (bool_decide_eq_true_2 _ Hin), Hop. simpl.
    destruct (verdict op a) as [[c' p]|] eqn:V; [|done].
    apply verdict_cycle in V as ->.
    destruct (usersLDAP st !! cycle_of op) as [[| |]|]; try done.
    by rewrite list_lookup_insert_ne. }
  destruct (step_cases st now h a)
    as [Heq|(op' & st0 & _ & Hop' & _ & Hd0 & Ho0 & Hs0 & Hi0 & _ & H)].
  { subst st'. rewrite Heq. split; [by auto|]. by left. }
  assert (op' = op) as -> by congruence.
  destruct H as (_ & Hd & Ho & Hs & (ops & [Hi _] & HP) & _). fold st' in Hd, Ho, Hs, Hi.
  split.
  - intros c Hc. split; [|split; [by apply HL|split]].
    + destruct Hd as [->|(b & r & _ & _ & _ & ->)]; rewrite Hd0; [done|].
      by rewrite list_lookup_insert_ne.
    + destruct Ho as [->|(cn & sn & ->)]; rewrite Ho0; [done|].
      by rewrite list_lookup_alter_ne.
    + destruct Hs as [->| ->]; rewrite Hs0; [done|].
      by rewrite list_lookup_alter_ne.
  - intros o. rewrite Hi, Hi0. intros [?|Ho']%elem_of_app; [by left|]. right.
    rewrite Forall_forall in HP. by destruct (HP o Ho').
Qed.

Lemma callback_stays_in_its_cycle_witness :
  let tj := {| json_access_token := 123456; json_token_type := "Bearer";
               json_expires_in := 900 |} in
  let st := run init [ setInterval_fires 1000;
                       callback 1010 0%nat (token_response (Reply 200 tj));
                       setInterval_fires 31000 ] in
  let st' := step st (callback 31010 2%nat (users_response (Reply 401 []))) in
  usersDB st' !! 1%nat = usersDB st !! 1%nat
  ∧ usersLDAP st' !! 1%nat = usersLDAP st !! 1%nat
  ∧ ldapObject st' !! 1%nat = ldapObject st !! 1%nat
  ∧ synced st' !! 1%nat = synced st !! 1%nat.
Proof.
  intros tj st st'.
  apply (proj1 (callback_stays_in_its_cycle st 31010 2%nat
                  (users_response (Reply 401 [])) (GET_users 0 123456)
                  ltac:(vm_compute; apply list_elem_of_In; simpl; tauto)
                  ltac:(vm_compute; reflexivity)) 1%nat).
  simpl. discriminate.
Defined.

End Runs.

(* ===================================================================== *)
(** ** A cycle without a token *)
(* ===================================================================== *)

Module Progress.
Import JS UserSync.

Lemma drives_cycle (c : nat) (op : io) : drives c op → cycle_of op = c.
Proof. by intros [->|[[b ->]| ->]]. Qed.

(** How a step changes the operations: some are started, and the
    handles in flight before are kept or dropped. *)
Lemma step_shape (st : state) (ev : event) :
  ∃ ops hs, issued (step st ev) = issued st ++ ops
            ∧ inflight (step st ev) = hs ++ seq (length (issued st)) (length ops)
            ∧ (∀ h, h ∈ hs → h ∈ inflight st)
            ∧ (NoDup (inflight st) → NoDup hs).
Proof.
  destruct ev as [now|now h a].
  - destruct (Effects.tick_fields now st) as (_ & _ & _ & _ & _ & ops & [Hi Hf] & _).
    by exists ops, (inflight st).
  - destruct (Runs.step_cases st now h a)
      as [->|(op & st0 & _ & _ & _ & _ & _ & _ & Hi0 & Hf0 & H)].
    { exists [], (inflight st). simpl. by rewrite !app_nil_r. }
    destruct H as (_ & _ & _ & _ & (ops & [Hi Hf] & _) & _).
    exists ops, (inflight st0). rewrite Hi, Hf, Hi0. do 2 (split; [done|]).
    destruct Hf0 as [[-> _]| ->]; [done|]. split.
    + by intros h' [_ ?]%list_elem_of_filter.
    + apply NoDup_filter.
Qed.

Lemma valid_step (st : state) (ev : event) :
  handles_valid st → handles_valid (step st ev).
Proof.
  intros HV. destruct (step_shape st ev) as (ops & hs & Hi & Hf & Hs & _).
  intros h. rewrite Hf, Hi, length_app.
  intros [Hh|Hh]%elem_of_app.
  - apply Hs, HV in Hh. lia.
  - apply elem_of_seq in Hh. lia.
Qed.

Lemma nodup_step (st : state) (ev : event) :
  handles_valid st → NoDup (inflight st) → NoDup (inflight (step st ev)).
Proof.
  intros HV HN. destruct (step_shape st ev) as (ops & hs & Hi & Hf & Hs & Hn).
  rewrite Hf. apply NoDup_app. split; [by apply Hn|]. split; [|apply NoDup_seq].
  intros h Hh Hh'. apply Hs, HV in Hh. apply elem_of_seq in Hh'. lia.
Qed.

(** A stuck cycle stays stuck when the two promises stay pending and
    none of the operations started drives it. *)
Lemma stuck_extend (c : nat) (st st' : state) (ops : list io) (hs : list nat) :
  stuck c st →
  usersDB st' !! c = Some Pending → synced st' !! c = Some Pending →
  issued st' = issued st ++ ops →
  inflight st' = hs ++ seq (length (issued st)) (length ops) →
  (∀ h, h ∈ hs → h ∈ inflight st) →
  Forall (λ o, ¬ drives c o) ops →
  stuck c st'.
Proof.
  intros (_ & _ & _ & HV & HD) Hd Hs Hi Hf Hhs Hops.
  split; [done|]. split; [done|]. split; [by eapply lookup_lt_Some|]. split.
  - intros h. rewrite Hf, Hi, length_app. intros [Hh|Hh]%elem_of_app.
    + apply Hhs, HV in Hh. lia.
    + apply elem_of_seq in Hh. lia.
  - intros h op. rewrite Hf, Hi. intros [Hh|Hh]%elem_of_app Hop.
    + apply Hhs in Hh. pose proof (HV h Hh) as Hlt.
      rewrite lookup_app_l in Hop by done. by eapply HD.
    + apply elem_of_seq in Hh. rewrite lookup_app_r in Hop by lia.
      rewrite Forall_forall in Hops. apply Hops.
      by eapply list_elem_of_lookup_2.
Qed.

Lemma kept_handles (st st0 : state) (h : nat) (op : io) :
  inflight st0 = inflight st ∧ (∃ c, op = LDAP_results c)
  ∨ inflight st0 = filter (λ h', h' ≠ h) (inflight st) →
  ∀ h', h' ∈ inflight st0 → h' ∈ inflight st.
Proof.
  intros [[-> _]| ->] h'; [done|]. by intros [_ ?]%list_elem_of_filter.
Qed.

(** No event gets a stuck cycle going again. *)
Lemma stuck_step (c : nat) (st : state) (ev : event) :
  stuck c st → stuck c (step st ev).
Proof.
  intros Hst. pose proof Hst as (Hd & Hs & Hc & HV & HD).
  destruct ev as [now|now h a].
  - destruct (Effects.tick_fields now st) as (_ & Hd' & _ & _ & Hs' & ops & [Hi Hf] & Hops).
    apply (stuck_extend c st _ ops (inflight st)); try done.
    + simpl. rewrite Hd'. by apply lookup_app_l_Some.
    + simpl. rewrite Hs'. by apply lookup_app_l_Some.
    + destruct Hops as [->|[b ->]]; repeat constructor;
        intros Hdr%drives_cycle; simpl in Hdr; lia.
  - destruct (Runs.step_cases st now h a)
      as [->|(op & st0 & Hin & Hop & _ & Hd0 & _ & Hs0 & Hi0 & Hf0 & H)]; [done|].
    assert (¬ drives c op) as Hnd by (by eapply HD).
    destruct H as (_ & HdD & _ & HsS & (ops & [Hi Hf] & HP) & HQ).
    destruct (decide (cycle_of op = c)) as [Hceq|Hcne].
    + subst c.
      destruct HQ as (Qd & Qs & (ops' & [Hi' Hf'] & HP')); [by rewrite Hd0|done|].
      apply (stuck_extend _ st _ ops' (inflight st0)); try done.
      * by rewrite Qd, Hd0.
      * by rewrite Qs, Hs0.
      * by rewrite Hi', Hi0.
      * by rewrite Hf', Hi0.
      * by eapply kept_handles.
    + apply (stuck_extend c st _ ops (inflight st0)); try done.
      * destruct HdD as [->|(b & r & _ & _ & _ & ->)]; rewrite Hd0; [done|].
        by rewrite list_lookup_insert_ne.
      * destruct HsS as [->| ->]; rewrite Hs0; [done|].
        by rewrite list_lookup_alter_ne.
      * by rewrite Hi, Hi0.
      * by rewrite Hf, Hi0.
      * by eapply kept_handles.
      * eapply Forall_impl; [exact HP|]. intros o [Hco _] Hdr%drives_cycle.
        congruence.
Qed.

Lemma stuck_run (c : nat) (st : state) (evs : list event) :
  stuck c st → stuck c (run st evs).
Proof.
  revert st. induction evs as [|ev evs IH]; intros st Hst; [done|].
  simpl. by apply IH, stuck_step.
Qed.

Lemma waiting_extend (c : nat) (st st' : state) (ops : list io) :
  waiting c st →
  usersDB st' !! c = Some Pending → synced st' !! c = Some Pending →
  issued st' = issued st ++ ops →
  Forall (λ o, ¬ drives c o) ops →
  waiting c st'.
Proof.
  intros (_ & _ & Hu & Hk) Hd Hs Hi Hops. rewrite Forall_forall in Hops.
  split; [done|]. split; [done|]. rewrite Hi. split.
  - intros b [?|Ho]%elem_of_app; [by eapply Hu|].
    apply (Hops _ Ho). right. left. by exists b.
  - intros [?|Ho]%elem_of_app; [done|]. apply (Hops _ Ho). by right; right.
Qed.

Lemma sound_init : sound init.
Proof.
  split; [done|]. split; [by intros h ?%elem_of_nil|]. split; [apply NoDup_nil_2|].
  split; [by intros op ?%elem_of_nil|]. split; [by intros c i j ?|].
  by intros c h ?%elem_of_nil.
Qed.

Lemma sound_tick (now : Z) (st : state) : sound st → sound (tick now st).
Proof.
  intros (HL & HV & HN & HC & HU & HW).
  destruct (Effects.tick_fields now st) as (_ & Hd & _ & _ & Hs & ops & [Hi Hf] & Hops).
  set (c0 := length (synced st)) in *.
  assert (Forall (λ o, cycle_of o = c0) ops) as Hcyc.
  { destruct Hops as [->|[b ->]]; by repeat constructor. }
  rewrite Forall_forall in Hcyc.
  assert (∀ c i, ops !! i = Some (GET_token (FromGetUsersDB c)) →
                 i = 0%nat ∧ c = c0
                 ∧ ops = [GET_token (FromGetUsersDB c0); LDAP_bind c0]) as Hfirst.
  { intros c i Hop. destruct Hops as [->|[b ->]].
    - destruct i as [|[|i]]; simpl in Hop; [|done..]. by injection Hop as <-.
    - by destruct i as [|[|i]]. }
  split; [|split; [|split; [|split; [|split]]]].
  - rewrite Hd, Hs, !length_app. simpl. lia.
  - apply (valid_step st (setInterval_fires now) HV).
  - apply (nodup_step st (setInterval_fires now) HV HN).
  - intros op. rewrite Hi, Hs, length_app. simpl.
    intros [Ho|Ho]%elem_of_app.
    + apply HC in Ho. lia.
    + rewrite (Hcyc _ Ho). lia.
  - intros c i j. rewrite Hi.
    intros [Hi1|[Hi1 Hi2]]%lookup_app_Some [Hj1|[Hj1 Hj2]]%lookup_app_Some.
    + by eapply HU.
    + apply list_elem_of_lookup_2, HC in Hi1. simpl in Hi1.
      apply Hfirst in Hj2 as (_ & -> & _). lia.
    + apply list_elem_of_lookup_2, HC in Hj1. simpl in Hj1.
      apply Hfirst in Hi2 as (_ & -> & _). lia.
    + apply Hfirst in Hi2 as (Hi2 & _). apply Hfirst in Hj2 as (Hj2 & _). lia.
  - intros c h. rewrite Hf, Hi. intros [Hh|Hh]%elem_of_app Hop.
    + pose proof (HV h Hh) as Hlt. rewrite lookup_app_l in Hop by done.
      pose proof (HW c h Hh Hop) as Hw.
      apply list_elem_of_lookup_2, HC in Hop. simpl in Hop.
      apply (waiting_extend c st _ ops Hw); [..|done|].
      * rewrite Hd. apply lookup_app_l_Some. by destruct Hw.
      * rewrite Hs. apply lookup_app_l_Some. by destruct Hw as (_ & ? & _).
      * apply Forall_forall. intros o Ho Hdr%drives_cycle.
        rewrite (Hcyc _ Ho) in Hdr. lia.
    + apply elem_of_seq in Hh. rewrite lookup_app_r in Hop by lia.
      apply Hfirst in Hop as (_ & -> & Hops'). split; [|split; [|split]].
      * rewrite Hd, <- HL. by apply list_lookup_middle.
      * rewrite Hs. by apply list_lookup_middle.
      * intros b. rewrite Hi, Hops'. intros [Ho|Ho]%elem_of_app.
        -- apply HC in Ho. simpl in Ho. unfold c0 in Ho. lia.
        -- apply elem_of_cons in Ho as [?|Ho]; [done|].
           apply elem_of_cons in Ho as [?|Ho]; [done|]. by apply elem_of_nil in Ho.
      * rewrite Hi, Hops'. intros [Ho|Ho]%elem_of_app.
        -- apply HC in Ho. simpl in Ho. unfold c0 in Ho. lia.
        -- apply elem_of_cons in Ho as [?|Ho]; [done|].
           apply elem_of_cons in Ho as [?|Ho]; [done|]. by apply elem_of_nil in Ho.
Qed.

Lemma sound_callback (now : Z) (h : nat) (a : arguments) (st : state) :
  sound st → sound (step st (callback now h a)).
Proof.
  intros Hsound. pose proof Hsound as (HL & HV & HN & HC & HU & HW).
  destruct (Runs.step_cases st now h a)
    as [->|(op & st0 & Hin & Hop & _ & Hd0 & _ & Hs0 & Hi0 & Hf0 & H)]; [done|].
  set (st' := step st (callback now h a)) in *.
  destruct H as (_ & HdD & _ & HsS & (ops & [Hi Hf] & HP) & HQ).
  rewrite Hi0 in Hi, Hf. rewrite Forall_forall in HP.
  assert (length (usersDB st') = length (usersDB st)) as HLd.
  { destruct HdD as [->|(b & r & _ & _ & _ & ->)]; rewrite ?length_insert; congruence. }
  assert (length (synced st') = length (synced st)) as HLs.
  { destruct HsS as [->| ->]; rewrite ?length_alter; congruence. }
  pose proof (list_elem_of_lookup_2 _ _ _ Hop) as Hopin.
  split; [|split; [|split; [|split; [|split]]]].
  - congruence.
  - apply (valid_step st (callback now h a) HV).
  - apply (nodup_step st (callback now h a) HV HN).
  - intros o. rewrite Hi, HLs. intros [Ho|Ho]%elem_of_app; [by apply HC|].
    destruct (HP o Ho) as [-> _]. by apply HC.
  - intros c i j. rewrite Hi.
    intros [Hi1|[_ Hi2]]%lookup_app_Some [Hj1|[_ Hj2]]%lookup_app_Some.
    + by eapply HU.
    + apply list_elem_of_lookup_2, HP in Hj2 as [_ Hj2]. by destruct (Hj2 c).
    + apply list_elem_of_lookup_2, HP in Hi2 as [_ Hi2]. by destruct (Hi2 c).
    + apply list_elem_of_lookup_2, HP in Hi2 as [_ Hi2]. by destruct (Hi2 c).
  - intros c h1. rewrite Hf, Hi. intros [Hh|Hh]%elem_of_app Hop1.
    2: { apply elem_of_seq in Hh. rewrite lookup_app_r in Hop1 by lia.
         apply list_elem_of_lookup_2, HP in Hop1 as [_ Hop1]. by destruct (Hop1 c). }
    pose proof (kept_handles st st0 h op Hf0 h1 Hh) as Hh1.
    pose proof (HV h1 Hh1) as Hlt. rewrite lookup_app_l in Hop1 by done.
    pose proof (HW c h1 Hh1 Hop1) as Hw.
    pose proof Hw as (Hwd & Hws & Hwu & Hwk).
    assert (¬ drives c op) as Hnd.
    { intros [->|[[b ->]| ->]].
      - assert (h = h1) as -> by (by eapply HU).
        destruct Hf0 as [[_ [c' ?]]|Hf0]; [done|].
        rewrite Hf0 in Hh. by apply list_elem_of_filter in Hh as [? _].
      - by destruct (Hwu b).
      - done. }
    destruct (decide (cycle_of op = c)) as [Hceq|Hcne].
    + subst c.
      destruct HQ as (Qd & Qs & (ops' & [Hi' _] & HP')); [by rewrite Hd0|done|].
      apply (waiting_extend _ st _ ops' Hw); try done.
      * by rewrite Qd, Hd0.
      * by rewrite Qs, Hs0.
      * by rewrite Hi', Hi0.
    + apply (waiting_extend c st _ ops Hw); try done.
      * destruct HdD as [->|(b & r & _ & _ & _ & ->)]; rewrite Hd0; [done|].
        by rewrite list_lookup_insert_ne.
      * destruct HsS as [->| ->]; rewrite Hs0; [done|].
        by rewrite list_lookup_alter_ne.
      * apply Forall_forall. intros o Ho Hdr%drives_cycle.
        destruct (HP o Ho) as [Hco _]. congruence.
Qed.

Lemma sound_run (evs : list event) : sound (run init evs).
Proof.
  induction evs as [|ev evs IH] using rev_ind; [apply sound_init|].
  rewrite Runs.run_snoc. destruct ev as [now|now h a].
  - by apply sound_tick.
  - by apply sound_callback.
Qed.

(** When the token request of a datastore read fails, its cycle is
    stuck. *)
Lemma failed_token_request_sticks (st : state) (now : Z) (h c : nat)
    (r : response token_json) :
  sound st → h ∈ inflight st →
  issued st !! h = Some (GET_token (FromGetUsersDB c)) →
  ok r = None →
  stuck c (step st (callback now h (token_response r))).
Proof.
  intros (HL & HV & HN & HC & HU & HW) Hin Hop Hok.
  destruct (HW c h Hin Hop) as (Hwd & Hws & Hwu & Hwk).
  simpl. rewrite (bool_decide_eq_true_2 _ Hin), Hop.
  rewrite (TokenCache.refreshed_failure now r (called h st) Hok). simpl.
  split; [done|]. split; [done|]. split; [by eapply lookup_lt_Some|]. split.
  - intros h' [_ Hh']%list_elem_of_filter. by apply HV.
  - intros h' op [Hne Hh']%list_elem_of_filter Hop' [->|[[b ->]| ->]].
    + apply Hne. by eapply HU.
    + by eapply Hwu, list_elem_of_lookup_2.
    + by eapply Hwk, list_elem_of_lookup_2.
Qed.

(** X9.  Take any run from the start in which the token request of the
    datastore read of a cycle is answered by an error or by a status
    other than 200.  From then on, whatever else happens, the promise of
    that read and the promise of the cycle stay pending, and the cycle
    never sends a creation request: [getUsersDB] waits for a [getToken]
    that never settles. *)
Theorem failed_token_request_strands_the_cycle (evs1 evs2 : list event)
    (h c : nat) (now : Z) (r : response token_json) :
  h ∈ inflight (run init evs1) →
  issued (run init evs1) !! h = Some (GET_token (FromGetUsersDB c)) →
  ok r = None →
  let st' := run init (evs1 ++ callback now h (token_response r) :: evs2) in
  usersDB st' !! c = Some Pending
  ∧ synced st' !! c = Some Pending
  ∧ ∀ b u s, POST_users c b u s ∉ issued st'.
Proof.
  intros Hin Hop Hok st'.
  assert (stuck c st') as (Hd & Hs & _).
  { subst st'. unfold run. rewrite foldl_app. simpl.
    apply stuck_run, failed_token_request_sticks; try done. apply sound_run. }
  split; [done|]. split; [done|]. intros b u s Hpost.
  apply Isolation.creation_needs_both_reads in Hpost as [[o Ho] _].
  fold st' in Ho. congruence.
Qed.

Lemma failed_token_request_strands_the_cycle_witness :
  let tj := {| json_access_token := 123456; json_token_type := "Bearer";
               json_expires_in := 900 |} in
  let st' := run init
    ([ setInterval_fires 1000 ]
     ++ callback 1010 0%nat (token_response (NetError "ECONNREFUSED"))
     :: [ callback 1020 1%nat (bind_result None);
          callback 1030 2%nat (search_result None);
          callback 1040 3%nat (search_emits (searchEntry "bob" (Str "Jones")));
          callback 1050 3%nat (search_emits end_of_results);
          setInterval_fires 31000;
          callback 31010 4%nat (token_response (Reply 200 tj)) ]) in
  usersDB st' !! 0%nat = Some Pending
  ∧ synced st' !! 0%nat = Some Pending
  ∧ ∀ b u s, POST_users 0 b u s ∉ issued st'.
Proof.
  intros tj.
  apply (failed_token_request_strands_the_cycle [ setInterval_fires 1000 ]).
  - vm_compute. apply list_elem_of_In. simpl. tauto.
  - vm_compute. reflexivity.
  - reflexivity.
Defined.

End Progress.

(* ===================================================================== *)
(** ** Refreshing the credential is not single-flight *)
(* ===================================================================== *)

Module Refresh.
Import JS UserSync.

(** Operations are never taken off the list: what a handle names stays
    what it names. *)
Lemma run_issued (st : state) (evs : list event) (h : nat) (op : io) :
  issued st !! h = Some op → issued (run st evs) !! h = Some op.
Proof.
  revert st. induction evs as [|ev evs IH]; intros st Hop; [done|].
  simpl. apply IH.
  destruct (Progress.step_shape st ev) as (ops & _ & -> & _).
  by apply lookup_app_l_Some.
Qed.

(** The continuation of a caller of [getToken] leaves the credential
    alone. *)
Lemma on_token_auth (k : caller) (p : promise token reason) (st : state) :
  auth (on_token k p st) = auth st.
Proof.
  destruct k as [c|c].
  - by destruct (Effects.on_token_db_fields c p st) as (? & _).
  - by destruct (Effects.on_token_sync_compares c p st) as (? & _).
Qed.

(** C5, amended.  Refresh is not single-flight.  When N calls of
    [getToken] are made before any reply and each finds the credential
    absent or expired, every one of them sends its own request to the
    issuing endpoint, N requests in all, each waiting for its callback,
    and the cache is left as it was.  Whenever afterwards the reply to
    one of these requests arrives with status 200, whatever happened in
    between, the caller of that request continues with the token made
    from that reply, stamped with the time of its arrival, and that
    token is then the credential held: a reply overwrites what an
    earlier reply stored, so the cache keeps the token of the reply that
    arrived last. *)
Theorem every_stale_call_refreshes (calls : list (caller * Z)) (st : state) :
  (∀ a, auth st = Some a →
        Forall (λ call, Qle_bool (inject_Z (expires_in a)) (time a call.2) = true) calls) →
  let st1 := getTokens calls st in
  issued st1 = issued st ++ map (λ call, GET_token call.1) calls
  ∧ inflight st1 = inflight st ++ seq (length (issued st)) (length calls)
  ∧ auth st1 = auth st
  ∧ ∀ (i : nat) (call : caller * Z) (evs : list event) (now : Z) (body : token_json),
      calls !! i = Some call →
      let h := (length (issued st) + i)%nat in
      let st2 := run st1 evs in
      let tok := stamped now body in
      h ∈ inflight st2 →
      step st2 (callback now h (token_response (Reply 200 body)))
      = on_token call.1 (Fulfilled tok)
          (with_auth (Some tok)
             (log (Say ("Created token:" +:+ pretty (access_token tok))) (called h st2)))
      ∧ auth (step st2 (callback now h (token_response (Reply 200 body)))) = Some tok.
Proof.
  intros Hstale st1.
  destruct (TokenCache.getTokens_stale calls st Hstale) as (Hi & Hf & Ha).
  do 3 (split; [done|]).
  intros i call evs now body Hcall h st2 tok Hin.
  assert (issued st2 !! h = Some (GET_token call.1)) as Hop.
  { apply run_issued. fold st1 in Hi. rewrite Hi.
    rewrite lookup_app_r by (unfold h; lia).
    replace (h - length (issued st))%nat with i by (unfold h; lia).
    by rewrite list_lookup_fmap, Hcall. }
  assert (step st2 (callback now h (token_response (Reply 200 body)))
          = on_token call.1 (Fulfilled tok)
              (with_auth (Some tok)
                 (log (Say ("Created token:" +:+ pretty (access_token tok)))
                    (called h st2)))) as Hstep.
  { simpl. by rewrite (bool_decide_eq_true_2 _ Hin), Hop. }
  split; [done|]. rewrite Hstep. by rewrite on_token_auth.
Qed.

Lemma every_stale_call_refreshes_witness :
  let a := {| access_token := 100000; token_type := "Bearer";
              expires_in := 900; created := 0 |} in
  let t1 := {| json_access_token := 111111; json_token_type := "Bearer";
               json_expires_in := 900 |} in
  let t2 := {| json_access_token := 222222; json_token_type := "Bearer";
               json_expires_in := 900 |} in
  let calls := [ (FromGetUsersDB 0, 1000000); (FromGetUsersDB 1, 1030000) ] in
  let st1 := getTokens calls (with_auth (Some a) init) in
  let st2 := run st1 [ callback 1030010 1%nat (token_response (Reply 200 t2)) ] in
  let st3 := step st2 (callback 1030020 0%nat (token_response (Reply 200 t1))) in
  issued st1 = [ GET_token (FromGetUsersDB 0); GET_token (FromGetUsersDB 1) ]
  ∧ auth st1 = Some a
  ∧ auth st2 = Some (stamped 1030010 t2)
  ∧ GET_users 1 222222 ∈ issued st2
  ∧ auth st3 = Some (stamped 1030020 t1)
  ∧ GET_users 0 111111 ∈ issued st3.
Proof.
  intros a t1 t2 calls st1 st2 st3.
  destruct (every_stale_call_refreshes calls (with_auth (Some a) init))
    as (Hi & _ & Ha & H).
  { intros a' [= <-]. repeat constructor. }
  split; [exact Hi|]. split; [exact Ha|].
  split; [reflexivity|]. split; [apply list_elem_of_In; simpl; tauto|].
  destruct (H 0%nat (FromGetUsersDB 0, 1000000)
              [ callback 1030010 1%nat (token_response (Reply 200 t2)) ]
              1030020 t1 eq_refl) as [_ Hauth].
  { apply list_elem_of_In. simpl. tauto. }
  split; [exact Hauth|]. apply list_elem_of_In. simpl. tauto.
Defined.

End Refresh.

(* ===================================================================== *)
(** ** A whole cycle *)
(* ===================================================================== *)

Module Cycle.
Import JS UserSync.

(** The [searchEntry] listener only fills the object of its search. *)
Lemma entries_fill_the_object (st : state) (h c : nat)
    (es : list (Z * (string * value))) :
  h ∈ inflight st → issued st !! h = Some (LDAP_results c) →
  run st (entries h es)
  = with_ldapObject
      (alter (λ o, foldl (λ o e, set e.1 e.2 o) o es.*2) c (ldapObject st)) st.
Proof.
  revert st. induction es as [|[now [cn sn]] es IH]; intros st Hin Hop.
  - simpl. rewrite list_alter_id by done. by destruct st.
  - unfold entries in *. simpl.
    rewrite (bool_decide_eq_true_2 _ Hin), Hop. simpl.
    rewrite IH by done. unfold with_ldapObject. simpl.
    by rewrite list_alter_alter_eq.
Qed.

(** When the end of the results arrives last, with both reads then done
    and a fresh credential held, the comparison runs in that callback. *)
Lemma end_of_results_compares (st : state) (h c : nat) (now : Z) (tok : token)
    (db ldap : object) :
  h ∈ inflight st → issued st !! h = Some (LDAP_results c) →
  usersLDAP st !! c = Some Pending →
  usersDB st !! c = Some (Fulfilled db) →
  ldapObject st !! c = Some ldap →
  auth st = Some tok →
  Qle_bool (inject_Z (expires_in tok)) (time tok now) = false →
  let st' := step st (callback now h (search_emits end_of_results)) in
  issued st' = issued st ++ map (create c tok ldap) (new_users db ldap)
  ∧ inflight st' = inflight st ++ seq (length (issued st)) (length (new_users db ldap))
  ∧ synced st' = alter (λ p, settle p (Fulfilled true)) c (synced st)
  ∧ auth st' = Some tok.
Proof.
  intros Hin Hop HL HD HO Ha Hfresh st'. subst st'. unfold step.
  rewrite (bool_decide_eq_true_2 _ Hin), Hop. unfold res_on, settle_usersLDAP.
  simpl. rewrite HL. unfold all. simpl. rewrite HD.
  rewrite list_lookup_insert_eq by (by eapply lookup_lt_Some). simpl.
  erewrite Reconciliation.syncUsers_fresh by done.
  match goal with |- context [syncUsers_then c tok ?s] =>
    destruct (Reconciliation.syncUsers_then_read c tok s db ldap)
      as (Hi & Hf & Hs & Hau & _) end.
  { unfold values0. simpl. by rewrite HD. }
  { unfold values1. simpl.
    by rewrite list_lookup_insert_eq by (by eapply lookup_lt_Some). }
  simpl in *. by rewrite Hi, Hf, Hs, Hau.
Qed.

(** X10.  The first cycle when everything succeeds: the token comes,
    then the list of the datastore, the bind and the search succeed, the
    entries come in and the results end while the token is still fresh.
    The cycle has then sent, after its five reads, exactly one creation
    request per directory key that [new_users] finds missing, in the
    order in which [Object.keys] lists the keys of the directory object
    (array indices ascending, then the other names in order of
    creation), each with the surname of the directory and the bearer of
    the token; these requests and the results listener are
    what is in flight, the promise of the cycle is fulfilled with
    [true], and the token is the credential held. *)
Theorem first_cycle_creates_the_missing_users (t0 t1 t2 t3 t4 t5 : Z)
    (body : token_json) (jsonBody : list user_json)
    (es : list (Z * (string * value))) :
  Z.abs (t1 - t5) < 1000 * json_expires_in body →
  let tok := stamped t1 body in
  let db := usersDB_of jsonBody in
  let ldap := usersLDAP_of es.*2 in
  let st := run init
    ([ setInterval_fires t0;
       callback t1 0%nat (token_response (Reply 200 body));
       callback t2 2%nat (users_response (Reply 200 jsonBody));
       callback t3 1%nat (bind_result None);
       callback t4 3%nat (search_result None) ]
     ++ entries 4 es
     ++ [ callback t5 4%nat (search_emits end_of_results) ]) in
  issued st
  = [ GET_token (FromGetUsersDB 0); LDAP_bind 0;
      GET_users 0 (json_access_token body); LDAP_search 0; LDAP_results 0 ]
    ++ map (create 0 tok ldap) (new_users db ldap)
  ∧ inflight st = 4%nat :: seq 5 (length (new_users db ldap))
  ∧ synced st = [ Fulfilled true ]
  ∧ auth st = Some tok.
Proof.
  intros Hfresh tok db ldap st. subst st. unfold run.
  rewrite !foldl_app.
  match goal with |- context [foldl step (foldl step init ?l) (entries _ _)] =>
    set (st5 := foldl step init l) end.
  assert (issued st5 = [ GET_token (FromGetUsersDB 0); LDAP_bind 0;
                         GET_users 0 (json_access_token body); LDAP_search 0;
                         LDAP_results 0 ]) as Hi5 by reflexivity.
  assert (inflight st5 = [ 4%nat ]) as Hf5 by reflexivity.
  assert (usersDB st5 = [ Fulfilled db ]) as Hd5 by reflexivity.
  assert (usersLDAP st5 = [ Pending ]) as Hl5 by reflexivity.
  assert (ldapObject st5 = [ ∅ ]) as Ho5 by reflexivity.
  assert (synced st5 = [ Pending ]) as Hs5 by reflexivity.
  assert (auth st5 = Some tok) as Ha5 by reflexivity.
  fold (run st5 (entries 4 es)).
  rewrite (entries_fill_the_object st5 4 0)
    by (by rewrite ?Hf5, ?Hi5; try apply list_elem_of_here).
  set (st6 := with_ldapObject _ st5).
  change (foldl step st6 [callback t5 4 (search_emits end_of_results)])
    with (step st6 (callback t5 4 (search_emits end_of_results))).
  destruct (end_of_results_compares st6 4 0 t5 tok db ldap)
    as (Hi & Hf & Hs & Ha).
  - change (inflight st6) with (inflight st5). rewrite Hf5. apply list_elem_of_here.
  - change (issued st6) with (issued st5). by rewrite Hi5.
  - change (usersLDAP st6) with (usersLDAP st5). by rewrite Hl5.
  - change (usersDB st6) with (usersDB st5). by rewrite Hd5.
  - reflexivity.
  - done.
  - destruct (Qle_bool _ _) eqn:E; [|done].
    apply TokenCache.time_ge in E. simpl in E. lia.
  - change (issued st6) with (issued st5) in Hi, Hf.
    change (inflight st6) with (inflight st5) in Hf.
    change (synced st6) with (synced st5) in Hs.
    rewrite Hi, Hf, Hs, Ha, Hi5, Hf5, Hs5. done.
Qed.

Lemma first_cycle_creates_the_missing_users_witness :
  let body := {| json_access_token := 123456; json_token_type := "Bearer";
                 json_expires_in := 900 |} in
  let st := run init
    ([ setInterval_fires 1000;
       callback 1010 0%nat (token_response (Reply 200 body));
       callback 1020 2%nat
         (users_response (Reply 200 [ {| username := "alice"; surname := Str "Smith" |} ]));
       callback 1030 1%nat (bind_result None);
       callback 1040 3%nat (search_result None) ]
     ++ entries 4 [ (1050, ("zed"%string, Str "Young"));
                    (1051, ("alice"%string, Str "Smith"));
                    (1052, ("amy"%string, Str "Jones"));
                    (1053, ("zed"%string, Str "Old")) ]
     ++ [ callback 1060 4%nat (search_emits end_of_results) ]) in
  issued st
  = [ GET_token (FromGetUsersDB 0); LDAP_bind 0; GET_users 0 123456;
      LDAP_search 0; LDAP_results 0;
      POST_users 0 123456 "zed" (Str "Old"); POST_users 0 123456 "amy" (Str "Jones") ]
  ∧ inflight st = [ 4%nat; 5%nat; 6%nat ]
  ∧ synced st = [ Fulfilled true ]
  ∧ auth st = Some {| access_token := 123456; token_type := "Bearer";
                      expires_in := 900; created := 1010 |}.
Proof.
  intros body.
  apply (first_cycle_creates_the_missing_users 1000 1010 1020 1030 1040 1060 body
           [ {| username := "alice"; surname := Str "Smith" |} ]
           [ (1050, ("zed"%string, Str "Young"));
             (1051, ("alice"%string, Str "Smith"));
             (1052, ("amy"%string, Str "Jones"));
             (1053, ("zed"%string, Str "Old")) ]).
  simpl. lia.
Defined.

End Cycle.

(* ===================================================================== *)
(** ** The server along its requests (server.js) *)
(* ===================================================================== *)

Module Service.
Import JS SyncAPI.

(** [tokens[token]] followed by the expiry test succeeds exactly on a
    stored token whose [expires_in] is still ahead. *)
Lemma authorized_stored (tokens : gmap string token) (authorization : option string)
    (now : Z) :
  authorized tokens authorization now = true
  ↔ ∃ t, tokens !! default "undefined"%string authorization = Some t
         ∧ now < expires_in t.
Proof.
  unfold authorized, lookup.
  destruct (tokens !! default "undefined"%string authorization) as [t|].
  - rewrite bool_decide_eq_true. split; [by exists t|]. by intros (? & [= <-] & ?).
  - split; [by case_bool_decide|]. by intros (? & [=] & _).
Qed.

Lemma handle_users (st : state) (rq : request) :
  users (handle st rq).1 = users st
  ∨ ∃ u, complete u ∧ users (handle st rq).1 = users st ++ [u].
Proof.
  destruct rq as [a now random|a now|a u s now stamp|clock]; simpl.
  - unfold get_token. case_bool_decide; by left.
  - unfold get_users. destruct (authorized _ _ _); by left.
  - unfold post_users. destruct (authorized _ _ _); [|by left].
    destruct (truthy u) eqn:Eu, (truthy s) eqn:Es; simpl; try by left.
    right. by eexists {| username := u |}.
  - by left.
Qed.

Lemma handle_tokens (st : state) (rq : request) :
  map_Forall (λ k t, k = key_of t ∧ token_type t = "Bearer"%string) (tokens st) →
  map_Forall (λ k t, k = key_of t ∧ token_type t = "Bearer"%string)
    (tokens (handle st rq).1).
Proof.
  intros Hst.
  destruct rq as [a now random|a now|a u s now stamp|clock]; simpl.
  - unfold get_token. case_bool_decide; [|done]. simpl.
    apply map_Forall_insert_2; [done|done].
  - unfold get_users. by destruct (authorized _ _ _).
  - unfold post_users. destruct (authorized _ _ _); [|done].
    by destruct (truthy u), (truthy s).
  - intros k t [Hk _]%map_lookup_filter_Some. by apply Hst.
Qed.

Lemma serve_snoc (st : state) (rqs : list request) (rq : request) :
  serve st (rqs ++ [rq]) = (handle (serve st rqs) rq).1.
Proof. unfold serve. by rewrite foldl_app. Qed.

(** X11.  A token the issuing route has just handed out opens the list
    route until its expiry and not after: presented as
    [token_type + ' ' + access_token] at time [now'], it gets the users
    when [now'] is before the instant of issue plus [expiration], and
    the error message otherwise. *)
Theorem issued_token_lists_users_until_expiry (now random now' : Z) (st : state) :
  let t := {| expires_in := now + expiration; access_token := random + 100000;
              token_type := "Bearer" |} in
  let reply := get_token (Some "Basic base64"%string) now random st in
  sent reply.2 = Some (the_token t)
  ∧ users reply.1 = users st
  ∧ sent (get_users (Some (key_of t)) now' reply.1).2
    = Some (if bool_decide (now' < now + expiration)
            then the_users (users st) else the_error "Unauthorized!").
Proof.
  intros t reply. subst reply. unfold get_token.
  rewrite bool_decide_eq_true_2 by done. simpl.
  split; [done|]. split; [done|].
  unfold get_users, authorized, lookup. simpl.
  fold t. change (token_type t +:+ " " +:+ pretty (access_token t)) with (key_of t).
  rewrite lookup_insert_eq. simpl. by case_bool_decide.
Qed.

(** X12.  A pass of the sweep whose clock readings are not later than
    [now] leaves no token that is accepted at [now] or after: what it
    keeps has [expires_in] at or before the reading.  Every credential
    that was still valid is revoked by the pass. *)
Theorem sweep_revokes_every_valid_token (clock : string → Z) (st : state)
    (authorization : option string) (now : Z) :
  (∀ i, clock i ≤ now) →
  authorized (tokens (sweep clock st)) authorization now = false.
Proof.
  intros Hclock. apply not_true_is_false.
  intros (t & [Ht Hexp]%map_lookup_filter_Some & Hnow)%authorized_stored.
  simpl in Hexp. specialize (Hclock (default "undefined"%string authorization)). lia.
Qed.

Lemma sweep_revokes_every_valid_token_witness :
  let st := (get_token (Some "Basic base64"%string) 0 23456 (init 0)).1 in
  authorized (tokens st) (Some "Bearer 123456"%string) 900000 = false
  ∧ authorized (tokens st) (Some "Bearer 123456"%string) 899999 = true
  ∧ authorized (tokens (sweep (λ _, 600000) st)) (Some "Bearer 123456"%string) 899999
    = false.
Proof.
  intros st. split; [reflexivity|]. split; [reflexivity|].
  apply (sweep_revokes_every_valid_token (λ _, 600000) st). intros _. lia.
Defined.

(** X13.  Whatever requests and timer firings the server goes through,
    every record of [users] has a truthy [username] and a truthy
    [surname]: the record it starts with has, and [POST /users] stores
    a record only when both fields pass its test. *)
Theorem stored_users_are_complete (t0 : Z) (rqs : list request) :
  Forall complete (users (serve (init t0) rqs)).
Proof.
  induction rqs as [|rq rqs IH] using rev_ind.
  - by repeat constructor.
  - rewrite serve_snoc.
    destruct (handle_users (serve (init t0) rqs) rq) as [->|(u & Hu & ->)]; [done|].
    apply Forall_app. split; [done|]. by constructor.
Qed.

(** X14.  The server never removes or changes a user: the list of any
    later state starts with the list of the earlier one.  No route
    deletes, and the sweep touches tokens only. *)
Theorem users_are_never_removed (st : state) (rqs : list request) :
  users st `prefix_of` users (serve st rqs).
Proof.
  induction rqs as [|rq rqs IH] using rev_ind; [done|].
  rewrite serve_snoc.
  destruct (handle_users (serve st rqs) rq) as [->|(u & _ & ->)]; [done|].
  by apply prefix_app_r.
Qed.

(** X15.  [POST /users] appends without looking for the username: a
    user posted twice under a valid token, with both fields truthy, is
    stored twice, the two records differing in their stamp only. *)
Theorem post_users_stores_a_username_twice (authorization : option string)
    (u s : value) (now stamp now' stamp' : Z) (st : state) :
  authorized (tokens st) authorization now = true →
  authorized (tokens st) authorization now' = true →
  truthy u = true → truthy s = true →
  let st1 := (post_users authorization u s now stamp st).1 in
  users (post_users authorization u s now' stamp' st1).1
  = users st ++ [ {| username := u; surname := s; last_modified := stamp |};
                  {| username := u; surname := s; last_modified := stamp' |} ].
Proof.
  intros Ha Ha' Hu Hs st1. subst st1.
  unfold post_users. rewrite Ha, Hu, Hs. simpl. rewrite Ha'. simpl.
  by rewrite <- app_assoc.
Qed.

Lemma post_users_stores_a_username_twice_witness :
  let st := (get_token (Some "Basic base64"%string) 0 23456 (init 0)).1 in
  let st1 := (post_users (Some "Bearer 123456"%string) (Str "bob") (Str "Jones")
                1000 1000 st).1 in
  users (post_users (Some "Bearer 123456"%string) (Str "bob") (Str "Jones")
           31000 31000 st1).1
  = users st ++ [ {| username := Str "bob"; surname := Str "Jones"; last_modified := 1000 |};
                  {| username := Str "bob"; surname := Str "Jones"; last_modified := 31000 |} ].
Proof.
  intros st.
  apply (post_users_stores_a_username_twice (Some "Bearer 123456"%string)
           (Str "bob") (Str "Jones") 1000 1000 31000 31000 st); reflexivity.
Defined.

(** X16.  A request answers once, and the status code of the answer is
    the 200 a response object starts with: the number the route means
    (200, 201, 400 or 401) goes to the property [status].  When that
    number is 400 or 401 the request has changed nothing. *)
Theorem every_reply_leaves_with_status_200 (st : state) (rq : request) (r : res) :
  (handle st rq).2 = Some r →
  statusCode r = 200
  ∧ ∃ n body, status r = status_number n ∧ sent r = Some body
              ∧ n ∈ [200; 201; 400; 401]
              ∧ (n = 400 ∨ n = 401 → (handle st rq).1 = st).
Proof.
  destruct rq as [a now random|a now|a u s now stamp|clock]; simpl; [| | |done].
  - unfold get_token. case_bool_decide; intros [= <-]; simpl;
      (split; [done|]); eexists _, _; (do 2 (split; [done|])).
    + split; [set_solver|]. intros [?|?]; lia.
    + split; [set_solver|]. done.
  - unfold get_users. destruct (authorized _ _ _); intros [= <-]; simpl;
      (split; [done|]); eexists _, _; (do 2 (split; [done|])).
    + split; [set_solver|]. done.
    + split; [set_solver|]. done.
  - unfold post_users. destruct (authorized _ _ _).
    + destruct (truthy u), (truthy s); simpl; intros [= <-]; simpl;
        (split; [done|]); eexists _, _; (do 2 (split; [done|]));
        (split; [set_solver|]); try done.
      intros [?|?]; lia.
    + intros [= <-]. simpl. split; [done|]. eexists _, _.
      do 2 (split; [done|]). split; [set_solver|]. done.
Qed.

Lemma every_reply_leaves_with_status_200_witness :
  statusCode (get_users None 1000 (init 0)).2 = 200
  ∧ ∃ n body, status (get_users None 1000 (init 0)).2 = status_number n
              ∧ sent (get_users None 1000 (init 0)).2 = Some body
              ∧ n ∈ [200; 201; 400; 401]
              ∧ (n = 400 ∨ n = 401 → (handle (init 0) (list_request None 1000)).1 = init 0).
Proof.
  apply (every_reply_leaves_with_status_200 (init 0) (list_request None 1000)).
  reflexivity.
Defined.

(** X17.  In every state the server reaches, the list and the creation
    route accept an Authorization header only when it is the key of a
    token of the table, [Bearer] followed by the access token, that the
    issuing route stored and whose expiry is still ahead.  A request
    without the header, or with a name [Object.prototype] provides, is
    refused. *)
Theorem authorized_needs_an_issued_token (t0 : Z) (rqs : list request)
    (authorization : option string) (now : Z) :
  authorized (tokens (serve (init t0) rqs)) authorization now = true →
  ∃ t, authorization = Some ("Bearer " +:+ pretty (access_token t))
       ∧ tokens (serve (init t0) rqs) !! ("Bearer " +:+ pretty (access_token t)) = Some t
       ∧ token_type t = "Bearer"%string
       ∧ now < expires_in t.
Proof.
  assert (map_Forall (λ k t, k = key_of t ∧ token_type t = "Bearer"%string)
            (tokens (serve (init t0) rqs))) as Hinv.
  { induction rqs as [|rq rqs IH] using rev_ind; [by apply map_Forall_empty|].
    rewrite serve_snoc. by apply handle_tokens. }
  intros (t & Ht & Hnow)%authorized_stored.
  destruct (Hinv _ _ Ht) as [Hk Hb].
  assert (key_of t = "Bearer " +:+ pretty (access_token t)) as Hkey
    by (unfold key_of; by rewrite Hb).
  rewrite Hkey in Hk. exists t. rewrite <- Hk. split; [|done].
  destruct authorization as [a|]; simpl in *; [done|].
  exfalso. revert Hk. by destruct (pretty (access_token t)).
Qed.

Lemma authorized_needs_an_issued_token_witness :
  ∃ t, Some "Bearer 123456"%string = Some ("Bearer " +:+ pretty (access_token t))
       ∧ tokens (serve (init 0) [ token_request (Some "Basic base64"%string) 0 23456 ])
           !! ("Bearer " +:+ pretty (access_token t)) = Some t
       ∧ token_type t = "Bearer"%string
       ∧ 1000 < expires_in t.
Proof.
  apply (authorized_needs_an_issued_token 0
           [ token_request (Some "Basic base64"%string) 0 23456 ]
           (Some "Bearer 123456"%string) 1000).
  reflexivity.
Defined.

End Service.

(* ===================================================================== *)
(** ** The client against the server *)
(* ===================================================================== *)

Module Interplay.
Import JS UserSync.

(** X18.  The server reports in [expires_in] the instant of expiry in
    milliseconds, and [getToken] reads the field as a number of seconds
    to compare with the absolute value of the age.  Take a token the
    server issued at [issue] and the client stamped at [created], and a
    time [now] at or after the expiry whose distance from the stamp, in
    milliseconds, is below 1000 times that instant: the server refuses
    the token, and [getToken] is fulfilled with it at once, without a
    request. *)
Theorem getToken_hands_out_what_the_server_refuses (k : caller)
    (issue random created now : Z) (st : state) (sv : SyncAPI.state) :
  Z.abs (created - now) < 1000 * (issue + SyncAPI.expiration) →
  issue + SyncAPI.expiration ≤ now →
  let reply := SyncAPI.get_token (Some "Basic base64"%string) issue random sv in
  let t := {| SyncAPI.expires_in := issue + SyncAPI.expiration;
              SyncAPI.access_token := random + 100000;
              SyncAPI.token_type := "Bearer" |} in
  let a := stamped created
             {| json_access_token := SyncAPI.access_token t;
                json_token_type := SyncAPI.token_type t;
                json_expires_in := SyncAPI.expires_in t |} in
  SyncAPI.sent reply.2 = Some (SyncAPI.the_token t)
  ∧ SyncAPI.authorized (SyncAPI.tokens reply.1) (Some (SyncAPI.key_of t)) now = false
  ∧ getToken k now (with_auth (Some a) st)
    = (log (Say "Getting token") (with_auth (Some a) st), Fulfilled a).
Proof.
  intros Hage Hexp reply t a. subst reply. unfold SyncAPI.get_token.
  rewrite bool_decide_eq_true_2 by done. simpl. split; [done|]. split.
  - unfold SyncAPI.authorized, SyncAPI.lookup. simpl.
    change (SyncAPI.token_type t +:+ " " +:+ pretty (SyncAPI.access_token t))
      with (SyncAPI.key_of t).
    fold t. rewrite lookup_insert_eq. simpl. apply bool_decide_eq_false_2. lia.
  - rewrite (TokenCache.getToken_held k now _ a) by done.
    destruct (Qle_bool _ _) eqn:E; [|done].
    apply TokenCache.time_ge in E. simpl in E. lia.
Qed.

Lemma getToken_hands_out_what_the_server_refuses_witness :
  let a := {| access_token := 123456; token_type := "Bearer";
              expires_in := 1700000900000; created := 1700000000005 |} in
  SyncAPI.authorized
    (SyncAPI.tokens (SyncAPI.get_token (Some "Basic base64"%string) 1700000000000 23456
                       (SyncAPI.init 0)).1)
    (Some "Bearer 123456"%string) 1700086400000 = false
  ∧ getToken (FromGetUsersDB 0) 1700086400000 (with_auth (Some a) init)
    = (log (Say "Getting token") (with_auth (Some a) init), Fulfilled a).
Proof.
  intros a.
  destruct (getToken_hands_out_what_the_server_refuses (FromGetUsersDB 0)
              1700000000000 23456 1700000000005 1700086400000 init (SyncAPI.init 0))
    as (_ & H1 & H2); [unfold SyncAPI.expiration; lia..|].
  split; [exact H1 | exact H2].
Defined.

(** X19.  The creation callback of [syncUsers] takes a reply for a
    success when there is no error and the status code is 200, and the
    server answers [POST /users] with the status code 200 whatever it
    did.  So whatever the server's answer to a creation request, stored,
    refused for a missing field or refused for its token, the client
    prints that the user was added, and prints nothing else. *)
Theorem refused_creation_is_reported_as_added (authorization : option string)
    (u s : value) (now stamp : Z) (sv : SyncAPI.state) (objectKey : string)
    (st : state) :
  let reply := (SyncAPI.post_users authorization u s now stamp sv).2 in
  create_callback objectKey (Reply (SyncAPI.statusCode reply) ()) st
  = log (Say ("Added " +:+ objectKey +:+ " to DB")) st.
Proof.
  intros reply. subst reply. unfold SyncAPI.post_users.
  destruct (SyncAPI.authorized _ _ _); [|done].
  by destruct (truthy u), (truthy s).
Qed.

End Interplay.

(* ===================================================================== *)
(** ** The comparison waits for the two reads *)
(* ===================================================================== *)

Module Barrier.
Import JS UserSync.

Lemma ordered_refl (st : state) : ordered st st.
Proof. split; auto. Qed.

Lemma ordered_same (st st' : state) :
  issued st' = issued st → synced st' = synced st → ordered st st'.
Proof. intros Hi Hs. unfold ordered. rewrite Hi, Hs. split; auto. Qed.

Lemma ordered_started (st st' : state) (ops : list io) :
  issued st' = issued st ++ ops → synced st' = synced st →
  (∀ c, GET_token (FromSyncUsers c) ∉ ops) →
  ordered st st'.
Proof.
  intros Hi Hs Hops. unfold ordered. rewrite Hi, Hs. split; [|auto].
  intros c [H|H]%elem_of_app; [by left|]. by destruct (Hops c).
Qed.

Lemma both_settled_follows (c : nat) (st st' : state) :
  follows st st' → both_settled c st → both_settled c st'.
Proof.
  intros (D & L & _) [(p & Hp & Hpn) (q & Hq & Hqn)]. split.
  - exists p. split; [by apply D|done].
  - exists q. split; [by apply L|done].
Qed.

Lemma both_settled_same (c : nat) (st st' : state) :
  usersDB st' = usersDB st → usersLDAP st' = usersLDAP st →
  both_settled c st → both_settled c st'.
Proof. intros Hd Hl. unfold both_settled. by rewrite Hd, Hl. Qed.

Lemma ordered_trans (st1 st2 st3 : state) :
  ordered st1 st2 → follows st2 st3 → ordered st2 st3 → ordered st1 st3.
Proof.
  intros [T1 S1] F [T2 S2].
  assert (∀ c, GET_token (FromSyncUsers c) ∈ issued st2 ∨ both_settled c st3 →
               GET_token (FromSyncUsers c) ∈ issued st1 ∨ both_settled c st3) as HT.
  { intros c [H|H]; [|by right].
    destruct (T1 c H) as [H1|H1]; [by left|]. right.
    by apply (both_settled_follows c st2). }
  split.
  - intros c H. apply HT. destruct (T2 c H); auto.
  - intros c v H. destruct (S2 c v H) as [H2|[HL H2]].
    + destruct (S1 c v H2) as [H1|[HL H1]]; [by left|]. right. split.
      * destruct F as (_ & L & _). by apply L.
      * destruct H1 as [H1|H1]; [by left|]. right.
        by apply (both_settled_follows c st2).
    + right. split; [done|]. by apply HT.
Qed.

Lemma getToken_ordered (k : caller) (now : Z) (st : state) :
  (∀ c, k = FromSyncUsers c → both_settled c st) →
  ordered st (getToken k now st).1.
Proof.
  intros Hk. destruct (Effects.getToken_fields k now st) as (_ & Hd & Hl & _ & Hs & _).
  pose proof (TokenCache.getToken_issued k now st) as Hi.
  unfold ordered. rewrite Hi, Hs. split; [|auto].
  intros c [H|H]%elem_of_app; [by left|]. right.
  destruct (getToken k now st).2; try by apply elem_of_nil in H.
  apply list_elem_of_singleton in H as [= <-].
  apply (both_settled_same c st); [done..|]. by apply Hk.
Qed.

(** [syncUsers] fulfils the promise of its cycle only when the directory
    read was fulfilled. *)
Lemma syncUsers_then_synced (c : nat) (tok : token) (st : state) :
  synced (syncUsers_then c tok st) = synced st
  ∨ usersLDAP st !! c = Some (Fulfilled ()).
Proof.
  destruct (values1 c st) as [ldap|] eqn:E1.
  - right. by eapply Isolation.values1_fulfilled.
  - left. unfold syncUsers_then. by rewrite E1.
Qed.

Lemma syncUsers_then_ordered (c : nat) (tok : token) (st : state) :
  GET_token (FromSyncUsers c) ∈ issued st ∨ both_settled c st →
  ordered st (syncUsers_then c tok st).
Proof.
  intros Hc.
  destruct (Effects.syncUsers_then_compares c tok st)
    as (_ & Hd & Hl & _ & Hs & (ops & [Hi _] & Hops)).
  assert (GET_token (FromSyncUsers c) ∈ issued st
          ∨ both_settled c (syncUsers_then c tok st)) as Hc'.
  { destruct Hc as [?|?]; [by left|right]. by apply (both_settled_same c st). }
  split.
  - intros c'. rewrite Hi. intros [H|H]%elem_of_app; [by left|].
    rewrite Forall_forall in Hops.
    destruct (Hops _ H) as [[= ->]|(b & u & s & [=])]. done.
  - intros c' v H. destruct Hs as [Hs|Hs]; rewrite Hs in H; [by left|].
    destruct (decide (c' = c)) as [->|Hne].
    + destruct (syncUsers_then_synced c tok st) as [Hs'|HL].
      * left. by rewrite <- Hs', Hs.
      * right. by rewrite Hl.
    + left. by rewrite list_lookup_alter_ne in H.
Qed.

Lemma on_token_ordered (k : caller) (p : promise token reason) (st : state) :
  (∀ c, k = FromSyncUsers c →
        GET_token (FromSyncUsers c) ∈ issued st ∨ both_settled c st) →
  ordered st (on_token k p st).
Proof.
  intros Hk. destruct p as [|tok|e]; simpl.
  - apply ordered_refl.
  - destruct k as [c|c].
    + apply (ordered_started _ _ [GET_users c (access_token tok)]); try done.
      intros c' [=]%list_elem_of_singleton.
    + apply syncUsers_then_ordered. by apply Hk.
  - by apply ordered_same.
Qed.

Lemma syncUsers_ordered (c : nat) (now : Z) (st : state) :
  both_settled c st → ordered st (syncUsers c now st).
Proof.
  intros Hc. unfold syncUsers.
  set (st1 := log (Say "Determining new users...") st).
  pose proof (getToken_ordered (FromSyncUsers c) now st1) as G.
  pose proof (Isolation.getToken_follows (FromSyncUsers c) now st1) as F.
  destruct (getToken _ _ _) as [st' p]. simpl in G, F.
  assert (both_settled c st1) as Hc1 by done.
  apply (ordered_trans _ st'); [|apply Isolation.on_token_follows|].
  - apply (ordered_trans _ st1); [by apply ordered_same|done|].
    apply G. by intros c' [= <-].
  - apply on_token_ordered. intros c' [= <-]. right.
    by apply (both_settled_follows c st1).
Qed.

Lemma all_ordered (c : nat) (now : Z) (st : state) : ordered st (all c now st).
Proof.
  unfold all. destruct (usersDB st !! c) as [p|] eqn:Ed; [|apply ordered_refl].
  destruct (usersLDAP st !! c) as [q|] eqn:El; [|apply ordered_refl].
  destruct (settled p && settled q) eqn:E; [|apply ordered_refl].
  apply andb_true_iff in E as [Ep Eq].
  apply syncUsers_ordered. split.
  - exists p. split; [done|]. by intros ->.
  - exists q. split; [done|]. by intros ->.
Qed.

Lemma settle_usersDB_ordered (c : nat) (p : promise object reason)
    (now : Z) (st : state) :
  ordered st (settle_usersDB c p now st).
Proof.
  unfold settle_usersDB.
  destruct (usersDB st !! c) as [[| |]|] eqn:E; try apply ordered_refl.
  eapply ordered_trans; [|apply Isolation.all_follows|apply all_ordered].
  destruct p; by apply ordered_same.
Qed.

Lemma settle_usersLDAP_ordered (c : nat) (p : promise unit reason)
    (now : Z) (st : state) :
  ordered st (settle_usersLDAP c p now st).
Proof.
  unfold settle_usersLDAP.
  destruct (usersLDAP st !! c) as [[| |]|] eqn:E; try apply ordered_refl.
  eapply ordered_trans; [|apply Isolation.all_follows|apply all_ordered].
  destruct p; by apply ordered_same.
Qed.

Lemma tick_ordered (now : Z) (st : state) : ordered st (tick now st).
Proof.
  destruct (Effects.tick_fields now st)
    as (_ & _ & _ & _ & Hs & (ops & [Hi _] & Hops)).
  simpl in *. split.
  - intros c. rewrite Hi. intros [H|H]%elem_of_app; [by left|].
    destruct Hops as [->|[b ->]];
      repeat (apply elem_of_cons in H as [H|H]; [discriminate H|]);
      by apply elem_of_nil in H.
  - intros c v. rewrite Hs. intros [H|[_ H]]%lookup_app_Some; [by left|].
    by apply list_lookup_singleton_Some in H as [_ [=]].
Qed.

Lemma step_ordered (st : state) (ev : event) : ordered st (step st ev).
Proof.
  destruct ev as [now|now h a]; simpl; [apply tick_ordered|].
  destruct (bool_decide (h ∈ inflight st)); [|apply ordered_refl].
  destruct (issued st !! h) as [op|] eqn:Hop; [|apply ordered_refl].
  destruct op as [k|c b|c|c|c|c b u s], a as [r|r|r|err|err|e];
    try apply ordered_refl.
  - destruct (Effects.refreshed_fields now r (called h st))
      as (_ & _ & _ & Hs & Hi & _).
    pose proof (Isolation.refreshed_follows now r (called h st)) as F.
    destruct (refreshed now r (called h st)) as [st' q]. simpl in *.
    eapply ordered_trans; [|apply Isolation.on_token_follows|].
    + by apply ordered_same.
    + apply on_token_ordered. intros c ->. left. rewrite Hi.
      by eapply list_elem_of_lookup_2.
  - unfold getUsersDB_callback.
    destruct (ok r);
      (eapply ordered_trans;
       [|apply Isolation.settle_usersDB_follows|apply settle_usersDB_ordered]);
      by apply ordered_same.
  - unfold bind_callback. destruct err.
    + eapply ordered_trans;
        [|apply Isolation.settle_usersLDAP_follows|apply settle_usersLDAP_ordered].
      by apply ordered_same.
    + apply (ordered_started _ _ [LDAP_search c]); try done.
      intros c' [=]%list_elem_of_singleton.
  - unfold search_callback. destruct err.
    + eapply ordered_trans;
        [|apply Isolation.settle_usersLDAP_follows|apply settle_usersLDAP_ordered].
      by apply ordered_same.
    + apply (ordered_started _ _ [LDAP_results c]); try done.
      intros c' [=]%list_elem_of_singleton.
  - unfold res_on. destruct e; [by apply ordered_same| |];
      (eapply ordered_trans;
       [|apply Isolation.settle_usersLDAP_follows|apply settle_usersLDAP_ordered]);
      by apply ordered_same.
  - unfold create_callback. destruct (ok r); by apply ordered_same.
Qed.

Lemma run_ordered (st : state) (evs : list event) : ordered st (run st evs).
Proof.
  revert st. induction evs as [|ev evs IH]; intros st; [apply ordered_refl|].
  simpl. eapply ordered_trans; [apply step_ordered|apply Isolation.run_follows|apply IH].
Qed.

(** Along a run from the start a cycle promise is fulfilled only after
    the directory read has succeeded and both reads are settled. *)
Lemma fulfilled_after_reads (evs : list event) (c : nat) (v : bool) :
  synced (run init evs) !! c = Some (Fulfilled v) →
  usersLDAP (run init evs) !! c = Some (Fulfilled ())
  ∧ both_settled c (run init evs).
Proof.
  intros H. destruct (run_ordered init evs) as [T S].
  destruct (S c v H) as [H'|[HL [H'|H']]]; [done| |done].
  by apply elem_of_nil in H'.
Qed.

(** X20.  [Promise.all] holds the comparison back until both reads are
    settled.  Along every run from the start, the token request of the
    [syncUsers] of a cycle is sent only when the promise of its
    datastore read and the promise of its directory read are both
    settled; and when the promise of a cycle is fulfilled, the directory
    read of that cycle was fulfilled and its datastore read is settled,
    fulfilled or rejected. *)
Theorem syncUsers_waits_for_both_reads (evs : list event) (c : nat) :
  (GET_token (FromSyncUsers c) ∈ issued (run init evs) →
   both_settled c (run init evs))
  ∧ (∀ v, synced (run init evs) !! c = Some (Fulfilled v) →
          usersLDAP (run init evs) !! c = Some (Fulfilled ())
          ∧ ∃ p, usersDB (run init evs) !! c = Some p ∧ p ≠ Pending).
Proof.
  split.
  - intros H. destruct (run_ordered init evs) as [T _].
    destruct (T c H) as [H'|H']; [|done]. by apply elem_of_nil in H'.
  - intros v H. by destruct (fulfilled_after_reads evs c v H) as [HL [HD _]].
Qed.

Lemma syncUsers_waits_for_both_reads_witness :
  let tj := {| json_access_token := 123456; json_token_type := "Bearer";
               json_expires_in := 900 |} in
  let st := run init
    [ setInterval_fires 1000;
      callback 1010 0%nat (token_response (Reply 200 tj));
      callback 1020 1%nat (bind_result None);
      callback 1030 3%nat (search_result None);
      callback 1050 4%nat (search_emits end_of_results);
      callback 1060 2%nat (users_response (Reply 401 [])) ] in
  synced st !! 0%nat = Some (Fulfilled true)
  ∧ usersLDAP st !! 0%nat = Some (Fulfilled ())
  ∧ ∃ p, usersDB st !! 0%nat = Some p ∧ p ≠ Pending.
Proof.
  intros tj st. split; [reflexivity|].
  apply (proj2 (syncUsers_waits_for_both_reads _ 0) true). reflexivity.
Defined.

(** X21.  A cycle one of whose reads has failed creates nothing, and
    one whose directory read has failed is never reported as
    synchronised.  Once the promise of [getUsersDB] or of
    [getUsersLDAP] of a cycle is rejected, no creation request of that
    cycle is sent at any later point of the run; and once the promise
    of [getUsersLDAP] is rejected, by a bind error, a search error or an
    error signal of the results, the promise of the cycle is not
    fulfilled at any later point. *)
Theorem failed_read_strands_the_cycle (evs1 evs2 : list event)
    (c : nat) (e : reason) :
  usersDB (run init evs1) !! c = Some (Rejected e)
  ∨ usersLDAP (run init evs1) !! c = Some (Rejected e) →
  (∀ b u s, POST_users c b u s ∉ issued (run init (evs1 ++ evs2)))
  ∧ (usersLDAP (run init evs1) !! c = Some (Rejected e) →
     ∀ v, synced (run init (evs1 ++ evs2)) !! c ≠ Some (Fulfilled v)).
Proof.
  intros Hrej. split.
  - by apply (Isolation.no_creation_after_failed_read evs1 evs2 c e).
  - intros HrejL v [HL _]%fulfilled_after_reads.
    unfold run in HL. rewrite foldl_app in HL.
    pose proof (Directory.run_settled_stays (run init evs1) evs2 c (Rejected e) HrejL)
      as Hstay.
    unfold run in Hstay. rewrite Hstay in HL; [done|done].
Qed.

Lemma failed_read_strands_the_cycle_witness :
  let tj := {| json_access_token := 123456; json_token_type := "Bearer";
               json_expires_in := 900 |} in
  let evs1 :=
    [ setInterval_fires 1000;
      callback 1010 0%nat (token_response (Reply 200 tj));
      callback 1020 1%nat (bind_result (Some "InvalidCredentialsError")) ] in
  let evs2 :=
    [ callback 1030 2%nat
        (users_response (Reply 200 [ {| username := "alice"; surname := Str "Smith" |} ])) ] in
  (∀ b u s, POST_users 0 b u s ∉ issued (run init (evs1 ++ evs2)))
  ∧ ∀ v, synced (run init (evs1 ++ evs2)) !! 0%nat ≠ Some (Fulfilled v).
Proof.
  intros tj evs1 evs2.
  destruct (failed_read_strands_the_cycle evs1 evs2 0
              (LdapError "InvalidCredentialsError")) as [H1 H2].
  - right. reflexivity.
  - split; [exact H1|]. apply H2. reflexivity.
Defined.

End Barrier.

(* ===================================================================== *)
(** ** The directory object *)
(* ===================================================================== *)

Module Listing.
Import JS UserSync.

Lemma usersLDAP_of_snoc (es : list (string * value)) (e : string * value) :
  usersLDAP_of (es ++ [e]) = set e.1 e.2 (usersLDAP_of es).
Proof. unfold usersLDAP_of. by rewrite foldl_app. Qed.

Lemma usersLDAP_of_names (es : list (string * value)) :
  names (usersLDAP_of es) = names (filter (λ e, e.1 ≠ "__proto__"%string) es).
Proof.
  induction es as [|e es IH] using rev_ind; [done|].
  rewrite usersLDAP_of_snoc, Objects.names_set, filter_app, filter_cons, filter_nil.
  destruct (bool_decide_reflect (e.1 = "__proto__"%string)) as [Hp|Hp].
  - rewrite decide_False by (by intros ?). by rewrite app_nil_r.
  - rewrite decide_True by done. destruct e as [k v].
    by rewrite Objects.names_snoc, IH.
Qed.

(** X22.  The object [getUsersLDAP] fills from the entries of a search
    has, for every name but [__proto__], the surname of the last entry
    of that name.  When no name is an array index, [Object.keys] lists
    its names in the order in which they first arrived, so that is the
    order in which [syncUsers] goes through them: a later entry of a
    name that is already there changes the surname and not the place. *)
Theorem directory_keys_in_order_of_arrival (es : list (string * value)) :
  Forall (λ e, index e.1 = false) es →
  keys (usersLDAP_of es) = names (filter (λ e, e.1 ≠ "__proto__"%string) es)
  ∧ ∀ k, usersLDAP_of es !! k
         = if bool_decide (k = "__proto__"%string) then None
           else snd <$> last (filter (λ e, e.1 = k) es).
Proof.
  intros Hes. split.
  - unfold keys. rewrite usersLDAP_of_names.
    set (ks := names _).
    assert (∀ k, k ∈ ks → index k = false) as Hks.
    { intros k Hk. unfold ks in Hk.
      apply Objects.elem_of_names, Objects.lookup_is_Some in Hk.
      apply list_elem_of_fmap in Hk as (e & -> & [_ He]%list_elem_of_filter).
      rewrite Forall_forall in Hes. by apply Hes. }
    clearbody ks. rewrite (Datastore.filter_none (λ k, index k = true) ks).
    + simpl. induction ks as [|k ks IH]; [done|].
      rewrite filter_cons, decide_True by (apply Hks; by left).
      f_equal. apply IH. intros k' Hk'. apply Hks. by right.
    + intros k Hk. rewrite (Hks k Hk). done.
  - clear Hes. intros k. induction es as [|e es IH] using rev_ind.
    { by case_bool_decide. }
    rewrite usersLDAP_of_snoc, Objects.lookup_set, IH.
    rewrite filter_app, last_app, filter_cons, filter_nil.
    destruct (bool_decide_reflect (k = "__proto__"%string)) as [Hk|Hk].
    + destruct (bool_decide_reflect (e.1 = "__proto__"%string)) as [Hp|Hp]; [done|].
      rewrite decide_False by congruence. done.
    + destruct (bool_decide_reflect (e.1 = "__proto__"%string)) as [Hp|Hp].
      * rewrite decide_False by congruence. done.
      * by destruct (decide (e.1 = k)).
Qed.

Lemma directory_keys_in_order_of_arrival_witness :
  keys (usersLDAP_of [ ("zed"%string, Str "Young"); ("amy"%string, Str "Smith");
                       ("__proto__"%string, Str "x"); ("zed"%string, Str "Old") ])
  = [ "zed"%string; "amy"%string ].
Proof.
  apply (proj1 (directory_keys_in_order_of_arrival
                  [ ("zed"%string, Str "Young"); ("amy"%string, Str "Smith");
                    ("__proto__"%string, Str "x"); ("zed"%string, Str "Old") ]
                  ltac:(repeat constructor))).
Defined.

End Listing.
